(** * Mindmap UI: radial layout, tree helpers and interaction controller

    A shallow embedding of the TypeScript sources

      - [src/types/mindmap.ts]           (the [MindmapNode] document type and the
                                          [Mindmap] controller component),
      - [src/utils/mindmapConverter.ts]  ([convertMindmapToFlow], the layout),

    followed by the properties the specification states about them.

    The repository keeps an earlier copy of the converter (a fixed radius of
    350 and a fixed 270-degree fan) and of the component (no search, no
    deletion, no parent in the highlights) next to the current ones.  The
    development follows the current ones, which are the ones the README and
    the specification describe; the placement of the earlier converter is
    kept in [Module Legacy] for comparison.

    Conventions of the embedding.

    - JavaScript numbers that hold coordinates, radii and angles are modelled
      as mathematical reals ([R]); [Math.cos], [Math.sin], [Math.PI],
      [Math.min] and [Math.pow] are [cos], [sin], [PI], [Rmin] and [powerRZ].
      Rounding of IEEE doubles is therefore not part of the model.  Levels,
      indices and sibling counts are natural numbers.
    - JavaScript strings are sequences of UTF-16 code units; the model keeps
      the code units below 256 (Rocq's [ascii]), on which [trim] and
      [toLowerCase] are modelled exactly.
    - [Set<string>] is [gset string]; [T | null] and optional fields are
      [option]; arrays are lists.
    - The arrays [nodes] and [edges] that [calculatePositions] pushes onto are
      threaded through the function as an explicit state.
    - React state is one record; every handler is a function from the state
      before the event to the state after it.  The effect on
      [[searchQuery, searchNodes, selectedNodeId]] is a function of its own
      ([syncSearchHighlight]); [onSearchChange], [afterClick] and
      [afterDelete] are a handler followed by that effect when one of its
      dependencies changed. *)

From Stdlib Require Import Reals Lra Lia ZArith List Ascii String Bool.
From stdpp Require Import base decidable list strings gmap.

Import ListNotations.
Local Open Scope string_scope.
Local Open Scope list_scope.

(** ** The document type ([src/types/mindmap.ts]) *)

Record Metadata := mkMetadata {
  inputs  : option (list string);
  outputs : option (list string);
  notes   : option string;
  tags    : option (list string);
  extra   : list (string * string)   (* [key: string]: any *)
}.

#[local] Unset Elimination Schemes.
Inductive MindmapNode := mkNode {
  id          : string;
  label       : string;
  summary     : string;
  description : string;
  metadata    : option Metadata;
  children    : option (list MindmapNode);
  collapsed   : option bool;
  position    : option (R * R)
}.
#[local] Set Elimination Schemes.

Record MindmapData := mkData {
  root    : MindmapNode;
  title   : option string;
  version : option string
}.

(** Induction over the tree, with the children under [Forall]. *)
Section NodeInd.
Variable P : MindmapNode -> Prop.
Hypothesis Hleaf : forall i l s d m c p, P (mkNode i l s d m None c p).
Hypothesis Hkids : forall i l s d m cs c p,
    Forall P cs -> P (mkNode i l s d m (Some cs) c p).

Fixpoint MindmapNode_ind' (n : MindmapNode) : P n :=
  match n with
  | mkNode i l s d m None c p => Hleaf i l s d m c p
  | mkNode i l s d m (Some cs) c p =>
      Hkids i l s d m cs c p
        ((fix all (l0 : list MindmapNode) : Forall P l0 :=
            match l0 with
            | [] => @List.Forall_nil _ P
            | k :: l1 => @List.Forall_cons _ P k l1 (MindmapNode_ind' k) (all l1)
            end) cs)
  end.
End NodeInd.

(** [node.children || []] *)
Definition kids (n : MindmapNode) : list MindmapNode :=
  match children n with Some cs => cs | None => [] end.

(** ** The layout ([src/utils/mindmapConverter.ts]) *)

Record NodeData := mkNodeData {
  nd_label        : string;
  nd_summary      : string;
  nd_description  : string;
  nd_metadata     : option Metadata;
  nd_originalNode : MindmapNode
}.

Record FlowNode := mkFlowNode {
  fn_id       : string;
  fn_type     : string;
  fn_position : R * R;
  fn_data     : NodeData
}.

Record FlowEdge := mkFlowEdge {
  fe_id       : string;
  fe_source   : string;
  fe_target   : string;
  fe_type     : string;
  fe_animated : bool
}.

Local Open Scope R_scope.

Definition BASE_RADIUS : R := 250.
Definition LEVEL_SCALE : R := 85 / 100.
Definition MIN_SPACING : R := 180.
Definition MAX_ANGLE_SPAN : R := PI * (16 / 10).

(** [BASE_RADIUS * Math.pow(LEVEL_SCALE, level - 1)] *)
Definition radiusOf (level : nat) : R :=
  BASE_RADIUS * powerRZ LEVEL_SCALE (Z.of_nat level - 1).

(** [Math.min(MAX_ANGLE_SPAN, siblingCount * (MIN_SPACING / radius))] *)
Definition angleSpanOf (level siblingCount : nat) : R :=
  Rmin MAX_ANGLE_SPAN (INR siblingCount * (MIN_SPACING / radiusOf level)).

(** The local [angle] of one call of [calculatePositions]. *)
Definition angleOf (level index siblingCount : nat) (parentAngle : R) : R :=
  if (level =? 0)%nat then 0
  else if (level =? 1)%nat then INR index / INR siblingCount * PI * 2
  else
    let angleSpan := angleSpanOf level siblingCount in
    let startAngle := parentAngle - angleSpan / 2 in
    if (siblingCount =? 1)%nat then parentAngle
    else startAngle + INR index / (INR siblingCount - 1) * angleSpan.

(** The locals [x] and [y] of one call of [calculatePositions]. *)
Definition xOf (level index : nat) (parentX : R) (siblingCount : nat)
    (parentAngle : R) : R :=
  if (level =? 0)%nat then 0
  else parentX + cos (angleOf level index siblingCount parentAngle) * radiusOf level.

Definition yOf (level index : nat) (parentY : R) (siblingCount : nat)
    (parentAngle : R) : R :=
  if (level =? 0)%nat then 0
  else parentY + sin (angleOf level index siblingCount parentAngle) * radiusOf level.

(** JavaScript truthiness of a [string | null]: [null] and the empty string
    are falsy. *)
Definition truthy (s : option string) : bool :=
  match s with
  | None => false
  | Some EmptyString => false
  | Some _ => true
  end.

Definition flowNodeOf (node : MindmapNode) (x y : R) : FlowNode :=
  mkFlowNode (id node) "mindmapNode" (x, y)
    (mkNodeData (label node) (summary node) (description node) (metadata node) node).

Definition flowEdgeOf (parentId : string) (node : MindmapNode) : FlowEdge :=
  mkFlowEdge ("edge-" ++ parentId ++ "-" ++ id node) parentId (id node)
    "smoothstep" false.

(** The two arrays of [convertMindmapToFlow]. *)
Definition Out : Type := list FlowNode * list FlowEdge.

Definition pushNode (o : Out) (n : FlowNode) : Out := (fst o ++ [n], snd o).
Definition pushEdge (o : Out) (e : FlowEdge) : Out := (fst o, snd o ++ [e]).

(** [array.forEach((element, index) => ...)] over a threaded state. *)
Fixpoint forEachFrom {A St : Type} (f : A -> nat -> St -> St) (l : list A)
    (index : nat) (s : St) : St :=
  match l with
  | [] => s
  | a :: l' => forEachFrom f l' (S index) (f a index s)
  end.

Definition forEach {A St : Type} (f : A -> nat -> St -> St) (l : list A) (s : St) : St :=
  forEachFrom f l 0%nat s.

Section Layout.
Variable collapsedNodes : gset string.

(** [node.children && node.children.length > 0 && !isCollapsed] *)
Definition hasChildren (node : MindmapNode) : bool :=
  let isCollapsed := bool_decide (id node ∈ collapsedNodes) in
  match children node with
  | Some cs => negb (Nat.eqb (length cs) 0) && negb isCollapsed
  | None => false
  end.

Fixpoint calculatePositions (node : MindmapNode) (level index : nat)
    (parentX parentY : R) (siblingCount : nat) (parentAngle : R)
    (parentId : option string) (out : Out) {struct node} : Out :=
  let isCollapsed := bool_decide (id node ∈ collapsedNodes) in
  let angle := angleOf level index siblingCount parentAngle in
  let x := xOf level index parentX siblingCount parentAngle in
  let y := yOf level index parentY siblingCount parentAngle in
  let out1 := pushNode out (flowNodeOf node x y) in
  let out2 :=
    if truthy parentId
    then pushEdge out1 (flowEdgeOf (default "" parentId) node)
    else out1 in
  match children node with
  | Some cs =>
      if negb (Nat.eqb (length cs) 0) && negb isCollapsed
      then
        let childCount := length cs in
        forEach
          (fun child childIndex o =>
             calculatePositions child (S level) childIndex x y childCount
               angle (Some (id node)) o)
          cs out2
      else out2
  | None => out2
  end.

Definition convertMindmapToFlow (rootNode : MindmapNode) : Out :=
  calculatePositions rootNode 0 0 0 0 1 0 None ([], []).

(** The calls of [calculatePositions] made while laying out [rootNode]:
    the call on the root with the default arguments, and for every call on
    a node that passes the [hasChildren] test, one call per child with the
    arguments the [forEach] loop passes. *)
Inductive Visit (rootNode : MindmapNode) :
    MindmapNode -> nat -> nat -> R -> R -> nat -> R -> option string -> Prop :=
| Visit_root : Visit rootNode rootNode 0 0 0 0 1 0 None
| Visit_child node level index parentX parentY siblingCount parentAngle parentId
      childIndex child :
    Visit rootNode node level index parentX parentY siblingCount parentAngle parentId ->
    hasChildren node = true ->
    nth_error (kids node) childIndex = Some child ->
    Visit rootNode child (S level) childIndex
      (xOf level index parentX siblingCount parentAngle)
      (yOf level index parentY siblingCount parentAngle)
      (length (kids node))
      (angleOf level index siblingCount parentAngle)
      (Some (id node)).

(** The nodes the traversal reaches, in the order it pushes them. *)
Fixpoint visibleNodes (node : MindmapNode) : list MindmapNode :=
  let isCollapsed := bool_decide (id node ∈ collapsedNodes) in
  node :: match children node with
          | Some cs =>
              if negb (Nat.eqb (length cs) 0) && negb isCollapsed
              then flat_map visibleNodes cs
              else []
          | None => []
          end.

(** The edges the traversal pushes, in order. *)
Fixpoint visibleEdges (parentId : option string) (node : MindmapNode)
    : list FlowEdge :=
  let isCollapsed := bool_decide (id node ∈ collapsedNodes) in
  (if truthy parentId then [flowEdgeOf (default "" parentId) node] else [])
  ++ match children node with
     | Some cs =>
         if negb (Nat.eqb (length cs) 0) && negb isCollapsed
         then flat_map (visibleEdges (Some (id node))) cs
         else []
     | None => []
     end.
End Layout.

(** ** Paths, document order and unique ids *)

Local Open Scope nat_scope.

(** The node reached from [n] by following child indices. *)
Fixpoint nodeAt (n : MindmapNode) (p : list nat) : option MindmapNode :=
  match p with
  | [] => Some n
  | i :: p' =>
      match nth_error (kids n) i with
      | Some c => nodeAt c p'
      | None => None
      end
  end.

(** All nodes of a tree in document order (depth first, children in array
    order). *)
Fixpoint allNodes (n : MindmapNode) : list MindmapNode :=
  n :: match children n with
       | Some cs =>
           (fix many (l : list MindmapNode) : list MindmapNode :=
              match l with
              | [] => []
              | c :: l' => allNodes c ++ many l'
              end) cs
       | None => []
       end.

Definition allIds (n : MindmapNode) : list string := map id (allNodes n).

(** The ids strictly inside the subtree of [n]. *)
Definition descendantIds (n : MindmapNode) : list string := tl (allIds n).

(** The data-model invariant: no two nodes of one document share an id. *)
Definition uniqueIds (n : MindmapNode) : Prop := NoDup (allIds n).

(** The fields a node carries itself, without its children. *)
Definition ownFields (n : MindmapNode) :=
  (id n, label n, summary n, description n, metadata n, collapsed n, position n).

(** ** Strings *)

(** [WhiteSpace] and [LineTerminator] code units below 256: TAB, LF, VT, FF,
    CR, SPACE and NBSP. *)
Definition isWhiteSpace (c : ascii) : bool :=
  let n := nat_of_ascii c in
  (n =? 9) || (n =? 10) || (n =? 11) || (n =? 12) || (n =? 13) || (n =? 32)
  || (n =? 160).

Fixpoint trimStart (s : string) : string :=
  match s with
  | EmptyString => EmptyString
  | String c s' => if isWhiteSpace c then trimStart s' else s
  end.

Fixpoint trimEnd (s : string) : string :=
  match s with
  | EmptyString => EmptyString
  | String c s' =>
      match trimEnd s' with
      | EmptyString => if isWhiteSpace c then EmptyString else String c EmptyString
      | t => String c t
      end
  end.

(** [String.prototype.trim] *)
Definition trim (s : string) : string := trimEnd (trimStart s).

(** Truthiness of a string: only the empty string is falsy. *)
Definition nonEmpty (s : string) : bool :=
  match s with EmptyString => false | String _ _ => true end.

(** Lower-casing of one code unit below 256: [A]-[Z], and the Latin-1
    capitals U+00C0-U+00DE other than the multiplication sign U+00D7. *)
Definition lowerChar (c : ascii) : ascii :=
  let n := nat_of_ascii c in
  if ((65 <=? n) && (n <=? 90))
     || ((192 <=? n) && (n <=? 222) && negb (n =? 215))
  then ascii_of_nat (n + 32)
  else c.

(** [String.prototype.toLowerCase] *)
Fixpoint toLowerCase (s : string) : string :=
  match s with
  | EmptyString => EmptyString
  | String c s' => String (lowerChar c) (toLowerCase s')
  end.

(** [s.includes(sub)] *)
Fixpoint includes (s sub : string) : bool :=
  String.prefix sub s
  || match s with
     | EmptyString => false
     | String _ s' => includes s' sub
     end.

(** ** Tree helpers of the controller ([Mindmap] in [src/types/mindmap.ts]) *)

Fixpoint findNode (nodeId : string) (node : MindmapNode) : option MindmapNode :=
  if String.eqb (id node) nodeId then Some node
  else
    match children node with
    | Some cs =>
        (fix loop (l : list MindmapNode) : option MindmapNode :=
           match l with
           | [] => None
           | child :: l' =>
               match findNode nodeId child with
               | Some found => Some found
               | None => loop l'
               end
           end) cs
    | None => None
    end.

(** [Partial<MindmapNode>]: for every field, whether the object has it and
    with which value. *)
Record Updates := mkUpdates {
  u_id          : option string;
  u_label       : option string;
  u_summary     : option string;
  u_description : option string;
  u_metadata    : option (option Metadata);
  u_children    : option (option (list MindmapNode));
  u_collapsed   : option (option bool);
  u_position    : option (option (R * R))
}.

(** [{ ...node, ...updates }] *)
Definition spread (node : MindmapNode) (updates : Updates) : MindmapNode :=
  mkNode (default (id node) (u_id updates))
         (default (label node) (u_label updates))
         (default (summary node) (u_summary updates))
         (default (description node) (u_description updates))
         (default (metadata node) (u_metadata updates))
         (default (children node) (u_children updates))
         (default (collapsed node) (u_collapsed updates))
         (default (position node) (u_position updates)).

(** [{ ...node, children: cs }] *)
Definition withChildren (node : MindmapNode) (cs : list MindmapNode) : MindmapNode :=
  mkNode (id node) (label node) (summary node) (description node)
         (metadata node) (Some cs) (collapsed node) (position node).

Fixpoint updateNodeInTree (nodeId : string) (updates : Updates)
    (node : MindmapNode) : MindmapNode :=
  if String.eqb (id node) nodeId then spread node updates
  else
    match children node with
    | Some cs => withChildren node (map (updateNodeInTree nodeId updates) cs)
    | None => node
    end.

(** [.filter((child): child is MindmapNode => child !== null)] *)
Fixpoint filterNonNull {A : Type} (l : list (option A)) : list A :=
  match l with
  | [] => []
  | Some a :: l' => a :: filterNonNull l'
  | None :: l' => filterNonNull l'
  end.

Fixpoint deleteNodeFromTree (node : MindmapNode) (targetId : string)
    : option MindmapNode :=
  if String.eqb (id node) targetId then None
  else
    match children node with
    | Some cs =>
        let filteredChildren :=
          filterNonNull (map (fun child => deleteNodeFromTree child targetId) cs) in
        Some (withChildren node filteredChildren)
    | None => Some node
    end.

Fixpoint findParent (currentNode : MindmapNode) (targetId : string)
    (parent : option MindmapNode) : option MindmapNode :=
  if String.eqb (id currentNode) targetId then parent
  else
    match children currentNode with
    | Some cs =>
        (fix loop (l : list MindmapNode) : option MindmapNode :=
           match l with
           | [] => None
           | child :: l' =>
               match findParent child targetId (Some currentNode) with
               | Some found => Some found
               | None => loop l'
               end
           end) cs
    | None => None
    end.

(** One node against the lower-cased query. *)
Definition matchesSearch (searchLower : string) (node : MindmapNode) : bool :=
  let matchesLabel := includes (toLowerCase (label node)) searchLower in
  let matchesSummary := includes (toLowerCase (summary node)) searchLower in
  let matchesDescription := includes (toLowerCase (description node)) searchLower in
  let matchesTags :=
    match metadata node with
    | Some m =>
        match tags m with
        | Some ts => existsb (fun tag => includes (toLowerCase tag) searchLower) ts
        | None => false
        end
    | None => false
    end in
  matchesLabel || matchesSummary || matchesDescription || matchesTags.

Fixpoint searchInNode (searchLower : string) (node : MindmapNode)
    (results : list string) : list string :=
  let results1 :=
    if matchesSearch searchLower node then results ++ [id node] else results in
  match children node with
  | Some cs =>
      forEach (fun child _ r => searchInNode searchLower child r) cs results1
  | None => results1
  end.

(** ** The controller state and its handlers *)

Record State := mkState {
  collapsedNodes   : gset string;
  selectedNodeId   : option string;
  hoveredNodeId    : option string;
  highlightedNodes : gset string;
  mindmapData      : MindmapData;
  showSidePanel    : bool;
  searchQuery      : string
}.

Definition setRoot (d : MindmapData) (r : MindmapNode) : MindmapData :=
  mkData r (title d) (version d).

(** The effect on [[data]]: a new document resets the derived state. *)
Definition dataChanged (st : State) (data : MindmapData) : State :=
  mkState ∅ None (hoveredNodeId st) ∅ data false (searchQuery st).

(** The updater passed to [setCollapsedNodes] in [onNodeClick]. *)
Definition toggle (nodeId : string) (prev : gset string) : gset string :=
  if bool_decide (nodeId ∈ prev) then prev ∖ {[ nodeId ]} else prev ∪ {[ nodeId ]}.

(** [selectedNodeId === node.id] *)
Definition isSelected (sel : option string) (nodeId : string) : bool :=
  match sel with
  | Some s => String.eqb s nodeId
  | None => false
  end.

Definition onNodeClick (st : State) (node : FlowNode) : State :=
  let nodeData := nd_originalNode (fn_data node) in
  let collapsedNodes' :=
    match children nodeData with
    | Some cs =>
        if negb (Nat.eqb (length cs) 0)
        then toggle (fn_id node) (collapsedNodes st)
        else collapsedNodes st
    | None => collapsedNodes st
    end in
  let wasAlreadySelected := isSelected (selectedNodeId st) (fn_id node) in
  let showSidePanel' :=
    if negb wasAlreadySelected || negb (showSidePanel st)
    then true else showSidePanel st in
  let relatedNodes0 : gset string := {[ fn_id node ]} in
  let relatedNodes1 :=
    match children nodeData with
    | Some cs => forEach (fun child _ r => r ∪ {[ id child ]}) cs relatedNodes0
    | None => relatedNodes0
    end in
  let parent := findParent (root (mindmapData st)) (fn_id node) None in
  let relatedNodes2 :=
    match parent with
    | Some p => relatedNodes1 ∪ {[ id p ]}
    | None => relatedNodes1
    end in
  mkState collapsedNodes' (Some (fn_id node)) (hoveredNodeId st) relatedNodes2
    (mindmapData st) showSidePanel' (searchQuery st).

Definition onNodeMouseEnter (st : State) (node : FlowNode) : State :=
  mkState (collapsedNodes st) (selectedNodeId st) (Some (fn_id node))
    (highlightedNodes st) (mindmapData st) (showSidePanel st) (searchQuery st).

Definition onNodeMouseLeave (st : State) : State :=
  mkState (collapsedNodes st) (selectedNodeId st) None
    (highlightedNodes st) (mindmapData st) (showSidePanel st) (searchQuery st).

Definition handleUpdateNode (st : State) (nodeId : string) (updates : Updates)
    : State :=
  let updatedRoot := updateNodeInTree nodeId updates (root (mindmapData st)) in
  mkState (collapsedNodes st) (selectedNodeId st) (hoveredNodeId st)
    (highlightedNodes st) (setRoot (mindmapData st) updatedRoot)
    (showSidePanel st) (searchQuery st).

(** [now] is the decimal text of [Date.now()]. *)
Definition handleAddChildNode (st : State) (parentId : string) (now : string)
    : State :=
  match findNode parentId (root (mindmapData st)) with
  | None => st
  | Some parentNode =>
      let newNodeId := (parentId ++ "-child-" ++ now)%string in
      let newNode :=
        mkNode newNodeId "New Node" "Click to edit" "Add a description here"
          (Some (mkMetadata None None None (Some ["new"%string]) []))
          (Some []) None None in
      let updatedRoot :=
        updateNodeInTree parentId
          (mkUpdates None None None None None
             (Some (Some (kids parentNode ++ [newNode]))) None None)
          (root (mindmapData st)) in
      mkState (collapsedNodes st ∖ {[ parentId ]}) (Some newNodeId)
        (hoveredNodeId st) (highlightedNodes st)
        (setRoot (mindmapData st) updatedRoot) (showSidePanel st)
        (searchQuery st)
  end.

Definition handleDeleteNode (st : State) (nodeId : string) : State :=
  if String.eqb nodeId (id (root (mindmapData st))) then st
  else
    match deleteNodeFromTree (root (mindmapData st)) nodeId with
    | Some updatedRoot =>
        mkState (collapsedNodes st) None (hoveredNodeId st) ∅
          (setRoot (mindmapData st) updatedRoot) false (searchQuery st)
    | None => st
    end.

Definition searchNodes (st : State) (query : string) : list string :=
  if negb (nonEmpty (trim query)) then []
  else searchInNode (toLowerCase query) (root (mindmapData st)) [].

(** The body of the effect on [[searchQuery, searchNodes, selectedNodeId]]. *)
Definition syncSearchHighlight (st : State) : State :=
  if nonEmpty (trim (searchQuery st))
  then
    let searchResults := searchNodes st (searchQuery st) in
    mkState (collapsedNodes st) (selectedNodeId st) (hoveredNodeId st)
      (list_to_set searchResults) (mindmapData st) (showSidePanel st)
      (searchQuery st)
  else if negb (truthy (selectedNodeId st))
  then
    mkState (collapsedNodes st) (selectedNodeId st) (hoveredNodeId st)
      ∅ (mindmapData st) (showSidePanel st) (searchQuery st)
  else st.

(** [setSearchQuery(query)] from the search box: when the query differs from
    the stored one the component renders again and the effect above runs. *)
Definition onSearchChange (st : State) (query : string) : State :=
  if String.eqb query (searchQuery st) then st
  else
    syncSearchHighlight
      (mkState (collapsedNodes st) (selectedNodeId st) (hoveredNodeId st)
         (highlightedNodes st) (mindmapData st) (showSidePanel st) query).

(** Concatenation of two output states. *)
Definition appOut (a b : Out) : Out := (fst a ++ fst b, snd a ++ snd b).

Definition emptyOut : Out := ([], []).

(** The first two pushes of one call of [calculatePositions]: the node, and
    the edge from the parent when [parentId] is truthy. *)
Definition ownOut (node : MindmapNode) (level index : nat) (parentX parentY : R)
    (siblingCount : nat) (parentAngle : R) (parentId : option string) : Out :=
  ([flowNodeOf node (xOf level index parentX siblingCount parentAngle)
                    (yOf level index parentY siblingCount parentAngle)],
   if truthy parentId then [flowEdgeOf (default "" parentId) node] else []).

(** What a [forEach] loop adds when every call only appends. *)
Fixpoint concatOutFrom {A : Type} (g : A -> nat -> Out) (l : list A) (index : nat)
    : Out :=
  match l with
  | [] => emptyOut
  | a :: l' => appOut (g a index) (concatOutFrom g l' (S index))
  end.

Definition inclOut (a b : Out) : Prop :=
  incl (fst a) (fst b) /\ incl (snd a) (snd b).

(** ** Documents used in the scenarios *)

(** A node that has only an id. *)
Definition bare (i : string) (cs : option (list MindmapNode)) : MindmapNode :=
  mkNode i "" "" "" None cs None None.

(** [{root:{id:"r",label:"Root",children:[{id:"a"},{id:"b"},{id:"c"}]}}] *)
Definition scenarioRoot : MindmapNode :=
  mkNode "r" "Root" "" "" None
    (Some [bare "a" None; bare "b" None; bare "c" None]) None None.

(** Euclidean distance between two points. *)
Definition dist (p q : R * R) : R :=
  sqrt ((fst p - fst q) * (fst p - fst q) + (snd p - snd q) * (snd p - snd q)).

(** A root [r] with one child [a] that has the children [b] and [c]. *)
Definition fanRoot : MindmapNode :=
  bare "r" (Some [bare "a" (Some [bare "b" None; bare "c" None])]).

(** A chain [r] - [a] - [b]. *)
Definition chainRoot : MindmapNode :=
  bare "r" (Some [bare "a" (Some [bare "b" None])]).

(** ** Statements about the collapsed set *)

(** The parent of the node at path [p]. *)
Definition parentOf (rootNode : MindmapNode) (p : list nat) : option MindmapNode :=
  match p with
  | [] => None
  | _ :: _ => nodeAt rootNode (removelast p)
  end.

(** The layout pushes a node for [X], at some position. *)
Definition nodePositioned (collapsedNodes : gset string) (rootNode X : MindmapNode)
    : Prop :=
  exists x y, In (flowNodeOf X x y) (fst (convertMindmapToFlow collapsedNodes rootNode)).

(** The layout pushes the edge from [par] to [X]. *)
Definition edgeEmitted (collapsedNodes : gset string) (rootNode par X : MindmapNode)
    : Prop :=
  In (flowEdgeOf (id par) X) (snd (convertMindmapToFlow collapsedNodes rootNode)).

(** No id strictly inside the subtree of [X] occurs as a node id, an edge
    source or an edge target of the layout. *)
Definition subtreeHidden (collapsedNodes : gset string) (rootNode X : MindmapNode)
    : Prop :=
  forall d, In d (descendantIds X) ->
    ~ In d (map fn_id (fst (convertMindmapToFlow collapsedNodes rootNode))) /\
    ~ In d (map fe_source (snd (convertMindmapToFlow collapsedNodes rootNode))) /\
    ~ In d (map fe_target (snd (convertMindmapToFlow collapsedNodes rootNode))).

(** No node strictly above the node at path [p] is collapsed. *)
Definition ancestorsExpanded (collapsedNodes : gset string) (rootNode : MindmapNode)
    (p : list nat) : Prop :=
  forall q r m, p = q ++ r -> r <> [] -> nodeAt rootNode q = Some m ->
                id m ∉ collapsedNodes.

(** ** Statements about the tree helpers *)

(** A [for ... of] loop that returns the first non-null result. *)
Fixpoint firstFound {A B : Type} (f : A -> option B) (l : list A) : option B :=
  match l with
  | [] => None
  | a :: l' =>
      match f a with
      | Some b => Some b
      | None => firstFound f l'
      end
  end.

(** The ids of the subtree rooted at the node with id [targetId]: what a
    deletion of [targetId] removes. *)
Definition subtreeIds (tree : MindmapNode) (targetId : string) : list string :=
  match findNode targetId tree with
  | Some X => allIds X
  | None => []
  end.

(** [n] is none of the nodes whose ids are listed in [gone]. *)
Definition kept (gone : list string) (n : MindmapNode) : bool :=
  negb (existsb (String.eqb (id n)) gone).

Definition hasId (e : string) (n : MindmapNode) : bool := String.eqb (id n) e.

(** No node on the way from the root to the position [q], ends included, has
    the id [nodeId]: the node at [q] is neither the node with that id nor one
    of its descendants. *)
Definition pathAvoids (tree : MindmapNode) (nodeId : string) (q : list nat) : Prop :=
  forall k m, nodeAt tree (firstn k q) = Some m -> id m <> nodeId.

(** Every node of [tree] whose id differs from [nodeId] is still at its place
    in [tree'], with its own fields unchanged. *)
Definition othersUnchanged (tree tree' : MindmapNode) (nodeId : string) : Prop :=
  forall q n', nodeAt tree q = Some n' -> id n' <> nodeId ->
               option_map ownFields (nodeAt tree' q) = Some (ownFields n').

(** [{ children: [] }] *)
Definition dropChildren : Updates :=
  mkUpdates None None None None None (Some (Some [])) None None.

(** [{ label: "A" }] *)
Definition relabel : Updates :=
  mkUpdates None (Some "A") None None None None None None.

(** ** Statements about search and selection *)

(** The string consists only of white space (the empty string included). *)
Fixpoint allWhiteSpace (s : string) : bool :=
  match s with
  | EmptyString => true
  | String c s' => isWhiteSpace c && allWhiteSpace s'
  end.

(** [s] contains [q] as a substring when case is ignored. *)
Definition containsCI (s q : string) : Prop :=
  exists pre post, toLowerCase s = (pre ++ toLowerCase q ++ post)%string.

(** The label, the summary, the description or some tag of [n] contains the
    query, case ignored. *)
Definition nodeMatches (query : string) (n : MindmapNode) : Prop :=
  containsCI (label n) query \/
  containsCI (summary n) query \/
  containsCI (description n) query \/
  exists m ts tag, metadata n = Some m /\ tags m = Some ts /\ In tag ts /\
                   containsCI tag query.

(** The highlighted ids are exactly the ids of the matching nodes. *)
Definition highlightsAreMatches (st : State) (query : string) : Prop :=
  forall i, i ∈ highlightedNodes st <->
            exists n, In n (allNodes (root (mindmapData st))) /\ id n = i /\
                      nodeMatches query n.

(** The [selectedNode] memo of the component. *)
Definition selectedNode (st : State) : option MindmapNode :=
  if negb (truthy (selectedNodeId st)) then None
  else findNode (default "" (selectedNodeId st)) (root (mindmapData st)).

(** The state of a freshly mounted component showing [r]. *)
Definition initialState (r : MindmapNode) : State :=
  mkState ∅ None None ∅ (mkData r None None) false "".

(** A single node whose label has a space in it. *)
Definition spacedRoot : MindmapNode :=
  mkNode "r" "a b" "" "" None None None None.

(** A node tagged [library] and [ui]. *)
Definition taggedRoot : MindmapNode :=
  mkNode "react" "React" "" ""
    (Some (mkMetadata None None None (Some ["library"; "ui"]) [])) None None None.

(** ** The earlier converter *)

Module Legacy.

Definition HORIZONTAL_SPACING : R := 350.

(** The local [angle] of the earlier [calculatePositions], below the root. *)
Definition angleOf (level index siblingCount : nat) : R :=
  if (level =? 1)%nat then INR index / INR siblingCount * PI * 2
  else INR index / INR siblingCount * PI * (15 / 10) - PI * (75 / 100).

Definition xOf (level index : nat) (parentX : R) (siblingCount : nat) : R :=
  if (level =? 0)%nat then 0
  else parentX + cos (angleOf level index siblingCount) * HORIZONTAL_SPACING.

Definition yOf (level index : nat) (parentY : R) (siblingCount : nat) : R :=
  if (level =? 0)%nat then 0
  else parentY + sin (angleOf level index siblingCount) * HORIZONTAL_SPACING.

End Legacy.

(** ** The earlier converter, in full *)

Module LegacyFlow.

(** The arrays [nodes] and [edges] and the map [nodePositions]. *)
Record Store := mkStore {
  nodes         : list FlowNode;
  edges         : list FlowEdge;
  nodePositions : gmap string (R * R)
}.

Definition emptyStore : Store := mkStore [] [] ∅.

Section Layout.
Variable collapsedNodes : gset string.

Fixpoint calculatePositions (node : MindmapNode) (level index : nat)
    (parentX parentY : R) (siblingCount : nat) (parentId : option string)
    (st : Store) {struct node} : Store :=
  let isCollapsed := bool_decide (id node ∈ collapsedNodes) in
  let x := Legacy.xOf level index parentX siblingCount in
  let y := Legacy.yOf level index parentY siblingCount in
  let st1 :=
    mkStore (nodes st ++ [flowNodeOf node x y]) (edges st)
      (<[ id node := (x, y) ]> (nodePositions st)) in
  let st2 :=
    if truthy parentId
    then mkStore (nodes st1) (edges st1 ++ [flowEdgeOf (default "" parentId) node])
           (nodePositions st1)
    else st1 in
  match children node with
  | Some cs =>
      if negb (Nat.eqb (length cs) 0) && negb isCollapsed
      then
        let childCount := length cs in
        forEach
          (fun child childIndex s =>
             calculatePositions child (S level) childIndex x y childCount
               (Some (id node)) s)
          cs st2
      else st2
  | None => st2
  end.

Definition convertMindmapToFlow (rootNode : MindmapNode) : Out :=
  let st := calculatePositions rootNode 0 0 0 0 1 None emptyStore in
  (nodes st, edges st).
End Layout.

End LegacyFlow.

(** ** What the component renders *)

Record NodeStyle := mkNodeStyle {
  opacity       : R;
  ns_transition : string;
  zIndex        : nat
}.

Record StyledNode := mkStyledNode {
  sn_node          : FlowNode;
  sn_style         : NodeStyle;
  sn_isHighlighted : bool;
  sn_isHovered     : bool;
  sn_isSelected    : bool;
  sn_isCollapsed   : bool
}.

Record EdgeStyle := mkEdgeStyle {
  stroke        : string;
  strokeWidth   : R;
  es_transition : string
}.

Record StyledEdge := mkStyledEdge {
  se_edge     : FlowEdge;
  se_style    : EdgeStyle;
  se_animated : bool;
  se_zIndex   : nat
}.

(** One element of the [nodesWithStyles] memo. *)
Definition styleNode (st : State) (node : FlowNode) : StyledNode :=
  let isHighlighted := bool_decide (fn_id node ∈ highlightedNodes st) in
  let isHovered := isSelected (hoveredNodeId st) (fn_id node) in
  let isSelected := isSelected (selectedNodeId st) (fn_id node) in
  let isCollapsed := bool_decide (fn_id node ∈ collapsedNodes st) in
  let nodeData := nd_originalNode (fn_data node) in
  let hasChildren :=
    match children nodeData with
    | Some cs => negb (Nat.eqb (length cs) 0)
    | None => false
    end in
  mkStyledNode node
    (mkNodeStyle
       (if (0 <? size (highlightedNodes st)) && negb isHighlighted
        then 3 / 10 else 1)%R
       "opacity 0.4s cubic-bezier(0.4, 0, 0.2, 1), transform 0.3s cubic-bezier(0.4, 0, 0.2, 1)"
       (if isSelected then 1000 else if isHovered then 100
        else if isHighlighted then 50 else 1))
    isHighlighted isHovered isSelected
    (if hasChildren then isCollapsed else false).

Definition nodesWithStyles (st : State) (nodes : list FlowNode) : list StyledNode :=
  map (styleNode st) nodes.

(** One element of the [edgesWithStyles] memo. *)
Definition styleEdge (st : State) (edge : FlowEdge) : StyledEdge :=
  let isHighlighted :=
    bool_decide (fe_source edge ∈ highlightedNodes st)
    || bool_decide (fe_target edge ∈ highlightedNodes st) in
  let isHovered :=
    isSelected (hoveredNodeId st) (fe_source edge)
    || isSelected (hoveredNodeId st) (fe_target edge) in
  let isSelected :=
    isSelected (selectedNodeId st) (fe_source edge)
    || isSelected (selectedNodeId st) (fe_target edge) in
  mkStyledEdge edge
    (mkEdgeStyle
       (if isSelected then "#8b5cf6"
        else if isHighlighted then "#6366f1"
        else if isHovered then "#818cf8"
        else "rgba(148, 163, 184, 0.5)")
       (if isSelected then 4 else if isHighlighted then 3
        else if isHovered then 5 / 2 else 2)%R
       "stroke 0.3s ease, stroke-width 0.3s ease")
    (isHighlighted || isSelected)
    (if isSelected then 100 else if isHighlighted then 50 else 1).

Definition edgesWithStyles (st : State) (edges : list FlowEdge) : list StyledEdge :=
  map (styleEdge st) edges.

(** The node whose tooltip the [hoverTooltip] memo renders, if any. *)
Definition hoverTooltip (st : State) : option MindmapNode :=
  if negb (truthy (hoveredNodeId st)) then None
  else
    match findNode (default "" (hoveredNodeId st)) (root (mindmapData st)) with
    | None => None
    | Some node =>
        if isSelected (selectedNodeId st) (default "" (hoveredNodeId st))
           && showSidePanel st
        then None
        else Some node
    end.

(** [onClose] of the side panel, and a click on the overlay. *)
Definition closePanel (st : State) : State :=
  mkState (collapsedNodes st) None (hoveredNodeId st) ∅ (mindmapData st) false
    (searchQuery st).

(** ** The side panel ([src/components/SidePanel.tsx]) *)

(** [s.split(sep)] for a one-character separator. *)
Fixpoint split (sep : ascii) (s : string) : list string :=
  match s with
  | EmptyString => [EmptyString]
  | String c s' =>
      if Ascii.eqb c sep then EmptyString :: split sep s'
      else
        match split sep s' with
        | h :: t => String c h :: t
        | [] => [String c EmptyString]
        end
  end.

(** [l.join(sep)] *)
Fixpoint join (sep : string) (l : list string) : string :=
  match l with
  | [] => EmptyString
  | [a] => a
  | a :: l' => (a ++ sep ++ join sep l')%string
  end.

(** [e.target.value.split(',').map((t) => t.trim())] *)
Definition commaList (value : string) : list string :=
  map trim (split "," value).

(** The text shown in a comma-separated box: [list.join(', ')]. *)
Definition commaText (l : list string) : string := join ", " l.

(** [{ [field]: value }] for the fields the panel edits. *)
Inductive FieldValue :=
| LabelValue (value : string)
| SummaryValue (value : string)
| DescriptionValue (value : string)
| MetadataValue (value : Metadata).

Definition fieldUpdates (v : FieldValue) : Updates :=
  match v with
  | LabelValue s => mkUpdates None (Some s) None None None None None None
  | SummaryValue s => mkUpdates None None (Some s) None None None None None
  | DescriptionValue s => mkUpdates None None None (Some s) None None None None
  | MetadataValue m => mkUpdates None None None None (Some (Some m)) None None None
  end.

(** [handleFieldUpdate] of the panel wired to [handleUpdateNode] of the
    component. *)
Definition handleFieldUpdate (st : State) (selected : MindmapNode) (v : FieldValue)
    : State :=
  handleUpdateNode st (id selected) (fieldUpdates v).

(** [onChange] of the tags box. *)
Definition onTagsChange (st : State) (selected : MindmapNode) (m : Metadata)
    (value : string) : State :=
  handleFieldUpdate st selected
    (MetadataValue
       (mkMetadata (inputs m) (outputs m) (notes m) (Some (commaList value)) (extra m))).

(** Node ids as lists, for filtering. *)
Definition keptFlowNode (gone : list string) (fn : FlowNode) : bool :=
  negb (existsb (String.eqb (fn_id fn)) gone).

Definition keptFlowEdge (gone : list string) (e : FlowEdge) : bool :=
  negb (existsb (String.eqb (fe_target e)) gone).

(** The sum of the radii of the levels [1 .. level]. *)
Fixpoint reach (level : nat) : R :=
  match level with
  | O => 0%R
  | S l => (reach l + radiusOf (S l))%R
  end.

(** The layout without the nodes whose ids are in [gone] and without the
    edges that lead to them. *)
Definition filterOut (gone : list string) (o : Out) : Out :=
  (List.filter (keptFlowNode gone) (fst o), List.filter (keptFlowEdge gone) (snd o)).

(** Where a node is drawn: its id and its position. *)
Definition placement (fn : FlowNode) : string * (R * R) := (fn_id fn, fn_position fn).

(** The layout of the current state. *)
Definition layoutOf (st : State) : Out :=
  convertMindmapToFlow (collapsedNodes st) (root (mindmapData st)).

(** The node [handleAddChildNode] creates, and the update it applies. *)
Definition newChildNode (parentId now : string) : MindmapNode :=
  mkNode (parentId ++ "-child-" ++ now)%string "New Node" "Click to edit"
    "Add a description here"
    (Some (mkMetadata None None None (Some ["new"%string]) []))
    (Some []) None None.

Definition appendChild (parentNode newNode : MindmapNode) : Updates :=
  mkUpdates None None None None None
    (Some (Some (kids parentNode ++ [newNode]))) None None.

(** The tree update [handleAddChildNode] performs. *)
Definition addChildTo (parentNode newNode : MindmapNode) : MindmapNode -> MindmapNode :=
  updateNodeInTree (id parentNode) (appendChild parentNode newNode).

(** Every node of [t] with the parent's id has the parent's children. *)
Definition onlyParent (parentNode t : MindmapNode) : Prop :=
  forall m, In m (allNodes t) -> id m = id parentNode -> kids m = kids parentNode.

(** [s] has the code unit [c]. *)
Fixpoint hasChar (c : ascii) (s : string) : bool :=
  match s with
  | EmptyString => false
  | String d s' => Ascii.eqb d c || hasChar c s'
  end.

(** ** The handlers followed by the search effect *)

(** [Object.is] on two values of [selectedNodeId]. *)
Definition sameSelection (a b : option string) : bool :=
  match a, b with
  | None, None => true
  | Some x, Some y => String.eqb x y
  | _, _ => false
  end.

(** A click and the render that follows it.  The effect on
    [[searchQuery, searchNodes, selectedNodeId]] runs when the click changed
    [selectedNodeId]; a click changes neither [searchQuery] nor
    [mindmapData], on which [searchNodes] depends. *)
Definition afterClick (st : State) (node : FlowNode) : State :=
  let st' := onNodeClick st node in
  if sameSelection (selectedNodeId st) (selectedNodeId st') then st'
  else syncSearchHighlight st'.

(** A deletion and the render that follows it.  When the handler stores a
    document it is a new object, so [searchNodes] is a new callback and the
    effect runs. *)
Definition afterDelete (st : State) (nodeId : string) : State :=
  let st' := handleDeleteNode st nodeId in
  if String.eqb nodeId (id (root (mindmapData st))) then st'
  else
    match deleteNodeFromTree (root (mindmapData st)) nodeId with
    | Some _ => syncSearchHighlight st'
    | None => st'
    end.


(** The scenario document shown with the query [root] typed into the search
    box and nothing selected. *)
Definition searchingState : State :=
  mkState ∅ None None (list_to_set ["r"]) (mkData scenarioRoot None None) false "root".

(** ** Statements about updates *)

(** [l] with its [i]-th element replaced by [x]. *)
Fixpoint setNth {A : Type} (i : nat) (x : A) (l : list A) : list A :=
  match l, i with
  | [], _ => []
  | _ :: l', O => x :: l'
  | a :: l', S i' => a :: setNth i' x l'
  end.

(** The tree [t] with the subtree at path [p] replaced by [new]. *)
Fixpoint replaceAt (t : MindmapNode) (p : list nat) (new : MindmapNode)
    : MindmapNode :=
  match p with
  | [] => new
  | i :: p' =>
      match nth_error (kids t) i with
      | Some c => withChildren t (setNth i (replaceAt c p' new) (kids t))
      | None => t
      end
  end.

(** What [updateNodeInTree] leaves of one node when it supplies no
    [children]: the merged node where the id matches, the node itself
    elsewhere. *)
Definition mergedNode (nodeId : string) (updates : Updates) (m : MindmapNode)
    : MindmapNode :=
  if String.eqb (id m) nodeId then spread m updates else m.

(** * Proofs *)

(** ** Document order and unique ids *)

Lemma allNodes_eq n : allNodes n = n :: flat_map allNodes (kids n).
Proof.
  destruct n as [i l s d m [cs|] c p]; reflexivity.
Qed.

Lemma allIds_eq n : allIds n = id n :: flat_map allIds (kids n).
Proof.
  unfold allIds. rewrite allNodes_eq. simpl. f_equal.
  induction (kids n) as [|k cs IH]; simpl; [reflexivity|].
  now rewrite map_app, IH.
Qed.

Lemma descendantIds_eq n : descendantIds n = flat_map allIds (kids n).
Proof. unfold descendantIds. now rewrite allIds_eq. Qed.

Lemma kids_Some i l s d m cs c p : kids (mkNode i l s d m (Some cs) c p) = cs.
Proof. reflexivity. Qed.

Lemma kids_None i l s d m c p : kids (mkNode i l s d m None c p) = [].
Proof. reflexivity. Qed.

(** Induction over the tree through [kids]. *)
Lemma node_ind_kids (P : MindmapNode -> Prop) :
  (forall n, Forall P (kids n) -> P n) -> forall n, P n.
Proof.
  intros H n. induction n using MindmapNode_ind'; apply H; unfold kids; simpl; auto.
Qed.

Lemma in_allIds_self n : In (id n) (allIds n).
Proof. rewrite allIds_eq. now left. Qed.

Lemma in_allIds_kid n k x : In k (kids n) -> In x (allIds k) -> In x (allIds n).
Proof.
  intros Hk Hx. rewrite allIds_eq. right. apply in_flat_map. eauto.
Qed.

Lemma NoDup_flat_map_inv {A B} (f : A -> list B) (l : list A) :
  NoDup (flat_map f l) ->
  Forall (fun a => NoDup (f a)) l /\
  (forall i j a b x, nth_error l i = Some a -> nth_error l j = Some b ->
                     In x (f a) -> In x (f b) -> i = j).
Proof.
  induction l as [|a l IH]; simpl; intros Hnd.
  - split; [constructor|]. intros [|i] j a b x; discriminate.
  - apply NoDup_app in Hnd as (Ha & Hdisj & Hl).
    destruct (IH Hl) as [IH1 IH2]. split; [constructor; assumption|].
    intros [|i] [|j] a' b' x; simpl; intros E1 E2 I1 I2.
    + reflexivity.
    + exfalso. injection E1 as <-. apply (Hdisj x); [now apply list_elem_of_In|].
      apply list_elem_of_In, in_flat_map. exists b'. split; [|assumption].
      eapply nth_error_In; eauto.
    + exfalso. injection E2 as <-. apply (Hdisj x); [now apply list_elem_of_In|].
      apply list_elem_of_In, in_flat_map. exists a'. split; [|assumption].
      eapply nth_error_In; eauto.
    + f_equal. eapply IH2; eauto.
Qed.

Lemma uniqueIds_inv n :
  uniqueIds n ->
  ~ In (id n) (descendantIds n) /\
  Forall uniqueIds (kids n) /\
  (forall i j a b x, nth_error (kids n) i = Some a -> nth_error (kids n) j = Some b ->
                     In x (allIds a) -> In x (allIds b) -> i = j).
Proof.
  unfold uniqueIds. rewrite descendantIds_eq, allIds_eq. intros H.
  apply NoDup_cons in H as [H1 H2].
  rewrite list_elem_of_In in H1.
  destruct (NoDup_flat_map_inv _ _ H2) as [H3 H4]. auto.
Qed.

(** ** The layout traversal *)

Lemma appOut_empty_r o : appOut o emptyOut = o.
Proof. destruct o. unfold appOut. simpl. now rewrite !app_nil_r. Qed.

Lemma appOut_empty_l o : appOut emptyOut o = o.
Proof. now destruct o. Qed.

Lemma appOut_assoc a b c : appOut (appOut a b) c = appOut a (appOut b c).
Proof. unfold appOut. simpl. now rewrite <- !app_assoc. Qed.

Lemma forEachFrom_appOut {A} (f : A -> nat -> Out -> Out) (l : list A) :
  Forall (fun a => forall i o, f a i o = appOut o (f a i emptyOut)) l ->
  forall k o, forEachFrom f l k o = appOut o (forEachFrom f l k emptyOut).
Proof.
  induction 1 as [|a l Ha _ IH]; intros k o; simpl.
  - now rewrite appOut_empty_r.
  - rewrite IH. rewrite (IH _ (f a k emptyOut)).
    rewrite (Ha k o). now rewrite appOut_assoc.
Qed.

Lemma forEachFrom_cons_appOut {A} (f : A -> nat -> Out -> Out) a (l : list A) k :
  Forall (fun a => forall i o, f a i o = appOut o (f a i emptyOut)) (a :: l) ->
  forEachFrom f (a :: l) k emptyOut
  = appOut (f a k emptyOut) (forEachFrom f l (S k) emptyOut).
Proof.
  intros H. simpl. apply forEachFrom_appOut. now inversion H.
Qed.

Section LayoutFacts.
Variable collapsedNodes : gset string.

Lemma calculatePositions_eq node level index px py sc pa pid out :
  calculatePositions collapsedNodes node level index px py sc pa pid out =
  let out2 := appOut out (ownOut node level index px py sc pa pid) in
  if hasChildren collapsedNodes node
  then forEach
         (fun child childIndex o =>
            calculatePositions collapsedNodes child (S level) childIndex
              (xOf level index px sc pa) (yOf level index py sc pa)
              (length (kids node)) (angleOf level index sc pa)
              (Some (id node)) o)
         (kids node) out2
  else out2.
Proof.
  assert (E : (if truthy pid
               then pushEdge (pushNode out (flowNodeOf node (xOf level index px sc pa)
                                              (yOf level index py sc pa)))
                      (flowEdgeOf (default "" pid) node)
               else pushNode out (flowNodeOf node (xOf level index px sc pa)
                                    (yOf level index py sc pa)))
              = appOut out (ownOut node level index px py sc pa pid)).
  { unfold ownOut, appOut, pushEdge, pushNode. destruct (truthy pid); simpl;
      [reflexivity | now rewrite app_nil_r]. }
  destruct node as [i l s d m [cs|] c p]; unfold hasChildren, kids; cbn zeta;
    simpl children; simpl id; cbv beta;
    [| simpl; exact E].
  simpl calculatePositions. simpl id. rewrite E. reflexivity.
Qed.

Lemma calculatePositions_appOut node :
  forall level index px py sc pa pid out,
    calculatePositions collapsedNodes node level index px py sc pa pid out =
    appOut out (calculatePositions collapsedNodes node level index px py sc pa pid emptyOut).
Proof.
  induction node as [node IH] using node_ind_kids.
  intros. rewrite !calculatePositions_eq. cbv zeta.
  rewrite appOut_empty_l.
  destruct (hasChildren collapsedNodes node); [|reflexivity].
  unfold forEach. rewrite forEachFrom_appOut.
  - symmetry. rewrite forEachFrom_appOut.
    + now rewrite appOut_assoc.
    + eapply Forall_impl; [exact IH|]. intros a Ha i o. apply Ha.
  - eapply Forall_impl; [exact IH|]. intros a Ha i o. apply Ha.
Qed.

(** One call: its own pushes, then the calls on the children. *)
Lemma calculatePositions_unfold node level index px py sc pa pid :
  calculatePositions collapsedNodes node level index px py sc pa pid emptyOut =
  appOut (ownOut node level index px py sc pa pid)
    (if hasChildren collapsedNodes node
     then forEach
            (fun child childIndex o =>
               calculatePositions collapsedNodes child (S level) childIndex
                 (xOf level index px sc pa) (yOf level index py sc pa)
                 (length (kids node)) (angleOf level index sc pa)
                 (Some (id node)) o)
            (kids node) emptyOut
     else emptyOut).
Proof.
  rewrite calculatePositions_eq. cbv zeta. rewrite appOut_empty_l.
  destruct (hasChildren collapsedNodes node); [|now rewrite appOut_empty_r].
  unfold forEach. apply forEachFrom_appOut.
  apply Forall_forall. intros a _ i o. apply calculatePositions_appOut.
Qed.
End LayoutFacts.

Lemma forEachFrom_concatOut {A} (f : A -> nat -> Out -> Out) (l : list A) :
  Forall (fun a => forall i o, f a i o = appOut o (f a i emptyOut)) l ->
  forall k, forEachFrom f l k emptyOut
            = concatOutFrom (fun a i => f a i emptyOut) l k.
Proof.
  induction 1 as [|a l Ha Hl IH]; intros k; [reflexivity|].
  rewrite forEachFrom_cons_appOut by (constructor; assumption).
  simpl. now rewrite IH.
Qed.

Lemma concatOutFrom_fst_map {A B} (g : A -> nat -> Out) (h : FlowNode -> B)
    (H : A -> list B) (l : list A) :
  Forall (fun a => forall i, map h (fst (g a i)) = H a) l ->
  forall k, map h (fst (concatOutFrom g l k)) = flat_map H l.
Proof.
  induction 1 as [|a l Ha _ IH]; intros k; simpl; [reflexivity|].
  now rewrite map_app, Ha, IH.
Qed.

Lemma concatOutFrom_snd {A} (g : A -> nat -> Out) (E : A -> list FlowEdge)
    (l : list A) :
  Forall (fun a => forall i, snd (g a i) = E a) l ->
  forall k, snd (concatOutFrom g l k) = flat_map E l.
Proof.
  induction 1 as [|a l Ha _ IH]; intros k; simpl; [reflexivity|].
  now rewrite Ha, IH.
Qed.

Lemma inclOut_refl o : inclOut o o.
Proof. split; apply incl_refl. Qed.

Lemma inclOut_trans a b c : inclOut a b -> inclOut b c -> inclOut a c.
Proof. intros [H1 H2] [H3 H4]. split; eapply incl_tran; eauto. Qed.

Lemma inclOut_appOut_l a b : inclOut a (appOut a b).
Proof. split; apply incl_appl, incl_refl. Qed.

Lemma inclOut_appOut_r a b : inclOut b (appOut a b).
Proof. split; apply incl_appr, incl_refl. Qed.

Lemma concatOutFrom_incl {A} (g : A -> nat -> Out) (l : list A) :
  forall i a k, nth_error l i = Some a ->
                inclOut (g a (k + i)) (concatOutFrom g l k).
Proof.
  induction l as [|b l IH]; intros [|i] a k E; simpl in E; try discriminate.
  - injection E as ->. rewrite Nat.add_0_r. apply inclOut_appOut_l.
  - eapply inclOut_trans; [|apply inclOut_appOut_r].
    replace (k + S i) with (S k + i) by lia. now apply IH.
Qed.

Lemma concatOutFrom_fst_inv {A} (g : A -> nat -> Out) (l : list A) :
  forall k fn, In fn (fst (concatOutFrom g l k)) ->
               exists i a, nth_error l i = Some a /\ In fn (fst (g a (k + i))).
Proof.
  induction l as [|b l IH]; intros k fn H; simpl in H; [contradiction|].
  apply in_app_or in H as [H | H].
  - exists 0, b. rewrite Nat.add_0_r. split; [reflexivity | assumption].
  - destruct (IH _ _ H) as (i & a & Hi & Ha). exists (S i), a.
    replace (k + S i) with (S k + i) by lia. split; assumption.
Qed.

Section LayoutContents.
Variable collapsedNodes : gset string.

Lemma hasChildren_eq node :
  hasChildren collapsedNodes node
  = negb (Nat.eqb (length (kids node)) 0)
    && negb (bool_decide (id node ∈ collapsedNodes)).
Proof. destruct node as [i l s d m [cs|] c p]; reflexivity. Qed.

Lemma hasChildren_true node :
  hasChildren collapsedNodes node = true <->
  kids node <> [] /\ id node ∉ collapsedNodes.
Proof.
  rewrite hasChildren_eq, andb_true_iff, !negb_true_iff, bool_decide_eq_false.
  rewrite Nat.eqb_neq. destruct (kids node); simpl; intuition congruence.
Qed.

Lemma visibleNodes_eq node :
  visibleNodes collapsedNodes node
  = node :: if hasChildren collapsedNodes node
            then flat_map (visibleNodes collapsedNodes) (kids node) else [].
Proof. destruct node as [i l s d m [cs|] c p]; reflexivity. Qed.

Lemma visibleEdges_eq pid node :
  visibleEdges collapsedNodes pid node
  = (if truthy pid then [flowEdgeOf (default "" pid) node] else [])
    ++ if hasChildren collapsedNodes node
       then flat_map (visibleEdges collapsedNodes (Some (id node))) (kids node)
       else [].
Proof. destruct node as [i l s d m [cs|] c p]; reflexivity. Qed.

Lemma forEach_calc_concat node level x y a :
  forEach
    (fun child childIndex o =>
       calculatePositions collapsedNodes child (S level) childIndex x y
         (length (kids node)) a (Some (id node)) o)
    (kids node) emptyOut
  = concatOutFrom
      (fun child childIndex =>
         calculatePositions collapsedNodes child (S level) childIndex x y
           (length (kids node)) a (Some (id node)) emptyOut)
      (kids node) 0.
Proof.
  unfold forEach. apply forEachFrom_concatOut.
  apply Forall_forall. intros c _ i o. apply calculatePositions_appOut.
Qed.

(** The nodes pushed are the visible nodes, in order. *)
Lemma calculatePositions_nodes node :
  forall level index px py sc pa pid,
    map (fun fn => nd_originalNode (fn_data fn))
      (fst (calculatePositions collapsedNodes node level index px py sc pa pid emptyOut))
    = visibleNodes collapsedNodes node.
Proof.
  induction node as [node IH] using node_ind_kids. intros.
  rewrite calculatePositions_unfold, visibleNodes_eq.
  destruct (hasChildren collapsedNodes node); simpl; [|reflexivity].
  f_equal. rewrite forEach_calc_concat.
  apply concatOutFrom_fst_map.
  eapply Forall_impl; [exact IH|]. intros c Hc i. apply Hc.
Qed.

Lemma calculatePositions_ids node :
  forall level index px py sc pa pid,
    map fn_id
      (fst (calculatePositions collapsedNodes node level index px py sc pa pid emptyOut))
    = map id (visibleNodes collapsedNodes node).
Proof.
  induction node as [node IH] using node_ind_kids. intros.
  rewrite calculatePositions_unfold, visibleNodes_eq.
  destruct (hasChildren collapsedNodes node); simpl; [|reflexivity].
  f_equal. rewrite forEach_calc_concat.
  rewrite (concatOutFrom_fst_map _ fn_id
             (fun c => map id (visibleNodes collapsedNodes c))).
  - clear IH. induction (kids node) as [|c cs IHc]; simpl; [reflexivity|].
    now rewrite map_app, IHc.
  - eapply Forall_impl; [exact IH|]. intros c Hc i. apply Hc.
Qed.

(** The edges pushed are the visible edges, in order. *)
Lemma calculatePositions_edges node :
  forall level index px py sc pa pid,
    snd (calculatePositions collapsedNodes node level index px py sc pa pid emptyOut)
    = visibleEdges collapsedNodes pid node.
Proof.
  induction node as [node IH] using node_ind_kids. intros.
  rewrite calculatePositions_unfold, visibleEdges_eq.
  destruct (hasChildren collapsedNodes node); simpl; [|reflexivity].
  f_equal. rewrite forEach_calc_concat.
  apply concatOutFrom_snd.
  eapply Forall_impl; [exact IH|]. intros c Hc i. apply Hc.
Qed.

(** Every call contributes its whole output to the result. *)
Lemma Visit_inclOut rootNode node level index px py sc pa pid :
  Visit collapsedNodes rootNode node level index px py sc pa pid ->
  inclOut (calculatePositions collapsedNodes node level index px py sc pa pid emptyOut)
          (convertMindmapToFlow collapsedNodes rootNode).
Proof.
  induction 1 as [|node level index px py sc pa pid i child HV IH Hc Hi].
  - apply inclOut_refl.
  - eapply inclOut_trans; [|exact IH].
    rewrite (calculatePositions_unfold _ node), Hc, forEach_calc_concat.
    eapply inclOut_trans; [|apply inclOut_appOut_r].
    exact (concatOutFrom_incl
             (fun child childIndex =>
                calculatePositions collapsedNodes child (S level) childIndex
                  (xOf level index px sc pa) (yOf level index py sc pa)
                  (length (kids node)) (angleOf level index sc pa)
                  (Some (id node)) emptyOut)
             _ i child 0 Hi).
Qed.

Lemma Visit_node rootNode node level index px py sc pa pid :
  Visit collapsedNodes rootNode node level index px py sc pa pid ->
  In (flowNodeOf node (xOf level index px sc pa) (yOf level index py sc pa))
     (fst (convertMindmapToFlow collapsedNodes rootNode)).
Proof.
  intros H. apply Visit_inclOut in H as [H _]. apply H.
  rewrite calculatePositions_unfold. simpl. now left.
Qed.

Lemma Visit_edge rootNode node level index px py sc pa pid :
  Visit collapsedNodes rootNode node level index px py sc pa pid ->
  truthy pid = true ->
  In (flowEdgeOf (default "" pid) node)
     (snd (convertMindmapToFlow collapsedNodes rootNode)).
Proof.
  intros H T. apply Visit_inclOut in H as [_ H]. apply H.
  rewrite calculatePositions_unfold. simpl. rewrite T. now left.
Qed.
(** Every node pushed comes from a call, with the position that call
    computes. *)
Lemma Visit_complete_from rootNode node :
  forall level index px py sc pa pid,
    Visit collapsedNodes rootNode node level index px py sc pa pid ->
    forall fn,
      In fn (fst (calculatePositions collapsedNodes node level index px py sc pa pid
                    emptyOut)) ->
      exists n' level' index' px' py' sc' pa' pid',
        Visit collapsedNodes rootNode n' level' index' px' py' sc' pa' pid' /\
        fn = flowNodeOf n' (xOf level' index' px' sc' pa') (yOf level' index' py' sc' pa').
Proof.
  induction node as [node IH] using node_ind_kids.
  intros level index px py sc pa pid HV fn Hfn.
  rewrite calculatePositions_unfold in Hfn. simpl in Hfn.
  destruct Hfn as [<- | Hfn]; [do 8 eexists; split; [exact HV | reflexivity]|].
  destruct (hasChildren collapsedNodes node) eqn:Hc; [|contradiction].
  rewrite forEach_calc_concat in Hfn.
  apply concatOutFrom_fst_inv in Hfn as (i & child & Hi & Hfn).
  rewrite Forall_forall in IH.
  apply (IH child (proj2 (list_elem_of_In _ _) (nth_error_In _ _ Hi))
           _ _ _ _ _ _ _ (Visit_child _ _ _ _ _ _ _ _ _ _ _ _ HV Hc Hi) fn Hfn).
Qed.

Lemma Visit_complete rootNode fn :
  In fn (fst (convertMindmapToFlow collapsedNodes rootNode)) ->
  exists n' level' index' px' py' sc' pa' pid',
    Visit collapsedNodes rootNode n' level' index' px' py' sc' pa' pid' /\
    fn = flowNodeOf n' (xOf level' index' px' sc' pa') (yOf level' index' py' sc' pa').
Proof. apply Visit_complete_from. constructor. Qed.
End LayoutContents.

(** ** Radii, angles and positions *)

Section Geometry.
Local Open Scope R_scope.

Lemma LEVEL_SCALE_bounds : 0 < LEVEL_SCALE < 1.
Proof. unfold LEVEL_SCALE. lra. Qed.

Lemma radiusOf_S level : radiusOf (S level) = BASE_RADIUS * LEVEL_SCALE ^ level.
Proof.
  unfold radiusOf. rewrite pow_powerRZ. do 2 f_equal. lia.
Qed.

Lemma radiusOf_pos level : 0 < radiusOf level.
Proof.
  unfold radiusOf, BASE_RADIUS. apply Rmult_lt_0_compat; [lra|].
  apply powerRZ_lt. apply LEVEL_SCALE_bounds.
Qed.



Lemma polar_dist px py a r :
  0 <= r -> dist (px + cos a * r, py + sin a * r) (px, py) = r.
Proof.
  intros Hr. unfold dist. simpl.
  replace ((px + cos a * r - px) * (px + cos a * r - px)
           + (py + sin a * r - py) * (py + sin a * r - py))
    with (r * r * ((sin a)² + (cos a)²)) by (unfold Rsqr; ring).
  rewrite sin2_cos2, Rmult_1_r. now apply sqrt_square.
Qed.

Lemma xOf_S level index px sc pa :
  xOf (S level) index px sc pa
  = px + cos (angleOf (S level) index sc pa) * radiusOf (S level).
Proof. reflexivity. Qed.

Lemma yOf_S level index py sc pa :
  yOf (S level) index py sc pa
  = py + sin (angleOf (S level) index sc pa) * radiusOf (S level).
Proof. reflexivity. Qed.


Lemma angleOf_level1 index sc pa :
  angleOf 1 index sc pa = 2 * PI * INR index / INR sc.
Proof. unfold angleOf. simpl. unfold Rdiv. ring. Qed.

Lemma angleOf_deep level index sc pa :
  angleOf (S (S level)) index sc pa
  = if (sc =? 1)%nat then pa
    else (pa - angleSpanOf (S (S level)) sc / 2)
         + INR index / (INR sc - 1) * angleSpanOf (S (S level)) sc.
Proof. reflexivity. Qed.

Lemma radiusOf_1 : radiusOf 1 = 250.
Proof. rewrite radiusOf_S. unfold BASE_RADIUS. simpl. ring. Qed.

Lemma xOf_level1 index sc pa :
  xOf 1 index 0 sc pa = 250 * cos (2 * PI * INR index / INR sc).
Proof. rewrite xOf_S, angleOf_level1, radiusOf_1. ring. Qed.

Lemma yOf_level1 index sc pa :
  yOf 1 index 0 sc pa = 250 * sin (2 * PI * INR index / INR sc).
Proof. rewrite yOf_S, angleOf_level1, radiusOf_1. ring. Qed.

Lemma dist_origin_250 a : dist (250 * cos a, 250 * sin a) (0, 0) = 250.
Proof.
  replace (250 * cos a) with (0 + cos a * 250) by ring.
  replace (250 * sin a) with (0 + sin a * 250) by ring.
  apply polar_dist. lra.
Qed.

Lemma angleSpanOf_pos level sc : (0 < sc)%nat -> 0 < angleSpanOf level sc.
Proof.
  intros H. unfold angleSpanOf. apply Rmin_pos.
  - unfold MAX_ANGLE_SPAN. pose proof PI_RGT_0. lra.
  - apply Rmult_lt_0_compat; [now apply (lt_INR 0)|].
    unfold MIN_SPACING. apply Rdiv_lt_0_compat; [lra | apply radiusOf_pos].
Qed.
End Geometry.

Lemma hasChildren_empty node :
  hasChildren ∅ node = negb (Nat.eqb (length (kids node)) 0).
Proof.
  rewrite hasChildren_eq. rewrite bool_decide_eq_false_2 by set_solver.
  apply andb_true_r.
Qed.

Lemma Visit_level1 collapsedNodes rootNode i child :
  hasChildren collapsedNodes rootNode = true ->
  nth_error (kids rootNode) i = Some child ->
  Visit collapsedNodes rootNode child 1 i 0 0 (length (kids rootNode)) 0
    (Some (id rootNode)).
Proof.
  intros Hc Hi.
  exact (Visit_child collapsedNodes rootNode rootNode 0 0 0 0 1 0 None i child
           (Visit_root _ _) Hc Hi).
Qed.

(** ** Level-1 placement *)

Lemma bare_leaf_out collapsedNodes i level index px py sc pa pid :
  calculatePositions collapsedNodes (bare i None) level index px py sc pa pid emptyOut
  = ownOut (bare i None) level index px py sc pa pid.
Proof. rewrite calculatePositions_unfold. simpl. apply appOut_empty_r. Qed.

Lemma scenario_out :
  convertMindmapToFlow ∅ scenarioRoot
  = ([ flowNodeOf scenarioRoot 0 0;
       flowNodeOf (bare "a" None) (xOf 1 0 0 3 0) (yOf 1 0 0 3 0);
       flowNodeOf (bare "b" None) (xOf 1 1 0 3 0) (yOf 1 1 0 3 0);
       flowNodeOf (bare "c" None) (xOf 1 2 0 3 0) (yOf 1 2 0 3 0) ],
     [ flowEdgeOf "r" (bare "a" None);
       flowEdgeOf "r" (bare "b" None);
       flowEdgeOf "r" (bare "c" None) ]).
Proof.
  unfold convertMindmapToFlow. change (@nil FlowNode, @nil FlowEdge) with emptyOut.
  rewrite calculatePositions_unfold, hasChildren_empty, forEach_calc_concat.
  change (kids scenarioRoot) with [bare "a" None; bare "b" None; bare "c" None].
  cbn [length Nat.eqb negb concatOutFrom].
  rewrite !bare_leaf_out.
  reflexivity.
Qed.

Lemma INR_3 : INR 3 = 3%R.
Proof. simpl. ring. Qed.



(** ** Radius per level and the fan below level 1 *)



Lemma nth_error_lt {A} (l : list A) i a : nth_error l i = Some a -> i < length l.
Proof. intros H. apply nth_error_Some. congruence. Qed.

Lemma angleSpanOf_S level n :
  angleSpanOf (S level) n
  = Rmin (PI * (16 / 10)) (INR n * 180 / (250 * (85 / 100) ^ level))%R.
Proof.
  unfold angleSpanOf, MAX_ANGLE_SPAN, MIN_SPACING. rewrite radiusOf_S.
  unfold BASE_RADIUS, LEVEL_SCALE. f_equal. unfold Rdiv. ring.
Qed.



(** The earlier converter puts every node below the root at distance 350 from
    its parent, whatever the level, and its level-1 angles are those of the
    current one. *)
Lemma legacy_fixed_radius level index px py sc :
  dist (Legacy.xOf (S level) index px sc, Legacy.yOf (S level) index py sc) (px, py)
  = 350%R
  /\ Legacy.angleOf 1 index sc = angleOf 1 index sc 0.
Proof.
  split; [|reflexivity].
  unfold Legacy.xOf, Legacy.yOf, Legacy.HORIZONTAL_SPACING. simpl Nat.eqb. cbv iota.
  apply polar_dist. lra.
Qed.

(** ** Collapsed nodes *)

Lemma nodeAt_app t q r :
  nodeAt t (q ++ r)
  = match nodeAt t q with Some m => nodeAt m r | None => None end.
Proof.
  revert t. induction q as [|i q IH]; intros t; simpl; [reflexivity|].
  destruct (nth_error (kids t) i); [apply IH | reflexivity].
Qed.

Lemma nodeAt_snoc t q i X :
  nodeAt t (q ++ [i]) = Some X ->
  exists par, nodeAt t q = Some par /\ nth_error (kids par) i = Some X.
Proof.
  rewrite nodeAt_app. destruct (nodeAt t q) as [par|]; [|discriminate].
  simpl. destruct (nth_error (kids par) i) eqn:E; [|discriminate].
  intros [= ->]. eauto.
Qed.

Lemma nodeAt_allIds t p X : nodeAt t p = Some X -> incl (allIds X) (allIds t).
Proof.
  revert t. induction p as [|i p IH]; intros t; simpl.
  - intros [= ->]. apply incl_refl.
  - destruct (nth_error (kids t) i) as [k|] eqn:E; [|discriminate].
    intros H x Hx. eapply in_allIds_kid; [eapply nth_error_In; eauto|].
    eapply IH; eauto.
Qed.

Lemma parentOf_snoc t q i : parentOf t (q ++ [i]) = nodeAt t q.
Proof.
  unfold parentOf. rewrite removelast_last. now destruct q.
Qed.

Section Collapse.
Variable collapsedNodes : gset string.

(** A node whose proper ancestors are all expanded is reached by a call. *)
Lemma Visit_of_path rootNode p :
  forall X, nodeAt rootNode p = Some X ->
  ancestorsExpanded collapsedNodes rootNode p ->
  exists level index px py sc pa pid,
    Visit collapsedNodes rootNode X level index px py sc pa pid /\
    pid = option_map id (parentOf rootNode p).
Proof.
  induction p as [|i p IH] using rev_ind; intros X HX Hanc.
  - injection HX as <-. exists 0, 0, 0%R, 0%R, 1, 0%R, None.
    split; [constructor | reflexivity].
  - destruct (nodeAt_snoc _ _ _ _ HX) as (par & Hpar & Hi).
    destruct (IH par Hpar) as (level & index & px & py & sc & pa & pid & HV & _).
    { intros q r m E Hr Hq.
      apply (Hanc q (r ++ [i]) m);
        [rewrite E; now rewrite app_assoc | now destruct r | assumption]. }
    assert (Hc : hasChildren collapsedNodes par = true).
    { apply hasChildren_true. split.
      - intros E. rewrite E in Hi. destruct i; discriminate.
      - apply (Hanc p [i] par); [reflexivity | discriminate | assumption]. }
    do 7 eexists. split.
    + exact (Visit_child _ _ _ _ _ _ _ _ _ _ _ _ HV Hc Hi).
    + rewrite parentOf_snoc, Hpar. reflexivity.
Qed.

Lemma visibleNodes_incl node :
  forall n, In n (visibleNodes collapsedNodes node) -> In (id n) (allIds node).
Proof.
  induction node as [node IH] using node_ind_kids. intros n.
  rewrite visibleNodes_eq. intros [<- | H]; [apply in_allIds_self|].
  destruct (hasChildren collapsedNodes node); [|contradiction].
  apply in_flat_map in H as (k & Hk & Hn).
  eapply in_allIds_kid; [exact Hk|].
  rewrite Forall_forall in IH. apply IH; [now apply list_elem_of_In | exact Hn].
Qed.

(** Edge targets are ids of visible nodes; edge sources are ids of visible
    nodes or the [parentId] handed to the call. *)
Lemma visibleEdges_ends node :
  forall pid e, In e (visibleEdges collapsedNodes pid node) ->
    In (fe_target e) (map id (visibleNodes collapsedNodes node)) /\
    (In (fe_source e) (map id (visibleNodes collapsedNodes node))
     \/ pid = Some (fe_source e)).
Proof.
  induction node as [node IH] using node_ind_kids. intros pid e.
  rewrite visibleEdges_eq, visibleNodes_eq. intros H.
  apply in_app_or in H as [H | H].
  - destruct pid as [[|c s]|]; simpl in H; try contradiction.
    destruct H as [<- | []]. simpl. auto.
  - destruct (hasChildren collapsedNodes node); [|contradiction].
    apply in_flat_map in H as (k & Hk & He).
    rewrite Forall_forall in IH.
    destruct (IH k (proj2 (list_elem_of_In _ _) Hk) _ _ He) as [Ht Hs].
    assert (Hsub : incl (map id (visibleNodes collapsedNodes k))
                        (map id (flat_map (visibleNodes collapsedNodes) (kids node)))).
    { intros x Hx. apply in_map_iff in Hx as (n & <- & Hn).
      apply in_map, in_flat_map. eauto. }
    split.
    + simpl. right. now apply Hsub.
    + left. destruct Hs as [Hs | [= <-]]; simpl; [right; now apply Hsub | now left].
Qed.

(** Below a collapsed node nothing is visible. *)
Lemma collapsed_subtree_invisible p :
  forall t X d,
    uniqueIds t -> nodeAt t p = Some X -> id X ∈ collapsedNodes ->
    In d (descendantIds X) ->
    ~ In d (map id (visibleNodes collapsedNodes t)).
Proof.
  induction p as [|i p IH]; intros t X d Hu HX Hcol Hd; simpl in HX.
  - injection HX as <-. rewrite visibleNodes_eq.
    assert (Hc : hasChildren collapsedNodes t = false).
    { rewrite hasChildren_eq, bool_decide_eq_true_2 by assumption.
      apply andb_false_r. }
    rewrite Hc. simpl. intros [E | []].
    apply uniqueIds_inv in Hu as (Hself & _). congruence.
  - destruct (nth_error (kids t) i) as [k|] eqn:Ek; [|discriminate].
    pose proof (uniqueIds_inv _ Hu) as (Hself & Hkids & Hdisj).
    assert (Hdk : In d (allIds k)).
    { eapply nodeAt_allIds; [exact HX|].
      unfold descendantIds in Hd. destruct (allIds X); [contradiction|].
      now right. }
    rewrite visibleNodes_eq. simpl. intros [E | H].
    + apply Hself. rewrite descendantIds_eq, E. apply in_flat_map.
      exists k. split; [eapply nth_error_In; eauto | exact Hdk].
    + destruct (hasChildren collapsedNodes t); [|contradiction].
      apply in_map_iff in H as (n & En & Hn).
      apply in_flat_map in Hn as (k' & Hk' & Hn).
      apply In_nth_error in Hk' as (j & Ej).
      assert (j = i).
      { apply (Hdisj j i k' k d Ej Ek); [|exact Hdk].
        rewrite <- En. now apply visibleNodes_incl. }
      subst j. assert (k' = k) by congruence. subst k'.
      apply (IH k X d); auto.
      * rewrite Forall_forall in Hkids. apply Hkids.
        apply list_elem_of_In. eapply nth_error_In; eauto.
      * apply in_map_iff. eauto.
Qed.
End Collapse.

Lemma convertMindmapToFlow_ids collapsedNodes rootNode :
  map fn_id (fst (convertMindmapToFlow collapsedNodes rootNode))
  = map id (visibleNodes collapsedNodes rootNode).
Proof. apply calculatePositions_ids. Qed.

Lemma convertMindmapToFlow_edges collapsedNodes rootNode :
  snd (convertMindmapToFlow collapsedNodes rootNode)
  = visibleEdges collapsedNodes None rootNode.
Proof. apply calculatePositions_edges. Qed.

Lemma truthy_Some s : s <> "" -> truthy (Some s) = true.
Proof. destruct s; [congruence | reflexivity]. Qed.

(** C4, as the code has it.  In a tree with unique ids, let [X] be a node
    whose id is collapsed.  No id strictly inside the subtree of [X] occurs
    among the node ids, edge sources or edge targets of the layout.  When in
    addition no proper ancestor of [X] is collapsed, [X] itself gets a
    position, and the edge from its parent is pushed whenever the parent's id
    is a non-empty string. *)
Theorem C4_collapse_hides_subtree :
  forall collapsedNodes rootNode p X,
    uniqueIds rootNode ->
    nodeAt rootNode p = Some X ->
    id X ∈ collapsedNodes ->
    subtreeHidden collapsedNodes rootNode X /\
    (ancestorsExpanded collapsedNodes rootNode p ->
     nodePositioned collapsedNodes rootNode X /\
     forall par, parentOf rootNode p = Some par -> id par <> "" ->
                 edgeEmitted collapsedNodes rootNode par X).
Proof.
  intros collapsedNodes rootNode p X Hu HX Hcol. split.
  - intros d Hd.
    pose proof (collapsed_subtree_invisible collapsedNodes p rootNode X d
                  Hu HX Hcol Hd) as Hinv.
    rewrite convertMindmapToFlow_ids, convertMindmapToFlow_edges.
    split; [exact Hinv|]. split; intros H; apply in_map_iff in H as (e & <- & He);
      destruct (visibleEdges_ends collapsedNodes rootNode None e He) as [Ht Hs].
    + destruct Hs as [Hs | Hs]; [auto | discriminate].
    + auto.
  - intros Hanc.
    destruct (Visit_of_path collapsedNodes rootNode p X HX Hanc)
      as (level & index & px & py & sc & pa & pid & HV & Hpid).
    split.
    + do 2 eexists. exact (Visit_node _ _ _ _ _ _ _ _ _ _ HV).
    + intros par Hpar Hne. rewrite Hpar in Hpid. simpl in Hpid. subst pid.
      exact (Visit_edge _ _ _ _ _ _ _ _ _ _ HV (truthy_Some _ Hne)).
Qed.

Lemma uniqueIds_chainRoot : uniqueIds chainRoot.
Proof. apply (bool_decide_unpack _). vm_compute. exact I. Qed.

(** C4 on the chain [r] - [a] - [b] with [a] collapsed. *)
Lemma C4_collapse_hides_subtree_witness :
  subtreeHidden {[ "a" ]} chainRoot (bare "a" (Some [bare "b" None])) /\
  nodePositioned {[ "a" ]} chainRoot (bare "a" (Some [bare "b" None])) /\
  edgeEmitted {[ "a" ]} chainRoot chainRoot (bare "a" (Some [bare "b" None])).
Proof.
  destruct (C4_collapse_hides_subtree {[ "a" ]} chainRoot [0]
              (bare "a" (Some [bare "b" None])))
    as [H1 H2].
  - exact uniqueIds_chainRoot.
  - reflexivity.
  - simpl. set_solver.
  - split; [exact H1|]. destruct H2 as [H2 H3].
    + intros q r m E Hr Hq. destruct q as [|j [|]]; simpl in E.
      * injection Hq as <-. simpl. set_solver.
      * injection E as <- <-. contradiction.
      * destruct r; discriminate.
    + split; [exact H2|]. apply H3; [reflexivity | discriminate].
Defined.

(** The claim C4 fails as stated: in the chain [r] - [a] - [b] with both [a]
    and [b] collapsed, ids are unique and [b] is collapsed, but [b] gets no
    position, because the traversal stops at [a]. *)
Lemma C4_counterexample_nested_collapse :
  uniqueIds chainRoot /\
  nodeAt chainRoot [0; 0] = Some (bare "b" None) /\
  id (bare "b" None) ∈ ({[ "a"; "b" ]} : gset string) /\
  ~ nodePositioned {[ "a"; "b" ]} chainRoot (bare "b" None).
Proof.
  split; [exact uniqueIds_chainRoot|]. split; [reflexivity|].
  split; [simpl; set_solver|].
  intros (x & y & H).
  apply (in_map fn_id) in H. rewrite convertMindmapToFlow_ids in H.
  vm_compute in H. intuition discriminate.
Qed.

(** ** Finding and deleting nodes *)

Lemma findNode_eq e node :
  findNode e node
  = if String.eqb (id node) e then Some node
    else firstFound (findNode e) (kids node).
Proof.
  destruct node as [i l s d m [cs|] c p]; simpl;
    destruct (String.eqb i e); try reflexivity.
  unfold kids. simpl. induction cs as [|k cs IH]; simpl; [reflexivity|].
  now rewrite IH.
Qed.

Lemma find_app {A} (f : A -> bool) (l1 l2 : list A) :
  find f (l1 ++ l2)
  = match find f l1 with Some x => Some x | None => find f l2 end.
Proof.
  induction l1 as [|a l1 IH]; simpl; [reflexivity|]. now destruct (f a).
Qed.

(** [findNode] returns the first match in document order. *)
Lemma findNode_find e node : findNode e node = find (hasId e) (allNodes node).
Proof.
  induction node as [node IH] using node_ind_kids.
  rewrite findNode_eq, allNodes_eq. simpl. unfold hasId at 1.
  destruct (String.eqb (id node) e); [reflexivity|].
  induction IH as [|k ks Hk _ IHks]; simpl; [reflexivity|].
  rewrite find_app, <- Hk, IHks. reflexivity.
Qed.

Lemma find_unique (l : list MindmapNode) n :
  NoDup (map id l) -> In n l -> find (hasId (id n)) l = Some n.
Proof.
  induction l as [|a l IH]; simpl; intros Hnd Hin; [contradiction|].
  apply NoDup_cons in Hnd as [Ha Hl]. unfold hasId at 1.
  destruct Hin as [-> | Hin].
  - now rewrite String.eqb_refl.
  - destruct (String.eqb_spec (id a) (id n)) as [E|_]; [|now apply IH].
    exfalso. apply Ha. rewrite E. apply list_elem_of_In. now apply in_map.
Qed.

Lemma find_none_id (l : list MindmapNode) e :
  ~ In e (map id l) -> find (hasId e) l = None.
Proof.
  induction l as [|a l IH]; simpl; intros H; [reflexivity|]. unfold hasId at 1.
  destruct (String.eqb_spec (id a) e) as [E|_]; [tauto|]. apply IH. tauto.
Qed.

Lemma find_some_id (l : list MindmapNode) e n :
  find (hasId e) l = Some n -> In n l /\ id n = e.
Proof.
  intros H. apply find_some in H as [H1 H2]. split; [assumption|].
  now apply String.eqb_eq.
Qed.

Lemma findNode_unique t n :
  uniqueIds t -> In n (allNodes t) -> findNode (id n) t = Some n.
Proof. intros. rewrite findNode_find. now apply find_unique. Qed.

Lemma findNode_absent t e : ~ In e (allIds t) -> findNode e t = None.
Proof. intros. rewrite findNode_find. now apply find_none_id. Qed.

Lemma findNode_Some t e n : findNode e t = Some n -> In n (allNodes t) /\ id n = e.
Proof. rewrite findNode_find. apply find_some_id. Qed.

Lemma in_allNodes_inv t n :
  In n (allNodes t) -> n = t \/ exists k, In k (kids t) /\ In n (allNodes k).
Proof.
  rewrite allNodes_eq. intros [E | H]; [now left|]. right.
  now apply in_flat_map in H.
Qed.

Lemma allNodes_subtree t :
  forall n, In n (allNodes t) -> incl (allIds n) (allIds t).
Proof.
  induction t as [t IH] using node_ind_kids. intros n Hn.
  apply in_allNodes_inv in Hn as [-> | (k & Hk & Hn)]; [apply incl_refl|].
  rewrite Forall_forall in IH. intros x Hx.
  eapply in_allIds_kid; [exact Hk|].
  eapply IH; eauto. now apply list_elem_of_In.
Qed.

Lemma deleteNodeFromTree_eq node target :
  deleteNodeFromTree node target
  = if String.eqb (id node) target then None
    else Some match children node with
              | Some cs =>
                  withChildren node
                    (filterNonNull (map (fun c => deleteNodeFromTree c target) cs))
              | None => node
              end.
Proof.
  destruct node as [i l s d m [cs|] c p]; simpl;
    destruct (String.eqb i target); reflexivity.
Qed.

Lemma deleteNodeFromTree_None node target :
  deleteNodeFromTree node target = None <-> target = id node.
Proof.
  rewrite deleteNodeFromTree_eq.
  destruct (String.eqb_spec (id node) target); split; congruence.
Qed.

(** Deleting an id that does not occur gives the tree back. *)
Lemma deleteNodeFromTree_absent t target :
  ~ In target (allIds t) -> deleteNodeFromTree t target = Some t.
Proof.
  induction t as [t IH] using node_ind_kids. intros Hn.
  rewrite deleteNodeFromTree_eq.
  destruct (String.eqb_spec (id t) target) as [E|_].
  { exfalso. apply Hn. rewrite <- E. apply in_allIds_self. }
  f_equal. destruct t as [i l s d m [cs|] c p]; [|reflexivity].
  unfold withChildren. simpl. do 2 f_equal.
  assert (Hcs : forall k, In k cs -> ~ In target (allIds k)).
  { intros k Hk Hin. apply Hn. eapply in_allIds_kid; eauto. }
  rewrite kids_Some in IH. clear Hn.
  induction IH as [|k ks Hk _ IHks]; simpl; [reflexivity|].
  rewrite Hk by (apply Hcs; now left).
  f_equal. apply IHks. intros k' Hk'. apply Hcs. now right.
Qed.

Lemma kept_true gone n : kept gone n = true <-> ~ In (id n) gone.
Proof.
  unfold kept. rewrite negb_true_iff. split.
  - intros H Hin. assert (existsb (String.eqb (id n)) gone = true); [|congruence].
    apply existsb_exists. exists (id n). split; [assumption | apply String.eqb_refl].
  - intros H. destruct (existsb (String.eqb (id n)) gone) eqn:E; [|reflexivity].
    apply existsb_exists in E as (x & Hx & Ex). apply String.eqb_eq in Ex.
    subst x. contradiction.
Qed.

Lemma filter_kept_all gone (l : list MindmapNode) :
  (forall n, In n l -> ~ In (id n) gone) -> List.filter (kept gone) l = l.
Proof.
  induction l as [|a l IH]; simpl; intros H; [reflexivity|].
  rewrite (proj2 (kept_true gone a)) by (apply H; now left).
  f_equal. apply IH. intros n Hn. apply H. now right.
Qed.

Lemma filter_kept_none gone (l : list MindmapNode) :
  (forall n, In n l -> In (id n) gone) -> List.filter (kept gone) l = [].
Proof.
  induction l as [|a l IH]; simpl; intros H; [reflexivity|].
  destruct (kept gone a) eqn:E.
  - apply kept_true in E. exfalso. apply E, H. now left.
  - apply IH. intros n Hn. apply H. now right.
Qed.

Lemma uniqueIds_kid t j c :
  uniqueIds t -> nth_error (kids t) j = Some c -> uniqueIds c.
Proof.
  intros Hu Hj. apply uniqueIds_inv in Hu as (_ & Hk & _).
  rewrite Forall_forall in Hk. apply Hk, list_elem_of_In.
  eapply nth_error_In; eauto.
Qed.

Lemma in_allNodes_kid t j c n :
  nth_error (kids t) j = Some c -> In n (allNodes c) -> In n (allNodes t).
Proof.
  intros Hj Hn. rewrite allNodes_eq. right. apply in_flat_map.
  exists c. split; [eapply nth_error_In; eauto | assumption].
Qed.

Lemma subtreeIds_self t : subtreeIds t (id t) = allIds t.
Proof. unfold subtreeIds. now rewrite findNode_eq, String.eqb_refl. Qed.

(** Where a deletion target sits relative to one child of [t]. *)
Lemma subtreeIds_kid t target j c :
  uniqueIds t -> id t <> target -> nth_error (kids t) j = Some c ->
  (In target (allIds c) -> subtreeIds t target = subtreeIds c target) /\
  (~ In target (allIds c) ->
   forall x, In x (subtreeIds t target) -> ~ In x (allIds c)).
Proof.
  intros Hu Hne Hj. split.
  - intros Hin. apply in_map_iff in Hin as (X & EX & HX). subst target.
    unfold subtreeIds.
    rewrite (findNode_unique c X) by (eauto using uniqueIds_kid).
    rewrite (findNode_unique t X) by (eauto using in_allNodes_kid).
    reflexivity.
  - intros Hnin x Hx Hxc. unfold subtreeIds in Hx.
    destruct (findNode target t) as [X|] eqn:EX; [|contradiction].
    apply findNode_Some in EX as [HX EX].
    apply in_allNodes_inv in HX as [-> | (k & Hk & HXk)]; [contradiction|].
    apply In_nth_error in Hk as (j' & Hj').
    pose proof (uniqueIds_inv _ Hu) as (_ & _ & Hdisj).
    assert (Hxk : In x (allIds k)) by (eapply allNodes_subtree; eauto).
    assert (j' = j) by (eapply Hdisj; eauto). subst j'.
    assert (k = c) by congruence. subst k.
    apply Hnin. rewrite <- EX. now apply in_map.
Qed.

Lemma subtreeIds_below t target :
  id t <> target -> incl (subtreeIds t target) (descendantIds t).
Proof.
  intros Hne x Hx. unfold subtreeIds in Hx.
  destruct (findNode target t) as [X|] eqn:EX; [|contradiction].
  apply findNode_Some in EX as [HX EX].
  apply in_allNodes_inv in HX as [-> | (k & Hk & HXk)]; [contradiction|].
  rewrite descendantIds_eq. apply in_flat_map. exists k. split; [assumption|].
  eapply allNodes_subtree; eauto.
Qed.

Lemma ownFields_withChildren n cs : ownFields (withChildren n cs) = ownFields n.
Proof. reflexivity. Qed.

Lemma kids_withChildren n cs : kids (withChildren n cs) = cs.
Proof. reflexivity. Qed.

(** The loop over the children in [deleteNodeFromTree]. *)
Lemma delete_children_nodes target gone (cs : list MindmapNode) :
  Forall (fun c =>
            id c <> target ->
            exists c', deleteNodeFromTree c target = Some c' /\
                       map ownFields (allNodes c')
                       = map ownFields
                           (List.filter (kept (subtreeIds c target)) (allNodes c))) cs ->
  Forall (fun c =>
            (In target (allIds c) -> gone = subtreeIds c target) /\
            (~ In target (allIds c) -> forall x, In x gone -> ~ In x (allIds c))) cs ->
  map ownFields
    (flat_map allNodes
       (filterNonNull (map (fun c => deleteNodeFromTree c target) cs)))
  = map ownFields (List.filter (kept gone) (flat_map allNodes cs)).
Proof.
  induction 1 as [|c cs Hc _ IH]; intros Hrel; [reflexivity|].
  apply Forall_cons in Hrel as [[Hin Hout] Hrel]. specialize (IH Hrel).
  simpl. rewrite List.filter_app, map_app, <- IH.
  destruct (in_dec String.string_dec target (allIds c)) as [Ht | Ht].
  - rewrite (Hin Ht).
    destruct (String.eqb_spec (id c) target) as [E | E].
    + rewrite (proj2 (deleteNodeFromTree_None c target)) by congruence.
      subst target. rewrite subtreeIds_self.
      rewrite filter_kept_none; [reflexivity|].
      intros n Hn. now apply in_map.
    + destruct (Hc E) as (c' & -> & Hc').
      simpl. now rewrite map_app, Hc'.
  - rewrite deleteNodeFromTree_absent by assumption. simpl.
    rewrite map_app. do 2 f_equal. symmetry. apply filter_kept_all.
    intros n Hn Hg. apply (Hout Ht _ Hg). now apply in_map.
Qed.

(** The nodes of the tree after a deletion are the nodes outside the deleted
    subtree, in document order, each with its own fields unchanged. *)
Lemma deleteNodeFromTree_nodes t :
  forall target, uniqueIds t -> id t <> target ->
    exists t', deleteNodeFromTree t target = Some t' /\
               map ownFields (allNodes t')
               = map ownFields
                   (List.filter (kept (subtreeIds t target)) (allNodes t)).
Proof.
  induction t as [t IH] using node_ind_kids. intros target Hu Hne.
  rewrite deleteNodeFromTree_eq.
  destruct (String.eqb_spec (id t) target) as [|_]; [contradiction|].
  eexists. split; [reflexivity|].
  assert (Hk : kept (subtreeIds t target) t = true).
  { apply kept_true. intros Hin. apply subtreeIds_below in Hin; [|assumption].
    now apply uniqueIds_inv in Hu as (Hself & _). }
  rewrite (allNodes_eq t). simpl List.filter. rewrite Hk.
  assert (Hrel : Forall (fun c =>
            (In target (allIds c) -> subtreeIds t target = subtreeIds c target) /\
            (~ In target (allIds c) ->
             forall x, In x (subtreeIds t target) -> ~ In x (allIds c))) (kids t)).
  { apply Forall_forall. intros c Hc. apply list_elem_of_In, In_nth_error in Hc as (j & Hj).
    eapply subtreeIds_kid; eauto. }
  assert (IH' : Forall (fun c =>
            id c <> target ->
            exists c', deleteNodeFromTree c target = Some c' /\
                       map ownFields (allNodes c')
                       = map ownFields
                           (List.filter (kept (subtreeIds c target)) (allNodes c)))
            (kids t)).
  { apply Forall_forall. intros c Hc Hcne.
    rewrite Forall_forall in IH. apply IH; [assumption| |assumption].
    apply list_elem_of_In, In_nth_error in Hc as (j & Hj). eapply uniqueIds_kid; eauto. }
  pose proof (delete_children_nodes target _ _ IH' Hrel) as Hcs.
  destruct t as [i l s d m [cs|] c p].
  - rewrite kids_Some in *. cbn [children].
    rewrite allNodes_eq, kids_withChildren.
    cbn [map]. rewrite ownFields_withChildren. now rewrite Hcs.
  - reflexivity.
Qed.

Lemma ownFields_id a b : ownFields a = ownFields b -> id a = id b.
Proof. unfold ownFields. congruence. Qed.

Lemma map_ownFields_ids l1 l2 :
  map ownFields l1 = map ownFields l2 -> map id l1 = map id l2.
Proof.
  revert l2. induction l1 as [|a l1 IH]; intros [|b l2] H; try discriminate;
    [reflexivity|].
  cbn [map] in *.
  assert (Hab : ownFields a = ownFields b) by congruence.
  assert (H' : map ownFields l1 = map ownFields l2) by congruence.
  f_equal; [now apply ownFields_id | now apply IH].
Qed.

Lemma find_map_ownFields e l1 l2 :
  map ownFields l1 = map ownFields l2 ->
  option_map ownFields (find (hasId e) l1) = option_map ownFields (find (hasId e) l2).
Proof.
  revert l2. induction l1 as [|a l1 IH]; intros [|b l2] H; try discriminate;
    [reflexivity|].
  cbn [map find] in *.
  assert (Hab : ownFields a = ownFields b) by congruence.
  assert (H' : map ownFields l1 = map ownFields l2) by congruence.
  unfold hasId at 1 3.
  rewrite (ownFields_id _ _ Hab).
  destruct (String.eqb (id b) e); simpl; [now rewrite Hab | now apply IH].
Qed.

Lemma NoDup_map_same {A B} (f : A -> B) (l : list A) a b :
  NoDup (map f l) -> In a l -> In b l -> f a = f b -> a = b.
Proof.
  induction l as [|x l IH]; intros Hn Ha Hb E; [destruct Ha|].
  cbn [map] in Hn. apply NoDup_cons in Hn as [Hx Hn].
  rewrite list_elem_of_In in Hx.
  destruct Ha as [-> | Ha], Hb as [-> | Hb].
  - reflexivity.
  - exfalso. apply Hx. rewrite E. now apply in_map.
  - exfalso. apply Hx. rewrite <- E. now apply in_map.
  - now apply IH.
Qed.

Lemma NoDup_map_filter {A B} (f : A -> B) (p : A -> bool) l :
  NoDup (map f l) -> NoDup (map f (List.filter p l)).
Proof.
  induction l as [|a l IH]; simpl; intros H; [constructor|].
  apply NoDup_cons in H as [Ha Hl].
  destruct (p a); simpl; [|now apply IH].
  apply NoDup_cons. split; [|now apply IH].
  intros Hin. apply Ha. apply list_elem_of_In in Hin. apply list_elem_of_In.
  apply in_map_iff in Hin as (x & Ex & Hx). apply filter_In in Hx as [Hx _].
  rewrite <- Ex. now apply in_map.
Qed.

Lemma deleteNodeFromTree_ownFields n target n' :
  deleteNodeFromTree n target = Some n' -> ownFields n' = ownFields n.
Proof.
  rewrite deleteNodeFromTree_eq. destruct (String.eqb (id n) target); [discriminate|].
  intros [= <-]. now destruct (children n).
Qed.

Lemma in_filterNonNull {A} (l : list (option A)) a :
  In (Some a) l -> In a (filterNonNull l).
Proof.
  induction l as [|[b|] l IH]; simpl; intros H.
  - contradiction.
  - destruct H as [[= ->] | H]; [now left | right; now apply IH].
  - destruct H as [[=] | H]. now apply IH.
Qed.

(** A node outside the deleted subtree is found again in the result, as the
    node that the deletion makes of it. *)
Lemma deleteNodeFromTree_keeps t :
  forall target t' n n',
    deleteNodeFromTree t target = Some t' ->
    In n (allNodes t) -> deleteNodeFromTree n target = Some n' ->
    (forall k, In k (allNodes t) -> id k = target -> ~ In n (allNodes k)) ->
    In n' (allNodes t').
Proof.
  induction t as [t IH] using node_ind_kids. intros target t' n n' Ht Hn Hn' Hout.
  apply in_allNodes_inv in Hn as [-> | (k & Hk & Hnk)].
  { rewrite Ht in Hn'. injection Hn' as ->. rewrite allNodes_eq. now left. }
  rewrite deleteNodeFromTree_eq in Ht.
  destruct (String.eqb (id t) target); [discriminate|].
  injection Ht as <-.
  assert (Hkt : In k (allNodes t)).
  { rewrite allNodes_eq. right. apply in_flat_map. exists k. split; [assumption|].
    rewrite allNodes_eq. now left. }
  destruct (deleteNodeFromTree k target) as [k'|] eqn:Ek.
  - assert (Hk' : In n' (allNodes k')).
    { rewrite Forall_forall in IH.
      apply (IH k (proj2 (list_elem_of_In _ _) Hk) target k' n n'); auto.
      intros j Hj Ej. apply Hout; [|assumption].
      rewrite allNodes_eq. right. apply in_flat_map. eauto. }
    destruct t as [i l s d m [cs|] c p]; [|contradiction].
    rewrite kids_Some in Hk. cbn [children].
    rewrite allNodes_eq, kids_withChildren. right.
    apply in_flat_map. exists k'. split; [|assumption].
    apply in_filterNonNull. rewrite <- Ek.
    now apply (in_map (fun c => deleteNodeFromTree c target)).
  - apply deleteNodeFromTree_None in Ek. exfalso.
    apply (Hout k Hkt); [congruence | assumption].
Qed.

(** C5.  The controller leaves the state alone when asked to delete the
    root.  For a tree with unique ids, [deleteNodeFromTree] returns [null]
    exactly when the target is the root's id; otherwise it returns a tree in
    which [findNode] finds neither the target nor any descendant of the
    deleted node, and in which every node outside the deleted subtree is
    found again under its id, with its own fields unchanged (it is the
    original node after the same deletion); the nodes of the result, in
    document order, are exactly the nodes outside the deleted subtree. *)
Theorem C5_deleteNode_removes_subtree :
  (forall st, handleDeleteNode st (id (root (mindmapData st))) = st) /\
  (forall tree target,
      uniqueIds tree ->
      (deleteNodeFromTree tree target = None <-> target = id tree) /\
      (target <> id tree ->
       exists tree',
         deleteNodeFromTree tree target = Some tree' /\
         findNode target tree' = None /\
         (forall X d, findNode target tree = Some X ->
                      In d (descendantIds X) -> findNode d tree' = None) /\
         (forall n, In n (allNodes tree) ->
                    ~ In (id n) (subtreeIds tree target) ->
                    exists n', findNode (id n) tree' = Some n' /\
                               deleteNodeFromTree n target = Some n' /\
                               ownFields n' = ownFields n) /\
         map ownFields (allNodes tree')
         = map ownFields
             (List.filter (kept (subtreeIds tree target)) (allNodes tree)))).
Proof.
  split.
  { intros st. unfold handleDeleteNode. now rewrite String.eqb_refl. }
  intros tree target Hu. split; [apply deleteNodeFromTree_None|].
  intros Hne.
  destruct (deleteNodeFromTree_nodes tree target Hu) as (tree' & Hdel & Hnodes);
    [congruence|].
  exists tree'. split; [assumption|].
  assert (Hgone : forall e, In e (subtreeIds tree target) -> findNode e tree' = None).
  { intros e He. rewrite findNode_find.
    pose proof (find_map_ownFields e _ _ Hnodes) as Hf.
    rewrite (find_none_id (List.filter _ _)) in Hf.
    - now destruct (find (hasId e) (allNodes tree')).
    - intros Hin. apply in_map_iff in Hin as (n & <- & Hn).
      apply filter_In in Hn as [_ Hn]. apply kept_true in Hn. contradiction. }
  assert (Hu' : uniqueIds tree').
  { unfold uniqueIds, allIds. rewrite (map_ownFields_ids _ _ Hnodes).
    now apply NoDup_map_filter. }
  split; [|split; [|split]].
  - destruct (findNode target tree) as [X|] eqn:EX.
    + apply Hgone. unfold subtreeIds. rewrite EX.
      apply findNode_Some in EX as [_ <-]. apply in_allIds_self.
    + apply findNode_absent. intros Hin.
      unfold allIds in Hin. rewrite (map_ownFields_ids _ _ Hnodes) in Hin.
      apply in_map_iff in Hin as (n & En & Hn). apply filter_In in Hn as [Hn _].
      rewrite (findNode_find target tree) in EX.
      apply (find_none _ _ EX) in Hn. unfold hasId in Hn.
      apply String.eqb_neq in Hn. contradiction.
  - intros X d EX Hd. apply Hgone. unfold subtreeIds. rewrite EX.
    unfold descendantIds in Hd. destruct (allIds X); [contradiction | now right].
  - intros n Hn Hout.
    assert (Hnt : id n <> target).
    { intros E. apply Hout. unfold subtreeIds.
      rewrite <- E, (findNode_unique tree n) by assumption. apply in_allIds_self. }
    destruct (deleteNodeFromTree n target) as [n'|] eqn:En;
      [|apply deleteNodeFromTree_None in En; congruence].
    exists n'. pose proof (deleteNodeFromTree_ownFields _ _ _ En) as Hf.
    split; [|split; [reflexivity | assumption]].
    rewrite <- (ownFields_id _ _ Hf). apply findNode_unique; [assumption|].
    apply (deleteNodeFromTree_keeps tree target tree' n n'); auto.
    intros k Hk Ek Hnk. apply Hout. unfold subtreeIds.
    rewrite <- Ek, (findNode_unique tree k) by assumption. now apply in_map.
  - exact Hnodes.
Qed.

(** C5 on the chain [r] - [a] - [b], deleting [a]: [b] is gone too, [r] stays. *)
Lemma C5_deleteNode_removes_subtree_witness :
  exists tree',
    deleteNodeFromTree chainRoot "a" = Some tree' /\
    findNode "a" tree' = None /\
    findNode "b" tree' = None /\
    exists n', findNode "r" tree' = Some n' /\ ownFields n' = ownFields chainRoot.
Proof.
  destruct (proj2 (proj2 C5_deleteNode_removes_subtree chainRoot "a"
                     uniqueIds_chainRoot))
    as (tree' & H1 & H2 & H3 & H4 & _); [discriminate|].
  exists tree'. split; [exact H1|]. split; [exact H2|]. split.
  - apply (H3 (bare "a" (Some [bare "b" None])) "b"); [reflexivity | simpl; auto].
  - destruct (H4 chainRoot) as (n' & Hn1 & _ & Hn2).
    + simpl. auto.
    + vm_compute. intuition discriminate.
    + exists n'. split; assumption.
Defined.

(** ** Updating a node *)

Lemma updateNodeInTree_eq nodeId updates node :
  updateNodeInTree nodeId updates node
  = if String.eqb (id node) nodeId then spread node updates
    else match children node with
         | Some cs => withChildren node (map (updateNodeInTree nodeId updates) cs)
         | None => node
         end.
Proof. destruct node as [i l s d m [cs|] c p]; reflexivity. Qed.

Lemma updateNodeInTree_other nodeId updates node :
  id node <> nodeId ->
  ownFields (updateNodeInTree nodeId updates node) = ownFields node /\
  kids (updateNodeInTree nodeId updates node)
  = map (updateNodeInTree nodeId updates) (kids node).
Proof.
  intros Hne. rewrite updateNodeInTree_eq.
  destruct (String.eqb_spec (id node) nodeId) as [|_]; [contradiction|].
  destruct node as [i l s d m [cs|] c p]; split; reflexivity.
Qed.

Lemma nodeAt_cons_update nodeId updates node i q :
  id node <> nodeId ->
  nodeAt (updateNodeInTree nodeId updates node) (i :: q)
  = match nth_error (kids node) i with
    | Some c => nodeAt (updateNodeInTree nodeId updates c) q
    | None => None
    end.
Proof.
  intros Hne. simpl.
  rewrite (proj2 (updateNodeInTree_other nodeId updates node Hne)).
  rewrite nth_error_map. now destruct (nth_error (kids node) i).
Qed.

Section Update.
Variables (nodeId : string) (updates : Updates).

(** The node with the id is replaced by the merge. *)
Lemma updateNodeInTree_match p :
  forall tree n,
    uniqueIds tree -> nodeAt tree p = Some n -> id n = nodeId ->
    nodeAt (updateNodeInTree nodeId updates tree) p = Some (spread n updates).
Proof.
  induction p as [|i p IH]; intros tree n Hu Hn Hid.
  - injection Hn as <-. simpl. rewrite updateNodeInTree_eq.
    now rewrite (proj2 (String.eqb_eq _ _) Hid).
  - assert (Hne : id tree <> nodeId).
    { intros E. apply uniqueIds_inv in Hu as (Hself & _). apply Hself.
      simpl in Hn. destruct (nth_error (kids tree) i) as [c|] eqn:Ec; [|discriminate].
      rewrite descendantIds_eq. apply in_flat_map. exists c.
      split; [eapply nth_error_In; eauto|].
      rewrite E, <- Hid. eapply nodeAt_allIds; [exact Hn | apply in_allIds_self]. }
    rewrite nodeAt_cons_update by assumption. simpl in Hn.
    destruct (nth_error (kids tree) i) as [c|] eqn:Ec; [|discriminate].
    apply IH; eauto using uniqueIds_kid.
Qed.

(** Nodes that are neither the match nor below it keep their fields. *)
Lemma updateNodeInTree_outside q :
  forall tree n',
    nodeAt tree q = Some n' -> pathAvoids tree nodeId q ->
    option_map ownFields (nodeAt (updateNodeInTree nodeId updates tree) q)
    = Some (ownFields n').
Proof.
  induction q as [|i q IH]; intros tree n' Hn Hav.
  - injection Hn as <-. simpl. f_equal.
    apply updateNodeInTree_other. apply (Hav 0 tree). reflexivity.
  - assert (Hne : id tree <> nodeId) by (apply (Hav 0 tree); reflexivity).
    rewrite nodeAt_cons_update by assumption. simpl in Hn.
    destruct (nth_error (kids tree) i) as [c|] eqn:Ec; [|discriminate].
    apply IH; [assumption|].
    intros k m Hm. apply (Hav (S k) m). simpl. now rewrite Ec.
Qed.

(** When the update has no [children], all other nodes keep their fields. *)
Lemma updateNodeInTree_keeps_children q :
  u_children updates = None ->
  forall tree n',
    nodeAt tree q = Some n' -> id n' <> nodeId ->
    option_map ownFields (nodeAt (updateNodeInTree nodeId updates tree) q)
    = Some (ownFields n').
Proof.
  intros Hu. induction q as [|i q IH]; intros tree n' Hn Hid.
  - injection Hn as <-. simpl. f_equal. now apply updateNodeInTree_other.
  - destruct (String.eqb_spec (id tree) nodeId) as [E | Hne].
    + rewrite updateNodeInTree_eq, (proj2 (String.eqb_eq _ _) E).
      assert (Hk : kids (spread tree updates) = kids tree).
      { unfold kids, spread. simpl. now rewrite Hu. }
      simpl. rewrite Hk. simpl in Hn. now rewrite Hn.
    + rewrite nodeAt_cons_update by assumption. simpl in Hn.
      destruct (nth_error (kids tree) i) as [c|] eqn:Ec; [|discriminate].
      now apply IH.
Qed.

(** An id that does not occur: the tree comes back as it was. *)
Lemma updateNodeInTree_absent tree :
  ~ In nodeId (allIds tree) -> updateNodeInTree nodeId updates tree = tree.
Proof.
  induction tree as [tree IH] using node_ind_kids. intros Hn.
  rewrite updateNodeInTree_eq.
  destruct (String.eqb_spec (id tree) nodeId) as [E|_].
  { exfalso. apply Hn. rewrite <- E. apply in_allIds_self. }
  destruct tree as [i l s d m [cs|] c p]; [|reflexivity].
  unfold withChildren. simpl. do 2 f_equal.
  assert (Hcs : forall k, In k cs -> ~ In nodeId (allIds k)).
  { intros k Hk Hin. apply Hn. eapply in_allIds_kid; eauto. }
  rewrite kids_Some in IH. clear Hn.
  induction IH as [|k ks Hk _ IHks]; simpl; [reflexivity|].
  rewrite Hk by (apply Hcs; now left).
  f_equal. apply IHks. intros k' Hk'. apply Hcs. now right.
Qed.
End Update.



(** The claim C6 fails as stated: in the chain [r] - [a] - [b], updating [a]
    with [{children: []}] removes [b], a node with a different id. *)
Lemma C6_counterexample_children_replaced :
  uniqueIds chainRoot /\
  nodeAt chainRoot [0; 0] = Some (bare "b" None) /\
  id (bare "b" None) <> "a" /\
  nodeAt (updateNodeInTree "a" dropChildren chainRoot) [0; 0] = None /\
  ~ othersUnchanged chainRoot (updateNodeInTree "a" dropChildren chainRoot) "a".
Proof.
  split; [exact uniqueIds_chainRoot|]. split; [reflexivity|].
  split; [discriminate|]. split; [reflexivity|].
  intros H. specialize (H [0; 0] (bare "b" None) eq_refl). simpl in H.
  assert (E : @None (string * string * string * string * option Metadata
                     * option bool * option (R * R))
              = Some (ownFields (bare "b" None))).
  { apply H. discriminate. }
  discriminate E.
Qed.

(** ** Node activation *)

Lemma findParent_eq cur target par :
  findParent cur target par
  = if String.eqb (id cur) target then par
    else firstFound (fun c => findParent c target (Some cur)) (kids cur).
Proof.
  destruct cur as [i l s d m [cs|] c p]; simpl;
    destruct (String.eqb i target); try reflexivity.
  unfold kids. simpl. generalize (Some (mkNode i l s d m (Some cs) c p)).
  intros q. induction cs as [|k cs IH]; simpl; [reflexivity|].
  now rewrite IH.
Qed.

Lemma firstFound_none {A B} (f : A -> option B) l :
  (forall a, In a l -> f a = None) -> firstFound f l = None.
Proof.
  induction l as [|a l IH]; simpl; intros H; [reflexivity|].
  rewrite (H a) by now left. apply IH. intros b Hb. apply H. now right.
Qed.


Lemma findParent_absent cur :
  forall target par, ~ In target (allIds cur) -> findParent cur target par = None.
Proof.
  induction cur as [cur IH] using node_ind_kids. intros target par Hn.
  rewrite findParent_eq.
  destruct (String.eqb_spec (id cur) target) as [E|_].
  { exfalso. apply Hn. rewrite <- E. apply in_allIds_self. }
  apply firstFound_none. intros k Hk. rewrite Forall_forall in IH.
  apply IH; [now apply list_elem_of_In|].
  intros Hin. apply Hn. eapply in_allIds_kid; eauto.
Qed.



Lemma forEachFrom_add_ids (cs : list MindmapNode) :
  forall k (r : gset string),
    forEachFrom (fun child (_ : nat) (r : gset string) => r ∪ {[ id child ]}) cs k r
    = r ∪ list_to_set (map id cs).
Proof.
  induction cs as [|c cs IH]; intros k r; simpl.
  - now rewrite (right_id_L ∅ (∪)).
  - rewrite IH. now rewrite (assoc_L (∪)).
Qed.

Lemma toggle_spec j nodeId (prev : gset string) :
  j ∈ toggle nodeId prev <->
  (j = nodeId /\ nodeId ∉ prev) \/ (j <> nodeId /\ j ∈ prev).
Proof.
  unfold toggle. destruct (bool_decide_reflect (nodeId ∈ prev)) as [H | H].
  - rewrite elem_of_difference, elem_of_singleton.
    destruct (decide (j = nodeId)) as [-> | Hne]; tauto.
  - rewrite elem_of_union, elem_of_singleton.
    destruct (decide (j = nodeId)) as [-> | Hne]; tauto.
Qed.




(** ** Deleting from the controller *)

(** The delete handler by itself: when the id is not the root's it stores
    the tree without the node and clears the selection, the panel and the
    highlights, whatever the selection was before. *)
Lemma handleDeleteNode_clears :
  forall st nodeId,
    nodeId <> id (root (mindmapData st)) ->
    let st' := handleDeleteNode st nodeId in
    deleteNodeFromTree (root (mindmapData st)) nodeId
    = Some (root (mindmapData st')) /\
    selectedNodeId st' = None /\
    showSidePanel st' = false /\
    highlightedNodes st' = ∅.
Proof.
  intros st nodeId Hne st'. unfold st', handleDeleteNode.
  destruct (String.eqb_spec nodeId (id (root (mindmapData st)))) as [|_];
    [contradiction|].
  destruct (deleteNodeFromTree (root (mindmapData st)) nodeId) as [r|] eqn:E.
  - repeat split; reflexivity.
  - apply deleteNodeFromTree_None in E. contradiction.
Qed.



(** ** Strings *)

Lemma append_cons c (s t : string) : (String c s ++ t)%string = String c (s ++ t)%string.
Proof. reflexivity. Qed.

Lemma append_empty_l (t : string) : ("" ++ t)%string = t.
Proof. reflexivity. Qed.

Lemma prefix_spec sub : forall s,
  String.prefix sub s = true <-> exists post, s = (sub ++ post)%string.
Proof.
  induction sub as [|a sub IH]; intros s; simpl.
  - split; [intros _; now exists s | intros _; now destruct s].
  - destruct s as [|b s]; simpl.
    + split; [discriminate | intros (post & H); discriminate].
    + destruct (ascii_dec a b) as [-> | Hne].
      * rewrite IH. split; intros (post & H); exists post;
          rewrite append_cons in *; congruence.
      * split; [discriminate | intros (post & H); rewrite append_cons in H; congruence].
Qed.

Lemma includes_spec sub : forall s,
  includes s sub = true <-> exists pre post, s = (pre ++ sub ++ post)%string.
Proof.
  induction s as [|c s IH]; cbn [includes]; rewrite orb_true_iff, prefix_spec.
  - split.
    + intros [(post & H) | H]; [|discriminate]. now exists ""%string, post.
    + intros ([|? pre] & post & H); [|rewrite append_cons in H; discriminate].
      left. now exists post.
  - rewrite IH. split.
    + intros [(post & H) | (pre & post & H)].
      * now exists ""%string, post.
      * exists (String c pre), post. rewrite append_cons. now rewrite H.
    + intros ([|c' pre] & post & H).
      * left. now exists post.
      * right. exists pre, post. rewrite append_cons in H. congruence.
Qed.

Lemma nonEmpty_false s : nonEmpty s = false <-> s = ""%string.
Proof. destruct s; simpl; split; congruence. Qed.

Lemma trimStart_empty s : trimStart s = ""%string <-> allWhiteSpace s = true.
Proof.
  induction s as [|c s IH]; simpl; [tauto|].
  destruct (isWhiteSpace c); simpl; [exact IH | split; discriminate].
Qed.

Lemma trimEnd_empty s : trimEnd s = ""%string <-> allWhiteSpace s = true.
Proof.
  induction s as [|c s IH]; simpl; [tauto|].
  destruct (trimEnd s) eqn:E.
  - destruct (isWhiteSpace c); simpl; [|split; discriminate].
    split; intros _; [now apply IH | reflexivity].
  - split; [discriminate|]. rewrite andb_true_iff. intros [_ H].
    apply IH in H. discriminate.
Qed.

Lemma allWhiteSpace_trimStart s : allWhiteSpace (trimStart s) = allWhiteSpace s.
Proof.
  induction s as [|c s IH]; simpl; [reflexivity|].
  destruct (isWhiteSpace c) eqn:E; simpl; [exact IH | now rewrite E].
Qed.

(** [!query.trim()] holds exactly for the strings made of white space. *)
Lemma trim_blank s : nonEmpty (trim s) = negb (allWhiteSpace s).
Proof.
  unfold trim. destruct (allWhiteSpace s) eqn:E; simpl.
  - apply nonEmpty_false, trimEnd_empty. now rewrite allWhiteSpace_trimStart.
  - destruct (nonEmpty (trimEnd (trimStart s))) eqn:N; [reflexivity|].
    apply nonEmpty_false, trimEnd_empty in N.
    rewrite allWhiteSpace_trimStart in N. congruence.
Qed.

(** ** Search *)

Lemma searchInNode_eq searchLower node results :
  searchInNode searchLower node results
  = forEach (fun child (_ : nat) r => searchInNode searchLower child r) (kids node)
      (if matchesSearch searchLower node then results ++ [id node] else results).
Proof. destruct node as [i l s d m [cs|] c p]; reflexivity. Qed.

Lemma forEachFrom_collect {A} (f : A -> list string -> list string)
    (g : A -> list string) (l : list A) :
  Forall (fun a => forall r, f a r = r ++ g a) l ->
  forall k r, forEachFrom (fun a (_ : nat) r => f a r) l k r = r ++ flat_map g l.
Proof.
  induction 1 as [|a l Ha _ IH]; intros k r; simpl.
  - now rewrite app_nil_r.
  - rewrite IH, Ha. now rewrite <- app_assoc.
Qed.

(** The scan appends the ids of the matching nodes in document order. *)
Lemma searchInNode_spec searchLower node :
  forall results,
    searchInNode searchLower node results
    = results ++ map id (List.filter (matchesSearch searchLower) (allNodes node)).
Proof.
  induction node as [node IH] using node_ind_kids. intros results.
  rewrite searchInNode_eq, allNodes_eq. unfold forEach.
  rewrite (forEachFrom_collect _
             (fun c => map id (List.filter (matchesSearch searchLower) (allNodes c))))
    by exact IH.
  simpl List.filter.
  assert (E : flat_map
                (fun c => map id (List.filter (matchesSearch searchLower) (allNodes c)))
                (kids node)
              = map id (List.filter (matchesSearch searchLower)
                          (flat_map allNodes (kids node)))).
  { clear IH. induction (kids node) as [|k ks IHk]; simpl; [reflexivity|].
    now rewrite List.filter_app, map_app, IHk. }
  rewrite E. destruct (matchesSearch searchLower node); simpl.
  - now rewrite <- app_assoc.
  - reflexivity.
Qed.

Lemma matchesSearch_spec query n :
  matchesSearch (toLowerCase query) n = true <-> nodeMatches query n.
Proof.
  unfold matchesSearch, nodeMatches, containsCI.
  rewrite !orb_true_iff, !includes_spec.
  assert (T : match metadata n with
              | Some m =>
                  match tags m with
                  | Some ts =>
                      existsb (fun tag => includes (toLowerCase tag) (toLowerCase query)) ts
                  | None => false
                  end
              | None => false
              end = true <->
              exists m ts tag, metadata n = Some m /\ tags m = Some ts /\ In tag ts /\
                exists pre post,
                  toLowerCase tag = (pre ++ toLowerCase query ++ post)%string).
  { destruct (metadata n) as [m|].
    - destruct (tags m) as [ts|] eqn:Et.
      + rewrite existsb_exists. split.
        * intros (tag & Hin & Hinc). apply includes_spec in Hinc.
          exists m, ts, tag. auto.
        * intros (m' & ts' & tag & [= <-] & Ets & Hin & Hinc).
          rewrite Et in Ets. injection Ets as <-.
          exists tag. split; [assumption | now apply includes_spec].
      + split; [discriminate|].
        intros (m' & ts' & tag & [= <-] & Ets & _). congruence.
    - split; [discriminate|]. intros (m' & ts' & tag & E & _). discriminate. }
  rewrite T. tauto.
Qed.

Lemma searchNodes_spec st query i :
  allWhiteSpace query = false ->
  (In i (searchNodes st query) <->
   exists n, In n (allNodes (root (mindmapData st))) /\ id n = i /\
             nodeMatches query n).
Proof.
  intros Hb. unfold searchNodes. rewrite trim_blank, Hb. simpl.
  rewrite searchInNode_spec. simpl. rewrite in_map_iff. split.
  - intros (n & E & Hn). apply filter_In in Hn as [Hn Hm].
    exists n. split; [assumption|]. split; [assumption|].
    now apply matchesSearch_spec.
  - intros (n & Hn & E & Hm). exists n. split; [assumption|].
    apply filter_In. split; [assumption | now apply matchesSearch_spec].
Qed.

Lemma searchNodes_blank st query :
  allWhiteSpace query = true -> searchNodes st query = [].
Proof. intros Hb. unfold searchNodes. now rewrite trim_blank, Hb. Qed.

(** ** The search box *)

Lemma onSearchChange_changed st query :
  query <> searchQuery st ->
  onSearchChange st query
  = syncSearchHighlight
      (mkState (collapsedNodes st) (selectedNodeId st) (hoveredNodeId st)
         (highlightedNodes st) (mindmapData st) (showSidePanel st) query).
Proof.
  intros Hne. unfold onSearchChange.
  now destruct (String.eqb_spec query (searchQuery st)).
Qed.

Lemma onSearchChange_nonblank st query :
  query <> searchQuery st -> allWhiteSpace query = false ->
  highlightedNodes (onSearchChange st query) = list_to_set (searchNodes st query).
Proof.
  intros Hne Hb. rewrite onSearchChange_changed by assumption.
  unfold syncSearchHighlight. simpl. rewrite trim_blank, Hb. reflexivity.
Qed.

Lemma onSearchChange_blank st query :
  query <> searchQuery st -> allWhiteSpace query = true ->
  highlightedNodes (onSearchChange st query)
  = if truthy (selectedNodeId st) then highlightedNodes st else ∅.
Proof.
  intros Hne Hb. rewrite onSearchChange_changed by assumption.
  unfold syncSearchHighlight. simpl. rewrite trim_blank, Hb. simpl.
  now destruct (truthy (selectedNodeId st)).
Qed.

Lemma onSearchChange_data st query :
  mindmapData (onSearchChange st query) = mindmapData st.
Proof.
  unfold onSearchChange. destruct (String.eqb query (searchQuery st)); [reflexivity|].
  unfold syncSearchHighlight. simpl.
  destruct (nonEmpty (trim query)); [reflexivity|].
  now destruct (negb (truthy (selectedNodeId st))).
Qed.

Lemma selectedNode_truthy st n :
  selectedNode st = Some n -> truthy (selectedNodeId st) = true.
Proof.
  unfold selectedNode. now destruct (truthy (selectedNodeId st)).
Qed.

(** C8, as the code has it.  When the search box changes to a query with at
    least one character that is not white space, the highlighted ids become
    exactly the ids of the nodes whose label, summary, description or some
    tag contains the query, case ignored.  When it changes to an empty or
    all-white-space query, the highlights are cleared if [selectedNodeId] is
    [null] and stay as they are if a node is selected.  A node tagged
    [library], [ui] is highlighted by the query [library]. *)
Theorem C8_search_highlights :
  (forall st query,
      query <> searchQuery st -> allWhiteSpace query = false ->
      highlightsAreMatches (onSearchChange st query) query) /\
  (forall st query,
      query <> searchQuery st -> allWhiteSpace query = true ->
      (selectedNodeId st = None ->
       highlightedNodes (onSearchChange st query) = ∅) /\
      (forall n, selectedNode st = Some n ->
                 highlightedNodes (onSearchChange st query) = highlightedNodes st)) /\
  (forall st n m,
      "library" <> searchQuery st ->
      In n (allNodes (root (mindmapData st))) ->
      metadata n = Some m -> tags m = Some ["library"; "ui"] ->
      id n ∈ highlightedNodes (onSearchChange st "library")).
Proof.
  assert (Hmain : forall st query,
             query <> searchQuery st -> allWhiteSpace query = false ->
             highlightsAreMatches (onSearchChange st query) query).
  { intros st query Hne Hb i.
    rewrite onSearchChange_data, onSearchChange_nonblank by assumption.
    rewrite elem_of_list_to_set, list_elem_of_In.
    now apply searchNodes_spec. }
  split; [exact Hmain|]. split.
  - intros st query Hne Hb. rewrite onSearchChange_blank by assumption. split.
    + intros ->. reflexivity.
    + intros n Hn. now rewrite (selectedNode_truthy _ _ Hn).
  - intros st n m Hne Hn Hm Ht.
    apply (Hmain st "library" Hne eq_refl (id n)).
    exists n. rewrite onSearchChange_data. split; [assumption|].
    split; [reflexivity|].
    right. right. right. exists m, ["library"; "ui"], "library".
    split; [assumption|]. split; [assumption|]. split; [now left|].
    now exists "", "".
Qed.

(** C8 on a single node tagged [library], [ui]. *)
Lemma C8_search_highlights_witness :
  id taggedRoot ∈ highlightedNodes (onSearchChange (initialState taggedRoot) "library")
  /\ highlightedNodes (onSearchChange (initialState taggedRoot) "  ") = ∅.
Proof.
  split.
  - apply (proj2 (proj2 C8_search_highlights) (initialState taggedRoot) taggedRoot
             (mkMetadata None None None (Some ["library"; "ui"]) [])).
    + discriminate.
    + simpl. auto.
    + reflexivity.
    + reflexivity.
  - apply (proj1 (proj2 C8_search_highlights) (initialState taggedRoot) "  ").
    + discriminate.
    + reflexivity.
    + reflexivity.
Defined.

(** The claim C8 fails as stated: the query of one space is not empty and
    occurs in the label ["a b"], yet the node is not highlighted, because the
    effect tests [searchQuery.trim()]. *)
Lemma C8_counterexample_blank_query :
  " " <> "" /\
  " " <> searchQuery (initialState spacedRoot) /\
  In spacedRoot (allNodes (root (mindmapData (initialState spacedRoot)))) /\
  nodeMatches " " spacedRoot /\
  highlightedNodes (onSearchChange (initialState spacedRoot) " ") = ∅ /\
  ~ highlightsAreMatches (onSearchChange (initialState spacedRoot) " ") " ".
Proof.
  assert (Hm : nodeMatches " " spacedRoot).
  { left. now exists "a", "b". }
  assert (He : highlightedNodes (onSearchChange (initialState spacedRoot) " ") = ∅).
  { rewrite onSearchChange_blank; [reflexivity | discriminate | reflexivity]. }
  split; [discriminate|]. split; [discriminate|].
  split; [simpl; auto|]. split; [exact Hm|]. split; [exact He|].
  intros H. specialize (H "r"). rewrite He in H.
  apply (not_elem_of_empty (C := gset string) "r"). apply H.
  exists spacedRoot. split; [simpl; auto|]. split; [reflexivity | exact Hm].
Qed.

(** C10.  A query made only of white space, empty or not: [searchNodes]
    returns no match; when the search box changes to it the highlights are
    not computed from a search, they are cleared or left alone by the test on
    [selectedNodeId] alone: cleared when it is [null], left alone when a node
    is selected, so that they change only when no node is selected. *)
Theorem C10_blank_query_is_empty :
  forall st query,
    allWhiteSpace query = true ->
    searchNodes st query = [] /\
    (query <> searchQuery st ->
     searchQuery (onSearchChange st query) = query /\
     highlightedNodes (onSearchChange st query)
     = (if truthy (selectedNodeId st) then highlightedNodes st else ∅) /\
     (selectedNodeId st = None ->
      highlightedNodes (onSearchChange st query) = ∅) /\
     (forall n, selectedNode st = Some n ->
                highlightedNodes (onSearchChange st query) = highlightedNodes st) /\
     (highlightedNodes (onSearchChange st query) <> highlightedNodes st ->
      selectedNode st = None)).
Proof.
  intros st query Hb. split; [now apply searchNodes_blank|].
  intros Hne. rewrite onSearchChange_blank by assumption.
  split; [|split; [reflexivity | split; [|split]]].
  - rewrite onSearchChange_changed by assumption.
    unfold syncSearchHighlight. simpl. rewrite trim_blank, Hb. simpl.
    now destruct (negb (truthy (selectedNodeId st))).
  - intros ->. reflexivity.
  - intros n Hn. now rewrite (selectedNode_truthy _ _ Hn).
  - intros Hch. unfold selectedNode.
    destruct (truthy (selectedNodeId st)); [contradiction | reflexivity].
Qed.

(** C10 at the query of two spaces, with the node [a] of the chain selected
    and highlighted. *)
Lemma C10_blank_query_is_empty_witness :
  searchNodes
    (mkState ∅ (Some "a") None {[ "a" ]} (mkData chainRoot None None) true "") "  "
  = [] /\
  highlightedNodes
    (onSearchChange
       (mkState ∅ (Some "a") None {[ "a" ]} (mkData chainRoot None None) true "") "  ")
  = {[ "a" ]}.
Proof.
  destruct (C10_blank_query_is_empty
              (mkState ∅ (Some "a") None {[ "a" ]} (mkData chainRoot None None) true "")
              "  " eq_refl) as [H1 H2].
  split; [exact H1|].
  destruct H2 as (_ & _ & _ & H & _); [discriminate|].
  apply (H (bare "a" (Some [bare "b" None]))). reflexivity.
Defined.

(** ** The search effect after a click or a deletion

    The effect also runs after a render in which [selectedNodeId] or the
    document changed.  With an empty or all-white-space query it leaves the
    highlights of a click in place and the highlights of a deletion empty;
    with any other query it replaces them by the search results. *)

Lemma syncSearchHighlight_after_click st n x y :
  allWhiteSpace (searchQuery st) = true -> id n <> "" ->
  highlightedNodes (syncSearchHighlight (onNodeClick st (flowNodeOf n x y)))
  = highlightedNodes (onNodeClick st (flowNodeOf n x y)).
Proof.
  intros Hb Hne. unfold syncSearchHighlight.
  change (searchQuery (onNodeClick st (flowNodeOf n x y))) with (searchQuery st).
  rewrite trim_blank, Hb.
  change (selectedNodeId (onNodeClick st (flowNodeOf n x y))) with (Some (id n)).
  now rewrite (truthy_Some _ Hne).
Qed.

Lemma syncSearchHighlight_after_delete st nodeId :
  allWhiteSpace (searchQuery st) = true ->
  nodeId <> id (root (mindmapData st)) ->
  highlightedNodes (syncSearchHighlight (handleDeleteNode st nodeId)) = ∅.
Proof.
  intros Hb Hne. unfold syncSearchHighlight, handleDeleteNode.
  destruct (String.eqb_spec nodeId (id (root (mindmapData st)))) as [|_];
    [contradiction|].
  destruct (deleteNodeFromTree (root (mindmapData st)) nodeId) as [r|] eqn:E.
  - simpl. rewrite trim_blank, Hb. reflexivity.
  - apply deleteNodeFromTree_None in E. contradiction.
Qed.

Lemma syncSearchHighlight_active st :
  allWhiteSpace (searchQuery st) = false ->
  highlightedNodes (syncSearchHighlight st)
  = list_to_set (searchNodes st (searchQuery st)).
Proof.
  intros Hb. unfold syncSearchHighlight. now rewrite trim_blank, Hb.
Qed.

(** * Further properties of the code *)

(** ** The layout as a whole *)

Lemma visibleNodes_empty node : visibleNodes ∅ node = allNodes node.
Proof.
  induction node as [node IH] using node_ind_kids.
  rewrite visibleNodes_eq, allNodes_eq, hasChildren_empty. f_equal.
  assert (E : flat_map (visibleNodes ∅) (kids node) = flat_map allNodes (kids node)).
  { induction IH as [|a l Ha _ IHl]; simpl; [reflexivity|]. now rewrite Ha, IHl. }
  rewrite E. now destruct (kids node).
Qed.

(** X1.  With nothing collapsed the layout pushes one node per node of the
    tree, in document order; and under any collapsed set every node pushed
    carries the id, label, summary, description and metadata of the tree node
    it was made from. *)
Theorem layout_expanded_shows_every_node :
  (forall rootNode,
      map (fun fn => nd_originalNode (fn_data fn))
        (fst (convertMindmapToFlow ∅ rootNode)) = allNodes rootNode /\
      map fn_id (fst (convertMindmapToFlow ∅ rootNode)) = allIds rootNode) /\
  (forall collapsedNodes rootNode fn,
      In fn (fst (convertMindmapToFlow collapsedNodes rootNode)) ->
      let n := nd_originalNode (fn_data fn) in
      In n (allNodes rootNode) /\
      fn_id fn = id n /\ fn_type fn = "mindmapNode" /\
      nd_label (fn_data fn) = label n /\ nd_summary (fn_data fn) = summary n /\
      nd_description (fn_data fn) = description n /\
      nd_metadata (fn_data fn) = metadata n).
Proof.
  split.
  - intros rootNode. unfold convertMindmapToFlow.
    change (@nil FlowNode, @nil FlowEdge) with emptyOut.
    rewrite calculatePositions_nodes, calculatePositions_ids, visibleNodes_empty.
    split; reflexivity.
  - intros collapsedNodes rootNode fn Hfn n.
    assert (Hn : In n (visibleNodes collapsedNodes rootNode)).
    { unfold convertMindmapToFlow in Hfn.
      change (@nil FlowNode, @nil FlowEdge) with emptyOut in Hfn.
      rewrite <- (calculatePositions_nodes collapsedNodes rootNode 0 0 0%R 0%R 1 0%R None).
      apply (in_map (fun fn => nd_originalNode (fn_data fn))). exact Hfn. }
    apply Visit_complete in Hfn as (n' & l & i & px & py & sc & pa & pid & _ & E).
    subst fn. simpl in *. repeat split.
    clear - Hn. revert n Hn. generalize rootNode.
    induction rootNode0 as [t IH] using node_ind_kids. intros n.
    rewrite visibleNodes_eq, allNodes_eq. intros [<- | H]; [now left|]. right.
    destruct (hasChildren collapsedNodes t); [|contradiction].
    apply in_flat_map in H as (k & Hk & Hn). apply in_flat_map. exists k.
    split; [assumption|]. rewrite Forall_forall in IH.
    apply IH; [now apply list_elem_of_In | assumption].
Qed.

(** X1 on the scenario document. *)
Lemma layout_expanded_shows_every_node_witness :
  In (bare "b" None) (allNodes scenarioRoot) /\
  fn_id (flowNodeOf (bare "b" None) (xOf 1 1 0 3 0) (yOf 1 1 0 3 0)) = "b".
Proof.
  destruct (proj2 layout_expanded_shows_every_node ∅ scenarioRoot
              (flowNodeOf (bare "b" None) (xOf 1 1 0 3 0) (yOf 1 1 0 3 0)))
    as (H1 & H2 & _).
  - rewrite scenario_out. simpl. auto.
  - split; [exact H1 | exact H2].
Defined.

Lemma concatOutFrom_snd_inv {A} (g : A -> nat -> Out) (l : list A) :
  forall k e, In e (snd (concatOutFrom g l k)) ->
              exists i a, nth_error l i = Some a /\ In e (snd (g a (k + i))).
Proof.
  induction l as [|b l IH]; intros k e H; simpl in H; [contradiction|].
  apply in_app_or in H as [H | H].
  - exists 0, b. rewrite Nat.add_0_r. split; [reflexivity | assumption].
  - destruct (IH _ _ H) as (i & a & Hi & Ha). exists (S i), a.
    replace (k + S i) with (S k + i) by lia. split; assumption.
Qed.

Lemma truthy_true_inv pid :
  truthy pid = true -> exists s, pid = Some s /\ s <> "".
Proof.
  destruct pid as [[|c s]|]; try discriminate. intros _. eexists. split; [reflexivity|].
  discriminate.
Qed.

(** Every edge pushed comes from a call whose [parentId] is truthy. *)
Lemma Visit_complete_edges collapsedNodes rootNode node :
  forall level index px py sc pa pid,
    Visit collapsedNodes rootNode node level index px py sc pa pid ->
    forall e,
      In e (snd (calculatePositions collapsedNodes node level index px py sc pa pid
                   emptyOut)) ->
      exists n' level' index' px' py' sc' pa' pid',
        Visit collapsedNodes rootNode n' level' index' px' py' sc' pa' pid' /\
        truthy pid' = true /\ e = flowEdgeOf (default "" pid') n'.
Proof.
  induction node as [node IH] using node_ind_kids.
  intros level index px py sc pa pid HV e He.
  rewrite calculatePositions_unfold in He. simpl in He.
  apply in_app_or in He as [He | He].
  - destruct (truthy pid) eqn:T; [|contradiction].
    destruct He as [<- | []]. do 8 eexists. split; [exact HV|]. split; [exact T | reflexivity].
  - destruct (hasChildren collapsedNodes node) eqn:Hc; [|contradiction].
    rewrite forEach_calc_concat in He.
    apply concatOutFrom_snd_inv in He as (i & child & Hi & He).
    rewrite Forall_forall in IH.
    apply (IH child (proj2 (list_elem_of_In _ _) (nth_error_In _ _ Hi))
             _ _ _ _ _ _ _ (Visit_child _ _ _ _ _ _ _ _ _ _ _ _ HV Hc Hi) e He).
Qed.

Lemma visibleEdges_targets collapsedNodes node :
  (forall n, In n (allNodes node) -> id n <> "") ->
  forall pid,
    map fe_target (visibleEdges collapsedNodes pid node)
    = (if truthy pid then [id node] else [])
      ++ tl (map id (visibleNodes collapsedNodes node)).
Proof.
  induction node as [node IH] using node_ind_kids. intros Hne pid.
  rewrite visibleEdges_eq, visibleNodes_eq, map_app. f_equal.
  - now destruct (truthy pid).
  - simpl tl. destruct (hasChildren collapsedNodes node); [|reflexivity].
    assert (Hk : forall k, In k (kids node) ->
                 map fe_target (visibleEdges collapsedNodes (Some (id node)) k)
                 = map id (visibleNodes collapsedNodes k)).
    { intros k Hk. rewrite Forall_forall in IH.
      rewrite (IH k (proj2 (list_elem_of_In _ _) Hk)).
      - rewrite truthy_Some by (apply Hne; rewrite allNodes_eq; now left).
        rewrite (visibleNodes_eq _ k). reflexivity.
      - intros n Hn. apply Hne. rewrite allNodes_eq. right.
        apply in_flat_map. eauto. }
    clear IH. induction (kids node) as [|k ks IHk]; simpl; [reflexivity|].
    rewrite !map_app, Hk by now left.
    f_equal. apply IHk. intros k' Hk'. apply Hk. now right.
Qed.

(** X2.  Every edge of the layout runs from a positioned, expanded node with a
    non-empty id to one of its children, which is positioned too; so no edge
    ever has the empty string as its source.  When no node has the empty id,
    the edge targets are the node ids after the root, in the same order: one
    incoming edge per node below the root. *)
Theorem layout_edges_are_parent_links :
  (forall collapsedNodes rootNode e,
      In e (snd (convertMindmapToFlow collapsedNodes rootNode)) ->
      exists parent child x y x' y',
        In (flowNodeOf parent x y) (fst (convertMindmapToFlow collapsedNodes rootNode)) /\
        In (flowNodeOf child x' y') (fst (convertMindmapToFlow collapsedNodes rootNode)) /\
        In child (kids parent) /\
        (id parent ∉ collapsedNodes) /\ id parent <> "" /\
        e = flowEdgeOf (id parent) child) /\
  (forall collapsedNodes rootNode,
      (forall n, In n (allNodes rootNode) -> id n <> "") ->
      map fe_target (snd (convertMindmapToFlow collapsedNodes rootNode))
      = tl (map fn_id (fst (convertMindmapToFlow collapsedNodes rootNode))) /\
      length (snd (convertMindmapToFlow collapsedNodes rootNode)) + 1
      = length (fst (convertMindmapToFlow collapsedNodes rootNode))).
Proof.
  split.
  - intros collapsedNodes rootNode e He.
    apply (Visit_complete_edges collapsedNodes rootNode rootNode 0 0 0%R 0%R 1 0%R None
             (Visit_root _ _)) in He
      as (n' & l & i & px & py & sc & pa & pid & HV & T & ->).
    destruct HV as [|parent level index px py sc pa pid i child HV Hc Hi];
      [discriminate|].
    apply truthy_true_inv in T as (s & [= <-] & Hs).
    apply hasChildren_true in Hc as Hc'. destruct Hc' as [_ Hcol].
    exists parent, child. do 4 eexists.
    split; [exact (Visit_node _ _ _ _ _ _ _ _ _ _ HV)|].
    split; [exact (Visit_node _ _ _ _ _ _ _ _ _ _
                     (Visit_child _ _ _ _ _ _ _ _ _ _ _ _ HV Hc Hi))|].
    split; [eapply nth_error_In; eauto|]. auto.
  - intros collapsedNodes rootNode Hne.
    assert (E : map fe_target (snd (convertMindmapToFlow collapsedNodes rootNode))
                = tl (map fn_id (fst (convertMindmapToFlow collapsedNodes rootNode)))).
    { rewrite convertMindmapToFlow_ids, convertMindmapToFlow_edges.
      now rewrite visibleEdges_targets. }
    split; [exact E|].
    apply (f_equal (@length string)) in E. rewrite length_map in E. rewrite E.
    pose proof (convertMindmapToFlow_ids collapsedNodes rootNode) as Hids.
    rewrite visibleNodes_eq in Hids.
    destruct (fst (convertMindmapToFlow collapsedNodes rootNode)) as [|a l];
      [discriminate|].
    simpl. rewrite length_map. lia.
Qed.

(** X2 on the scenario document. *)
Lemma layout_edges_are_parent_links_witness :
  map fe_target (snd (convertMindmapToFlow ∅ scenarioRoot))
  = tl (map fn_id (fst (convertMindmapToFlow ∅ scenarioRoot))).
Proof.
  apply (proj2 layout_edges_are_parent_links ∅ scenarioRoot).
  intros n Hn. simpl in Hn.
  destruct Hn as [<- | [<- | [<- | [<- | []]]]]; discriminate.
Defined.

(** ** How far the layout spreads *)

Section Spread.
Local Open Scope R_scope.

Lemma polar_step_bound px py a r :
  0 <= r ->
  dist (px + cos a * r, py + sin a * r) (0, 0) <= dist (px, py) (0, 0) + r.
Proof.
  intros Hr. unfold dist. simpl. rewrite !Rminus_0_r.
  set (d := sqrt (px * px + py * py)).
  assert (Hd0 : 0 <= d) by apply sqrt_pos.
  assert (Hdd : d * d = px * px + py * py).
  { apply sqrt_sqrt. nra. }
  pose proof (sin2_cos2 a) as Hsc. unfold Rsqr in Hsc.
  assert (Hdot : px * cos a + py * sin a <= d).
  { assert (Hsq : (px * cos a + py * sin a) * (px * cos a + py * sin a) <= d * d).
    { rewrite Hdd.
      replace (px * px + py * py)
        with ((px * px + py * py) * (sin a * sin a + cos a * cos a))
        by (rewrite Hsc; ring).
      pose proof (Rle_0_sqr (px * sin a - py * cos a)) as Hsq. unfold Rsqr in Hsq.
      replace ((px * px + py * py) * (sin a * sin a + cos a * cos a))
        with ((px * cos a + py * sin a) * (px * cos a + py * sin a)
              + (px * sin a - py * cos a) * (px * sin a - py * cos a)) by ring.
      lra. }
    destruct (Rle_dec (px * cos a + py * sin a) d) as [|Hn]; [assumption|].
    exfalso. nra. }
  rewrite <- (sqrt_square (d + r)) by lra.
  apply sqrt_le_1_alt.
  replace ((px + cos a * r) * (px + cos a * r) + (py + sin a * r) * (py + sin a * r))
    with ((px * px + py * py) + r * r * (sin a * sin a + cos a * cos a)
          + 2 * r * (px * cos a + py * sin a)) by ring.
  rewrite Hsc, <- Hdd. nra.
Qed.

Lemma reach_closed level :
  reach level = 250 * (1 - (85 / 100) ^ level) / (15 / 100).
Proof.
  induction level as [|l IH]; simpl reach.
  - simpl. field.
  - rewrite IH, radiusOf_S. unfold BASE_RADIUS, LEVEL_SCALE. simpl pow. field.
Qed.

Lemma reach_bound level : reach level < 5000 / 3.
Proof.
  rewrite reach_closed.
  assert (0 < (85 / 100) ^ level) by (apply pow_lt; lra).
  lra.
Qed.

Lemma Visit_within_reach collapsedNodes rootNode node level index px py sc pa pid :
  Visit collapsedNodes rootNode node level index px py sc pa pid ->
  dist (xOf level index px sc pa, yOf level index py sc pa) (0, 0) <= reach level.
Proof.
  induction 1 as [|node level index px py sc pa pid i child HV IH Hc Hi].
  - unfold dist. simpl. change (xOf 0 0 0 1 0) with 0. change (yOf 0 0 0 1 0) with 0.
    rewrite !Rminus_0_r, Rmult_0_l, Rplus_0_l, sqrt_0. lra.
  - rewrite xOf_S, yOf_S. simpl reach.
    eapply Rle_trans; [apply polar_step_bound; left; apply radiusOf_pos|].
    lra.
Qed.
End Spread.

(** X3.  Whatever the tree and the collapsed set, every node is placed
    within [250 / (1 - 0.85) = 5000/3] of the origin: a node at level [L] is
    at most the sum of the radii of the levels [1 .. L] away. *)
Theorem layout_stays_within_reach :
  forall collapsedNodes rootNode fn,
    In fn (fst (convertMindmapToFlow collapsedNodes rootNode)) ->
    (dist (fn_position fn) (0, 0) < 5000 / 3)%R /\
    exists node level index px py sc pa pid,
      Visit collapsedNodes rootNode node level index px py sc pa pid /\
      fn = flowNodeOf node (xOf level index px sc pa) (yOf level index py sc pa) /\
      (dist (fn_position fn) (0, 0) <= reach level)%R /\
      reach level = (250 * (1 - (85 / 100) ^ level) / (15 / 100))%R.
Proof.
  intros collapsedNodes rootNode fn Hfn.
  apply Visit_complete in Hfn as (n & l & i & px & py & sc & pa & pid & HV & ->).
  pose proof (Visit_within_reach _ _ _ _ _ _ _ _ _ _ HV) as Hb.
  split.
  - simpl fn_position. eapply Rle_lt_trans; [exact Hb | apply reach_bound].
  - exists n, l, i, px, py, sc, pa, pid.
    split; [exact HV|]. split; [reflexivity|]. split; [exact Hb | apply reach_closed].
Qed.

(** X3 on the scenario document, node [b]. *)
Lemma layout_stays_within_reach_witness :
  (dist (xOf 1 1 0 3 0, yOf 1 1 0 3 0) (0, 0) < 5000 / 3)%R.
Proof.
  apply (proj1 (layout_stays_within_reach ∅ scenarioRoot
                  (flowNodeOf (bare "b" None) (xOf 1 1 0 3 0) (yOf 1 1 0 3 0))
                  ltac:(rewrite scenario_out; simpl; auto))).
Defined.

(** X4.  Below level 1, consecutive siblings are a fixed positive angle
    apart, [angleSpan / (n - 1)], and the fan never opens wider than
    [1.6π].  When the cap of [1.6π] is not reached the arc between
    neighbours, measured at the level's radius, is [180 * n / (n - 1)], more
    than [MIN_SPACING]; when the cap is reached the arc is shorter than
    that. *)
Theorem fan_spacing :
  forall level n i pa,
    2 <= n ->
    let radius := radiusOf (S (S level)) in
    let step := (angleOf (S (S level)) (S i) n pa - angleOf (S (S level)) i n pa)%R in
    (step = angleSpanOf (S (S level)) n / (INR n - 1))%R /\
    (0 < step)%R /\
    (angleSpanOf (S (S level)) n <= PI * (16 / 10))%R /\
    ((INR n * (180 / radius) <= PI * (16 / 10))%R ->
     (radius * step = 180 * INR n / (INR n - 1))%R /\ (180 < radius * step)%R) /\
    ((PI * (16 / 10) < INR n * (180 / radius))%R ->
     (radius * step = radius * (PI * (16 / 10)) / (INR n - 1))%R /\
     (radius * step < 180 * INR n / (INR n - 1))%R).
Proof.
  intros level n i pa Hn radius step.
  assert (Hn2 : (2 <= INR n)%R) by (apply (le_INR 2); lia).
  assert (Hr : (0 < radius)%R) by apply radiusOf_pos.
  assert (Hspan : (0 < angleSpanOf (S (S level)) n)%R) by (apply angleSpanOf_pos; lia).
  assert (Hstep : (step = angleSpanOf (S (S level)) n / (INR n - 1))%R).
  { unfold step. rewrite !angleOf_deep.
    destruct (Nat.eqb_spec n 1) as [|_]; [lia|].
    rewrite S_INR. field. lra. }
  assert (Hinv : (0 < / (INR n - 1))%R) by (apply Rinv_0_lt_compat; lra).
  split; [exact Hstep|]. split; [|split; [|split]].
  - rewrite Hstep. unfold Rdiv. apply Rmult_lt_0_compat; assumption.
  - unfold angleSpanOf, MAX_ANGLE_SPAN. apply Rmin_l.
  - intros Hcap. rewrite Hstep. unfold angleSpanOf, MAX_ANGLE_SPAN, MIN_SPACING.
    fold radius. rewrite Rmin_right by exact Hcap.
    assert (E : (radius * (INR n * (180 / radius) / (INR n - 1))
                 = 180 * INR n / (INR n - 1))%R) by (field; lra).
    split; [exact E|]. rewrite E.
    apply Rmult_lt_reg_r with (INR n - 1)%R; [lra|].
    unfold Rdiv. rewrite Rmult_assoc, Rinv_l by lra. lra.
  - intros Hcap. rewrite Hstep. unfold angleSpanOf, MAX_ANGLE_SPAN, MIN_SPACING.
    fold radius. rewrite Rmin_left by lra.
    split; [unfold Rdiv; ring|].
    assert (E : (180 * INR n / (INR n - 1)
                 = radius * (INR n * (180 / radius)) / (INR n - 1))%R) by (field; lra).
    rewrite E. unfold Rdiv. rewrite <- !Rmult_assoc.
    apply Rmult_lt_compat_r; [assumption|]. rewrite !Rmult_assoc.
    apply Rmult_lt_compat_l; [assumption|]. unfold Rdiv in Hcap. lra.
Qed.

(** X4 for three siblings at level 2. *)
Lemma fan_spacing_witness :
  (0 < angleOf 2 1 3 0 - angleOf 2 0 3 0)%R.
Proof.
  apply (proj1 (proj2 (fan_spacing 0 3 0 0%R ltac:(lia)))).
Defined.

(** ** Which collapsed ids matter *)

Lemma forEachFrom_ext {A St} (f g : A -> nat -> St -> St) (l : list A) :
  Forall (fun a => forall i s, f a i s = g a i s) l ->
  forall k s, forEachFrom f l k s = forEachFrom g l k s.
Proof.
  induction 1 as [|a l Ha _ IH]; intros k s; simpl; [reflexivity|].
  now rewrite Ha, IH.
Qed.

Lemma hasChildren_agree c c' node :
  (kids node <> [] -> (id node ∈ c <-> id node ∈ c')) ->
  hasChildren c node = hasChildren c' node.
Proof.
  intros H. rewrite !hasChildren_eq. destruct (kids node) as [|k ks]; [reflexivity|].
  simpl. f_equal. apply bool_decide_ext. apply H. discriminate.
Qed.

Lemma calculatePositions_agree c c' node :
  (forall n, In n (allNodes node) -> kids n <> [] -> (id n ∈ c <-> id n ∈ c')) ->
  forall level index px py sc pa pid out,
    calculatePositions c node level index px py sc pa pid out
    = calculatePositions c' node level index px py sc pa pid out.
Proof.
  induction node as [node IH] using node_ind_kids. intros H level index px py sc pa pid out.
  rewrite !calculatePositions_eq. cbv zeta.
  rewrite (hasChildren_agree c c' node)
    by (apply H; rewrite allNodes_eq; now left).
  destruct (hasChildren c' node); [|reflexivity].
  unfold forEach. apply forEachFrom_ext.
  rewrite Forall_forall in IH. apply Forall_forall. intros k Hk i s.
  apply IH; [assumption|]. intros n Hn. apply H. rewrite allNodes_eq. right.
  apply in_flat_map. exists k. split; [now apply list_elem_of_In | assumption].
Qed.

(** X5.  The layout looks at the collapsed set only through the ids of the
    nodes that have children: two sets that agree on those give the same
    nodes, positions and edges.  In particular, collapsing an id that belongs
    to no node with children (a leaf, or an id that is not in the tree)
    changes nothing. *)
Theorem layout_ignores_other_collapsed_ids :
  (forall c c' rootNode,
      (forall n, In n (allNodes rootNode) -> kids n <> [] ->
                 (id n ∈ c <-> id n ∈ c')) ->
      convertMindmapToFlow c rootNode = convertMindmapToFlow c' rootNode) /\
  (forall c rootNode x,
      (forall n, In n (allNodes rootNode) -> id n = x -> kids n = []) ->
      convertMindmapToFlow (c ∪ {[ x ]}) rootNode = convertMindmapToFlow c rootNode).
Proof.
  split.
  - intros c c' rootNode H. unfold convertMindmapToFlow.
    now apply calculatePositions_agree.
  - intros c rootNode x H. unfold convertMindmapToFlow.
    apply calculatePositions_agree. intros n Hn Hk.
    rewrite elem_of_union, elem_of_singleton. split; [|tauto].
    intros [Hc | E]; [assumption|]. exfalso. apply Hk. now apply H.
Qed.

(** X5 on the chain [r] - [a] - [b]: collapsing the leaf [b]. *)
Lemma layout_ignores_other_collapsed_ids_witness :
  convertMindmapToFlow (∅ ∪ {[ "b" ]}) chainRoot = convertMindmapToFlow ∅ chainRoot.
Proof.
  apply (proj2 layout_ignores_other_collapsed_ids ∅ chainRoot "b").
  intros n Hn E. simpl in Hn.
  destruct Hn as [<- | [<- | [<- | []]]]; try discriminate E. reflexivity.
Defined.

(** ** Collapsing and expanding by click *)

Lemma filterOut_appOut gone a b :
  filterOut gone (appOut a b) = appOut (filterOut gone a) (filterOut gone b).
Proof. unfold filterOut, appOut. simpl. now rewrite !List.filter_app. Qed.

Lemma keptFlowNode_true gone fn : keptFlowNode gone fn = true <-> ~ In (fn_id fn) gone.
Proof.
  unfold keptFlowNode. rewrite negb_true_iff. split.
  - intros H Hin. assert (existsb (String.eqb (fn_id fn)) gone = true); [|congruence].
    apply existsb_exists. exists (fn_id fn). split; [assumption | apply String.eqb_refl].
  - intros H. destruct (existsb (String.eqb (fn_id fn)) gone) eqn:E; [|reflexivity].
    apply existsb_exists in E as (x & Hx & Ex). apply String.eqb_eq in Ex.
    subst x. contradiction.
Qed.

Lemma keptFlowEdge_true gone e : keptFlowEdge gone e = true <-> ~ In (fe_target e) gone.
Proof.
  unfold keptFlowEdge. rewrite negb_true_iff. split.
  - intros H Hin. assert (existsb (String.eqb (fe_target e)) gone = true); [|congruence].
    apply existsb_exists. exists (fe_target e). split; [assumption | apply String.eqb_refl].
  - intros H. destruct (existsb (String.eqb (fe_target e)) gone) eqn:E; [|reflexivity].
    apply existsb_exists in E as (x & Hx & Ex). apply String.eqb_eq in Ex.
    subst x. contradiction.
Qed.

Lemma filter_all {A} (f : A -> bool) l :
  (forall a, In a l -> f a = true) -> List.filter f l = l.
Proof.
  induction l as [|a l IH]; simpl; intros H; [reflexivity|].
  rewrite (H a) by now left. f_equal. apply IH. intros b Hb. apply H. now right.
Qed.

Lemma filter_nothing {A} (f : A -> bool) l :
  (forall a, In a l -> f a = false) -> List.filter f l = [].
Proof.
  induction l as [|a l IH]; simpl; intros H; [reflexivity|].
  rewrite (H a) by now left. apply IH. intros b Hb. apply H. now right.
Qed.

(** Ids pushed by a call are ids of the subtree it was called on. *)
Lemma calculatePositions_within c node level index px py sc pa pid :
  (forall fn, In fn (fst (calculatePositions c node level index px py sc pa pid emptyOut)) ->
              In (fn_id fn) (allIds node)) /\
  (forall e, In e (snd (calculatePositions c node level index px py sc pa pid emptyOut)) ->
             In (fe_target e) (allIds node)).
Proof.
  split.
  - intros fn Hfn. apply (in_map fn_id) in Hfn.
    rewrite calculatePositions_ids in Hfn.
    apply in_map_iff in Hfn as (n & <- & Hn). now apply (visibleNodes_incl c).
  - intros e He. rewrite calculatePositions_edges in He.
    apply visibleEdges_ends in He as [Ht _].
    apply in_map_iff in Ht as (n & <- & Hn). now apply (visibleNodes_incl c).
Qed.

Lemma filterOut_all gone o :
  (forall fn, In fn (fst o) -> ~ In (fn_id fn) gone) ->
  (forall e, In e (snd o) -> ~ In (fe_target e) gone) ->
  filterOut gone o = o.
Proof.
  intros H1 H2. destruct o as [ns es]. unfold filterOut. simpl in *. f_equal.
  - apply filter_all. intros fn Hfn. apply keptFlowNode_true. auto.
  - apply filter_all. intros e He. apply keptFlowEdge_true. auto.
Qed.

Lemma filterOut_nothing gone o :
  (forall fn, In fn (fst o) -> In (fn_id fn) gone) ->
  (forall e, In e (snd o) -> In (fe_target e) gone) ->
  filterOut gone o = emptyOut.
Proof.
  intros H1 H2. destruct o as [ns es]. unfold filterOut, emptyOut. simpl in *. f_equal.
  - apply filter_nothing. intros fn Hfn.
    destruct (keptFlowNode gone fn) eqn:E; [|reflexivity].
    apply keptFlowNode_true in E. exfalso. auto.
  - apply filter_nothing. intros e He.
    destruct (keptFlowEdge gone e) eqn:E; [|reflexivity].
    apply keptFlowEdge_true in E. exfalso. auto.
Qed.

Lemma concatOutFrom_filterOut {A} gone (g g' : A -> nat -> Out) (l : list A) :
  (forall a, In a l -> forall i, g' a i = filterOut gone (g a i)) ->
  forall k, concatOutFrom g' l k = filterOut gone (concatOutFrom g l k).
Proof.
  induction l as [|a l IH]; intros H k; simpl; [reflexivity|].
  rewrite filterOut_appOut, (H a) by now left.
  f_equal; apply IH; intros b Hb; apply H; now right.
Qed.

Lemma ownOut_kept gone node level index px py sc pa pid :
  ~ In (id node) gone ->
  filterOut gone (ownOut node level index px py sc pa pid)
  = ownOut node level index px py sc pa pid.
Proof.
  intros H. apply filterOut_all.
  - intros fn [<- | []]. exact H.
  - unfold ownOut. simpl. destruct (truthy pid); [|contradiction].
    intros e [<- | []]. exact H.
Qed.

(** Adding the id of a node to the collapsed set removes its descendants from
    the layout and leaves everything else, positions included, as it was. *)
Lemma calculatePositions_collapse c p :
  forall t n,
    uniqueIds t -> nodeAt t p = Some n ->
    forall level index px py sc pa pid,
      calculatePositions (c ∪ {[ id n ]}) t level index px py sc pa pid emptyOut
      = filterOut (descendantIds n)
          (calculatePositions c t level index px py sc pa pid emptyOut).
Proof.
  induction p as [|i p IH]; intros t n Hu Hn level index px py sc pa pid;
    simpl in Hn.
  - injection Hn as <-. rewrite !calculatePositions_unfold, filterOut_appOut.
    pose proof (uniqueIds_inv _ Hu) as (Hself & _ & _).
    rewrite ownOut_kept by exact Hself.
    assert (Hc : hasChildren (c ∪ {[ id t ]}) t = false).
    { rewrite hasChildren_eq, bool_decide_eq_true_2 by set_solver.
      apply andb_false_r. }
    rewrite Hc. f_equal. symmetry.
    destruct (hasChildren c t); [|reflexivity].
    rewrite forEach_calc_concat. apply filterOut_nothing.
    + intros fn Hfn. apply concatOutFrom_fst_inv in Hfn as (j & k & Hj & Hfn).
      rewrite descendantIds_eq. apply in_flat_map. exists k.
      split; [eapply nth_error_In; eauto|].
      eapply (proj1 (calculatePositions_within _ _ _ _ _ _ _ _ _)); eauto.
    + intros e He. apply concatOutFrom_snd_inv in He as (j & k & Hj & He).
      rewrite descendantIds_eq. apply in_flat_map. exists k.
      split; [eapply nth_error_In; eauto|].
      eapply (proj2 (calculatePositions_within _ _ _ _ _ _ _ _ _)); eauto.
  - destruct (nth_error (kids t) i) as [k|] eqn:Ek; [|discriminate].
    pose proof (uniqueIds_inv _ Hu) as (Hself & Hkids & Hdisj).
    assert (Hnk : incl (allIds n) (allIds k)) by (eapply nodeAt_allIds; eauto).
    assert (Hdk : incl (descendantIds n) (allIds k)).
    { intros x Hx. apply Hnk. unfold descendantIds in Hx.
      destruct (allIds n); [contradiction | now right]. }
    assert (Hkt : forall x, In x (allIds k) -> In x (descendantIds t)).
    { intros x Hx. rewrite descendantIds_eq. apply in_flat_map. exists k.
      split; [eapply nth_error_In; eauto | assumption]. }
    assert (Hne : id t <> id n).
    { intros E. apply Hself, Hkt, Hnk. rewrite E. apply in_allIds_self. }
    rewrite !calculatePositions_unfold, filterOut_appOut.
    rewrite ownOut_kept by (intros H; apply Hself, Hkt, Hdk, H).
    rewrite (hasChildren_agree (c ∪ {[ id n ]}) c t)
      by (intros _; rewrite elem_of_union, elem_of_singleton; tauto).
    f_equal. destruct (hasChildren c t); [|reflexivity].
    rewrite !forEach_calc_concat. apply concatOutFrom_filterOut.
    intros k' Hk' j. apply In_nth_error in Hk' as (i' & Ei').
    destruct (Nat.eq_dec i' i) as [-> | Hii].
    + assert (k' = k) by congruence. subst k'.
      apply IH; [eapply uniqueIds_kid; eauto | assumption].
    + assert (Hout : forall x, In x (allIds k') -> ~ In x (allIds k)).
      { intros x Hx Hx'. apply Hii. eapply Hdisj; eauto. }
      rewrite (calculatePositions_agree (c ∪ {[ id n ]}) c k').
      * symmetry. apply filterOut_all.
        -- intros fn Hfn Hg. apply (Hout (fn_id fn)); [|now apply Hdk].
           eapply (proj1 (calculatePositions_within _ _ _ _ _ _ _ _ _)); eauto.
        -- intros e He Hg. apply (Hout (fe_target e)); [|now apply Hdk].
           eapply (proj2 (calculatePositions_within _ _ _ _ _ _ _ _ _)); eauto.
      * intros m Hm _. rewrite elem_of_union, elem_of_singleton.
        split; [|tauto]. intros [H | E]; [assumption|]. exfalso.
        apply (Hout (id m)); [now apply in_map|].
        rewrite E. apply Hnk, in_allIds_self.
Qed.

(** X6.  A click on a node with children, in a document with unique ids.  If
    the node was expanded, the layout after the click is the layout before
    without the node's descendants and the edges leading to them; if it was
    collapsed, the layout before is the layout after without them.  Either
    way every node that is shown before and after keeps its position. *)
Theorem click_hides_or_shows_descendants :
  forall st p n x y,
    uniqueIds (root (mindmapData st)) ->
    nodeAt (root (mindmapData st)) p = Some n ->
    kids n <> [] ->
    let before := convertMindmapToFlow (collapsedNodes st) (root (mindmapData st)) in
    let after :=
      convertMindmapToFlow (collapsedNodes (onNodeClick st (flowNodeOf n x y)))
        (root (mindmapData (onNodeClick st (flowNodeOf n x y)))) in
    (id n ∉ collapsedNodes st -> after = filterOut (descendantIds n) before) /\
    (id n ∈ collapsedNodes st -> before = filterOut (descendantIds n) after).
Proof.
  intros st p n x y Hu Hn Hk before after.
  assert (Hcol : collapsedNodes (onNodeClick st (flowNodeOf n x y))
                 = toggle (id n) (collapsedNodes st)).
  { unfold onNodeClick. simpl. unfold kids in Hk.
    destruct (children n) as [[|k ks]|]; try contradiction. reflexivity. }
  unfold before, after. rewrite Hcol.
  change (mindmapData (onNodeClick st (flowNodeOf n x y))) with (mindmapData st).
  unfold convertMindmapToFlow. change (@nil FlowNode, @nil FlowEdge) with emptyOut.
  split; intros Hin.
  - unfold toggle. rewrite bool_decide_eq_false_2 by assumption.
    now apply (calculatePositions_collapse _ p).
  - unfold toggle. rewrite bool_decide_eq_true_2 by assumption.
    rewrite <- (calculatePositions_collapse _ p _ n Hu Hn).
    apply calculatePositions_agree. intros m _ _.
    rewrite elem_of_union, elem_of_difference, elem_of_singleton.
    destruct (decide (id m = id n)) as [E | E]; [rewrite E|]; tauto.
Qed.

(** X6 on the chain [r] - [a] - [b]: clicking [a] in a fresh state. *)
Lemma click_hides_or_shows_descendants_witness :
  convertMindmapToFlow
    (collapsedNodes
       (onNodeClick (initialState chainRoot)
          (flowNodeOf (bare "a" (Some [bare "b" None])) 0 0)))
    chainRoot
  = filterOut ["b"] (convertMindmapToFlow ∅ chainRoot).
Proof.
  apply (proj1 (click_hides_or_shows_descendants (initialState chainRoot) [0]
                  (bare "a" (Some [bare "b" None])) 0%R 0%R
                  uniqueIds_chainRoot eq_refl ltac:(discriminate))).
  simpl. set_solver.
Defined.

(** ** Editing fields *)

Lemma concatOutFrom_map {A B} (g : B -> nat -> Out) (f : A -> B) (l : list A) :
  forall k, concatOutFrom g (map f l) k = concatOutFrom (fun a i => g (f a) i) l k.
Proof. induction l as [|a l IH]; intros k; simpl; [reflexivity|]. now rewrite IH. Qed.

Lemma concatOutFrom_same_placement {A} (g g' : A -> nat -> Out) (l : list A) :
  Forall (fun a => forall i, map placement (fst (g a i)) = map placement (fst (g' a i)) /\
                             snd (g a i) = snd (g' a i)) l ->
  forall k, map placement (fst (concatOutFrom g l k))
            = map placement (fst (concatOutFrom g' l k)) /\
            snd (concatOutFrom g l k) = snd (concatOutFrom g' l k).
Proof.
  induction 1 as [|a l Ha _ IH]; intros k; simpl; [split; reflexivity|].
  destruct (Ha k) as [H1 H2]. destruct (IH (S k)) as [H3 H4].
  rewrite !map_app, H1, H2, H3, H4. split; reflexivity.
Qed.

Lemma hasChildren_same c a b :
  id a = id b -> length (kids a) = length (kids b) ->
  hasChildren c a = hasChildren c b.
Proof. intros E L. rewrite !hasChildren_eq. now rewrite E, L. Qed.

Lemma ownOut_same a b level index px py sc pa pid :
  id a = id b ->
  map placement (fst (ownOut a level index px py sc pa pid))
  = map placement (fst (ownOut b level index px py sc pa pid)) /\
  snd (ownOut a level index px py sc pa pid)
  = snd (ownOut b level index px py sc pa pid).
Proof.
  intros E. unfold ownOut, flowEdgeOf, placement, flowNodeOf.
  cbn [fst snd map fn_id fn_position]. rewrite E. split; reflexivity.
Qed.

Section TextEdit.
Variables (c : gset string) (nodeId : string) (updates : Updates).
Hypothesis Hid : u_id updates = None.
Hypothesis Hch : u_children updates = None.

Lemma spread_same_shape t :
  id (spread t updates) = id t /\ kids (spread t updates) = kids t.
Proof. unfold spread, kids. simpl. rewrite Hid, Hch. split; reflexivity. Qed.

Lemma updateNodeInTree_same_placement t :
  forall level index px py sc pa pid,
    map placement
      (fst (calculatePositions c (updateNodeInTree nodeId updates t)
              level index px py sc pa pid emptyOut))
    = map placement
        (fst (calculatePositions c t level index px py sc pa pid emptyOut)) /\
    snd (calculatePositions c (updateNodeInTree nodeId updates t)
           level index px py sc pa pid emptyOut)
    = snd (calculatePositions c t level index px py sc pa pid emptyOut).
Proof.
  induction t as [t IH] using node_ind_kids. intros level index px py sc pa pid.
  rewrite updateNodeInTree_eq.
  destruct (String.eqb_spec (id t) nodeId) as [E | Hne].
  - destruct (spread_same_shape t) as [Ei Ek].
    rewrite !calculatePositions_unfold.
    rewrite (hasChildren_same c (spread t updates) t) by (now rewrite ?Ek).
    rewrite Ei, Ek.
    destruct (ownOut_same (spread t updates) t level index px py sc pa pid Ei)
      as [Ho1 Ho2].
    unfold appOut. cbn [fst snd]. rewrite !map_app, Ho1, Ho2. split; reflexivity.
  - pose proof (updateNodeInTree_other nodeId updates t Hne) as [Hf Hk].
    rewrite updateNodeInTree_eq in Hf, Hk.
    destruct (String.eqb_spec (id t) nodeId) as [|_]; [contradiction|].
    set (t' := match children t with
               | Some cs => withChildren t (map (updateNodeInTree nodeId updates) cs)
               | None => t
               end) in *.
    assert (Ei : id t' = id t) by (now apply ownFields_id).
    rewrite !calculatePositions_unfold, !forEach_calc_concat.
    rewrite (hasChildren_same c t' t) by (rewrite ?Hk, ?length_map; auto).
    rewrite Ei.
    destruct (ownOut_same t' t level index px py sc pa pid Ei) as [Ho1 Ho2].
    unfold appOut. cbn [fst snd].
    rewrite !map_app, Ho1, Ho2.
    destruct (hasChildren c t); [|split; reflexivity].
    rewrite Hk, length_map, concatOutFrom_map.
    destruct (concatOutFrom_same_placement
                (fun a i =>
                   calculatePositions c (updateNodeInTree nodeId updates a) (S level) i
                     (xOf level index px sc pa) (yOf level index py sc pa)
                     (length (kids t)) (angleOf level index sc pa) (Some (id t)) emptyOut)
                (fun a i =>
                   calculatePositions c a (S level) i
                     (xOf level index px sc pa) (yOf level index py sc pa)
                     (length (kids t)) (angleOf level index sc pa) (Some (id t)) emptyOut)
                (kids t)) with (k := 0) as [H1 H2].
    { eapply Forall_impl; [exact IH|]. intros a Ha i. apply Ha. }
    rewrite H1, H2. split; reflexivity.
Qed.
End TextEdit.

(** X7.  An update that supplies neither [id] nor [children] - every edit the
    side panel makes - leaves the ids of the tree, in document order, and the
    whole layout as they were: the same nodes at the same positions and the
    same edges, under any collapsed set.  Unique ids stay unique. *)
Theorem text_edits_keep_layout :
  (forall v, u_id (fieldUpdates v) = None /\ u_children (fieldUpdates v) = None) /\
  (forall st nodeId updates,
      u_id updates = None -> u_children updates = None ->
      let st' := handleUpdateNode st nodeId updates in
      map placement (fst (layoutOf st')) = map placement (fst (layoutOf st)) /\
      snd (layoutOf st') = snd (layoutOf st) /\
      allIds (root (mindmapData st')) = allIds (root (mindmapData st)) /\
      (uniqueIds (root (mindmapData st)) -> uniqueIds (root (mindmapData st')))).
Proof.
  split; [intros []; split; reflexivity|].
  intros st nodeId updates Hid Hch st'.
  assert (Hall : forall c,
             map placement
               (fst (convertMindmapToFlow c (root (mindmapData st'))))
             = map placement (fst (convertMindmapToFlow c (root (mindmapData st)))) /\
             snd (convertMindmapToFlow c (root (mindmapData st')))
             = snd (convertMindmapToFlow c (root (mindmapData st)))).
  { intros c. apply (updateNodeInTree_same_placement c nodeId updates Hid Hch). }
  assert (Hids : allIds (root (mindmapData st')) = allIds (root (mindmapData st))).
  { destruct (Hall ∅) as [H _].
    apply (f_equal (map fst)) in H. rewrite !map_map in H.
    change (map (fun x => fst (placement x))) with (map fn_id) in H.
    unfold convertMindmapToFlow in H.
    change (@nil FlowNode, @nil FlowEdge) with emptyOut in H.
    rewrite !calculatePositions_ids, !visibleNodes_empty in H. exact H. }
  split; [apply (Hall (collapsedNodes st))|].
  split; [apply (Hall (collapsedNodes st))|].
  split; [exact Hids|]. unfold uniqueIds. now rewrite Hids.
Qed.

(** X7 on the chain [r] - [a] - [b], relabelling [a]. *)
Lemma text_edits_keep_layout_witness :
  allIds (root (mindmapData (handleUpdateNode (initialState chainRoot) "a" relabel)))
  = allIds chainRoot.
Proof.
  destruct (proj2 text_edits_keep_layout (initialState chainRoot) "a" relabel
              eq_refl eq_refl) as (_ & _ & H & _).
  exact H.
Defined.

(** ** The earlier converter against the current one *)

Section LegacyFacts.
Variable c : gset string.

Lemma legacy_calculatePositions_eq node level index px py sc pid st :
  LegacyFlow.calculatePositions c node level index px py sc pid st =
  let x := Legacy.xOf level index px sc in
  let y := Legacy.yOf level index py sc in
  let st1 :=
    LegacyFlow.mkStore (LegacyFlow.nodes st ++ [flowNodeOf node x y])
      (LegacyFlow.edges st)
      (<[ id node := (x, y) ]> (LegacyFlow.nodePositions st)) in
  let st2 :=
    if truthy pid
    then LegacyFlow.mkStore (LegacyFlow.nodes st1)
           (LegacyFlow.edges st1 ++ [flowEdgeOf (default "" pid) node])
           (LegacyFlow.nodePositions st1)
    else st1 in
  if hasChildren c node
  then forEach
         (fun child childIndex s =>
            LegacyFlow.calculatePositions c child (S level) childIndex x y
              (length (kids node)) (Some (id node)) s)
         (kids node) st2
  else st2.
Proof. destruct node as [i l s d m [cs|] co p]; reflexivity. Qed.

Lemma legacy_forEachFrom (f : MindmapNode -> nat -> LegacyFlow.Store -> LegacyFlow.Store)
    (pid : option string) (l : list MindmapNode) :
  Forall (fun k => forall i s,
            map (fun fn => nd_originalNode (fn_data fn)) (LegacyFlow.nodes (f k i s))
            = map (fun fn => nd_originalNode (fn_data fn)) (LegacyFlow.nodes s)
              ++ visibleNodes c k /\
            LegacyFlow.edges (f k i s) = LegacyFlow.edges s ++ visibleEdges c pid k) l ->
  forall k0 s,
    map (fun fn => nd_originalNode (fn_data fn))
      (LegacyFlow.nodes (forEachFrom f l k0 s))
    = map (fun fn => nd_originalNode (fn_data fn)) (LegacyFlow.nodes s)
      ++ flat_map (visibleNodes c) l /\
    LegacyFlow.edges (forEachFrom f l k0 s)
    = LegacyFlow.edges s ++ flat_map (visibleEdges c pid) l.
Proof.
  induction 1 as [|k l Hk _ IH]; intros k0 s; simpl.
  - now rewrite !app_nil_r.
  - destruct (IH (S k0) (f k k0 s)) as [H1 H2]. destruct (Hk k0 s) as [H3 H4].
    rewrite H1, H2, H3, H4, <- !app_assoc. split; reflexivity.
Qed.

Lemma legacy_calculatePositions_spec node :
  forall level index px py sc pid st,
    map (fun fn => nd_originalNode (fn_data fn))
      (LegacyFlow.nodes (LegacyFlow.calculatePositions c node level index px py sc pid st))
    = map (fun fn => nd_originalNode (fn_data fn)) (LegacyFlow.nodes st)
      ++ visibleNodes c node /\
    LegacyFlow.edges (LegacyFlow.calculatePositions c node level index px py sc pid st)
    = LegacyFlow.edges st ++ visibleEdges c pid node.
Proof.
  induction node as [node IH] using node_ind_kids. intros level index px py sc pid st.
  rewrite legacy_calculatePositions_eq, visibleNodes_eq, visibleEdges_eq. cbv zeta.
  destruct (hasChildren c node).
  - unfold forEach.
    match goal with
    | |- context [forEachFrom ?f (kids node) 0 ?st2] =>
        destruct (legacy_forEachFrom f (Some (id node)) (kids node)) with (k0 := 0) (s := st2)
          as [H1 H2]
    end.
    { eapply Forall_impl; [exact IH|]. intros k Hk i s. apply Hk. }
    rewrite H1, H2. destruct (truthy pid); simpl;
      rewrite ?map_app, <- ?app_assoc; simpl; split; reflexivity.
  - destruct (truthy pid); simpl; rewrite ?map_app, ?app_nil_r; simpl;
      split; reflexivity.
Qed.
End LegacyFacts.

(** X8.  The earlier converter and the current one push nodes for the same
    tree nodes in the same order, and the very same edges, under every
    collapsed set; they differ in positions only. *)
Theorem legacy_converter_same_nodes_and_edges :
  forall collapsedNodes rootNode,
    map (fun fn => nd_originalNode (fn_data fn))
      (fst (LegacyFlow.convertMindmapToFlow collapsedNodes rootNode))
    = map (fun fn => nd_originalNode (fn_data fn))
        (fst (convertMindmapToFlow collapsedNodes rootNode)) /\
    snd (LegacyFlow.convertMindmapToFlow collapsedNodes rootNode)
    = snd (convertMindmapToFlow collapsedNodes rootNode).
Proof.
  intros collapsedNodes rootNode.
  destruct (legacy_calculatePositions_spec collapsedNodes rootNode 0 0 0%R 0%R 1 None
              LegacyFlow.emptyStore) as [H1 H2].
  unfold LegacyFlow.convertMindmapToFlow. cbv zeta. cbn [fst snd].
  rewrite H1, H2, convertMindmapToFlow_edges. split; [|reflexivity].
  unfold convertMindmapToFlow. change (@nil FlowNode, @nil FlowEdge) with emptyOut.
  now rewrite calculatePositions_nodes.
Qed.

(** ** Lookups *)

Lemma find_first_split {A} (f : A -> bool) l a :
  find f l = Some a ->
  exists l1 l2, l = l1 ++ a :: l2 /\ f a = true /\ forall b, In b l1 -> f b = false.
Proof.
  induction l as [|b l IH]; simpl; [discriminate|].
  destruct (f b) eqn:E.
  - intros [= ->]. exists [], l. split; [reflexivity|]. split; [assumption|].
    intros ? [].
  - intros H. destruct (IH H) as (l1 & l2 & -> & Ha & Hl1).
    exists (b :: l1), l2. split; [reflexivity|]. split; [assumption|].
    intros b' [<- | Hb']; auto.
Qed.

(** X9.  [findNode] returns a node of the tree that has the id asked for,
    and the first such node in document order; it returns [null] exactly when
    no node has that id. *)
Theorem findNode_first_match :
  forall tree nodeId,
    (forall n, findNode nodeId tree = Some n ->
               id n = nodeId /\
               exists before after,
                 allNodes tree = before ++ n :: after /\
                 forall m, In m before -> id m <> nodeId) /\
    (findNode nodeId tree = None <-> ~ In nodeId (allIds tree)).
Proof.
  intros tree nodeId. rewrite findNode_find. split.
  - intros n Hn. apply find_first_split in Hn as (l1 & l2 & E & Hid & Hl1).
    apply String.eqb_eq in Hid. split; [assumption|].
    exists l1, l2. split; [assumption|]. intros m Hm.
    apply String.eqb_neq. now apply Hl1.
  - split.
    + intros Hnone Hin. apply in_map_iff in Hin as (n & E & Hn).
      apply (find_none _ _ Hnone) in Hn. unfold hasId in Hn.
      apply String.eqb_neq in Hn. contradiction.
    + apply find_none_id.
Qed.

(** X9 on the chain [r] - [a] - [b]. *)
Lemma findNode_first_match_witness :
  id (bare "b" None) = "b" /\ findNode "z" chainRoot = None.
Proof.
  split.
  - apply (proj1 (findNode_first_match chainRoot "b") (bare "b" None)). reflexivity.
  - apply (proj2 (findNode_first_match chainRoot "z")).
    simpl. intuition discriminate.
Defined.

Lemma firstFound_first {A B} (f : A -> option B) (P : A -> Prop) (Q : A -> B -> Prop)
    (l : list A) :
  (forall a, In a l -> {P a} + {~ P a}) ->
  (forall a, In a l -> P a -> exists b, f a = Some b /\ Q a b) ->
  (forall a, In a l -> ~ P a -> f a = None) ->
  (exists a, In a l /\ P a) ->
  exists a b, In a l /\ firstFound f l = Some b /\ Q a b.
Proof.
  induction l as [|a l IH]; intros Hdec Hyes Hno (a0 & Hin & Hp); [contradiction|].
  simpl. destruct (Hdec a (or_introl eq_refl)) as [Pa | Pa].
  - destruct (Hyes a (or_introl eq_refl) Pa) as (b & -> & Hq).
    exists a, b. split; [now left|]. split; [reflexivity | assumption].
  - rewrite (Hno a (or_introl eq_refl) Pa).
    destruct IH as (a1 & b & H1 & H2 & H3).
    + intros x Hx. apply Hdec. now right.
    + intros x Hx. apply Hyes. now right.
    + intros x Hx. apply Hno. now right.
    + destruct Hin as [<- | Hin]; [contradiction|]. eauto.
    + exists a1, b. split; [now right|]. split; assumption.
Qed.

(** What [findParent] returns on a node that is not the target. *)
Lemma findParent_below target cur :
  forall par,
    id cur <> target -> In target (descendantIds cur) ->
    exists q child,
      findParent cur target par = Some q /\
      In q (allNodes cur) /\ In child (kids q) /\ id child = target.
Proof.
  induction cur as [cur IH] using node_ind_kids. intros par Hne Hin.
  rewrite findParent_eq.
  destruct (String.eqb_spec (id cur) target) as [|_]; [contradiction|].
  rewrite descendantIds_eq in Hin. apply in_flat_map in Hin as (k0 & Hk0 & Hin0).
  rewrite Forall_forall in IH.
  destruct (firstFound_first
              (fun k => findParent k target (Some cur))
              (fun k => In target (allIds k))
              (fun k q => exists child, In q (allNodes cur) /\ In child (kids q)
                                        /\ id child = target)
              (kids cur)) as (k & q & Hk & Hq & child & H1 & H2 & H3).
  - intros k _. apply in_dec, String.string_dec.
  - intros k Hk Hink. destruct (String.eqb_spec (id k) target) as [E | E].
    + exists cur. rewrite findParent_eq, (proj2 (String.eqb_eq _ _) E).
      split; [reflexivity|]. exists k. split; [rewrite allNodes_eq; now left|].
      split; assumption.
    + destruct (IH k (proj2 (list_elem_of_In _ _) Hk) (Some cur) E)
        as (q & child & Hq & Hqk & Hc & Hid).
      { rewrite allIds_eq in Hink. destruct Hink as [|Hink]; [contradiction|].
        now rewrite descendantIds_eq. }
      exists q. split; [assumption|]. exists child.
      split; [|split; assumption].
      rewrite allNodes_eq. right. apply in_flat_map. eauto.
  - intros k _ Hnk. now apply findParent_absent.
  - eauto.
  - exists q, child. auto.
Qed.

(** X10.  [findParent(root, id)] returns [null] exactly when the root itself
    has the id or no node has it; otherwise it returns a node of the tree one
    of whose children has the id.  No assumption on the ids is needed. *)
Theorem findParent_returns_a_parent :
  forall tree target,
    (findParent tree target None = None <->
     id tree = target \/ ~ In target (allIds tree)) /\
    (forall q, findParent tree target None = Some q ->
               In q (allNodes tree) /\
               exists child, In child (kids q) /\ id child = target).
Proof.
  intros tree target.
  destruct (String.eqb_spec (id tree) target) as [E | Hne].
  - assert (H : findParent tree target None = None).
    { rewrite findParent_eq. now rewrite (proj2 (String.eqb_eq _ _) E). }
    rewrite H. split; [tauto | discriminate].
  - destruct (in_dec String.string_dec target (descendantIds tree)) as [Hin | Hnin].
    + destruct (findParent_below target tree None Hne Hin)
        as (q & child & Hq & H1 & H2 & H3).
      rewrite Hq. split.
      * split; [discriminate|]. intros [|Habs]; [contradiction|].
        exfalso. apply Habs. rewrite allIds_eq. right. now rewrite <- descendantIds_eq.
      * intros q' [= <-]. eauto.
    + assert (Habs : ~ In target (allIds tree)).
      { rewrite allIds_eq, <- descendantIds_eq. intros [|]; contradiction. }
      rewrite (findParent_absent tree target None Habs).
      split; [tauto | discriminate].
Qed.

(** X10 on the chain [r] - [a] - [b]. *)
Lemma findParent_returns_a_parent_witness :
  exists child, In child (kids (bare "a" (Some [bare "b" None]))) /\ id child = "b".
Proof.
  apply (proj2 (findParent_returns_a_parent chainRoot "b")
           (bare "a" (Some [bare "b" None]))).
  reflexivity.
Defined.

(** ** Updating twice *)

Lemma spread_idempotent n updates :
  spread (spread n updates) updates = spread n updates.
Proof.
  destruct updates as [[?|] [?|] [?|] [?|] [?|] [?|] [?|] [?|]]; reflexivity.
Qed.

(** X11.  Applying the same update twice gives the same tree as applying it
    once, whenever the update leaves the id alone (it supplies no [id], or
    the id the node already has). *)
Theorem updateNodeInTree_idempotent :
  forall nodeId updates tree,
    u_id updates = None \/ u_id updates = Some nodeId ->
    updateNodeInTree nodeId updates (updateNodeInTree nodeId updates tree)
    = updateNodeInTree nodeId updates tree.
Proof.
  intros nodeId updates tree Hid.
  induction tree as [tree IH] using node_ind_kids.
  rewrite (updateNodeInTree_eq nodeId updates tree).
  destruct (String.eqb_spec (id tree) nodeId) as [E | Hne].
  - rewrite updateNodeInTree_eq.
    assert (Ei : id (spread tree updates) = nodeId).
    { unfold spread. simpl. destruct Hid as [-> | ->]; simpl; congruence. }
    rewrite (proj2 (String.eqb_eq _ _) Ei). apply spread_idempotent.
  - assert (Hk : kids tree = match children tree with Some cs => cs | None => [] end)
      by reflexivity.
    destruct (children tree) as [cs|] eqn:Ec.
    + rewrite updateNodeInTree_eq. cbn [id withChildren children].
      destruct (String.eqb_spec (id tree) nodeId) as [|_]; [contradiction|].
      unfold withChildren. cbn. do 2 f_equal. rewrite map_map.
      rewrite Hk in IH. clear Hk Ec.
      induction IH as [|k ks Hk _ IHks]; simpl; [reflexivity|].
      now rewrite Hk, IHks.
    + rewrite updateNodeInTree_eq, Ec.
      now destruct (String.eqb_spec (id tree) nodeId).
Qed.

(** X11 on the chain [r] - [a] - [b], relabelling [a] twice. *)
Lemma updateNodeInTree_idempotent_witness :
  updateNodeInTree "a" relabel (updateNodeInTree "a" relabel chainRoot)
  = updateNodeInTree "a" relabel chainRoot.
Proof.
  apply updateNodeInTree_idempotent. left. reflexivity.
Defined.

(** ** Adding a child *)

Lemma nodeAt_in_allNodes p : forall t n, nodeAt t p = Some n -> In n (allNodes t).
Proof.
  induction p as [|i p IH]; intros t n H; simpl in H.
  - injection H as <-. rewrite allNodes_eq. now left.
  - destruct (nth_error (kids t) i) as [k|] eqn:E; [|discriminate].
    rewrite allNodes_eq. right. apply in_flat_map. exists k.
    split; [eapply nth_error_In; eauto | now apply IH].
Qed.

Lemma handleAddChildNode_found st parentNode now :
  findNode (id parentNode) (root (mindmapData st)) = Some parentNode ->
  handleAddChildNode st (id parentNode) now
  = mkState (collapsedNodes st ∖ {[ id parentNode ]})
      (Some (id (newChildNode (id parentNode) now)))
      (hoveredNodeId st) (highlightedNodes st)
      (setRoot (mindmapData st)
         (updateNodeInTree (id parentNode)
            (appendChild parentNode (newChildNode (id parentNode) now))
            (root (mindmapData st))))
      (showSidePanel st) (searchQuery st).
Proof. intros H. unfold handleAddChildNode. rewrite H. reflexivity. Qed.

Section AddChild.
Variables (parentNode newNode : MindmapNode).

Lemma onlyParent_kid t k : onlyParent parentNode t -> In k (kids t) -> onlyParent parentNode k.
Proof.
  intros H Hk m Hm. apply H. rewrite allNodes_eq. right. apply in_flat_map. eauto.
Qed.

Lemma spread_appendChild t :
  id t = id parentNode -> kids t = kids parentNode ->
  ownFields (spread t (appendChild parentNode newNode)) = ownFields t /\
  kids (spread t (appendChild parentNode newNode)) = kids t ++ [newNode].
Proof. intros _ Hk. unfold kids, spread in *. simpl. rewrite Hk. split; reflexivity. Qed.

(** The nodes that were there stay where they are, with their own fields. *)
Lemma appendChild_keeps q :
  forall t n',
    onlyParent parentNode t -> nodeAt t q = Some n' ->
    option_map ownFields (nodeAt (addChildTo parentNode newNode t) q) = Some (ownFields n').
Proof.
  induction q as [|i q IH]; intros t n' Hp Hn; unfold addChildTo in *.
  - injection Hn as <-. simpl. f_equal. rewrite updateNodeInTree_eq.
    destruct (String.eqb_spec (id t) (id parentNode)) as [E | Hne].
    + apply spread_appendChild; [assumption|].
      apply Hp; [rewrite allNodes_eq; now left | assumption].
    + now destruct (children t).
  - simpl in Hn. destruct (nth_error (kids t) i) as [k|] eqn:Ek; [|discriminate].
    destruct (String.eqb_spec (id t) (id parentNode)) as [E | Hne].
    + rewrite updateNodeInTree_eq, (proj2 (String.eqb_eq _ _) E).
      destruct (spread_appendChild t E) as [_ Hk].
      { apply Hp; [rewrite allNodes_eq; now left | assumption]. }
      simpl. rewrite Hk, nth_error_app1 by (eapply nth_error_lt; eauto).
      rewrite Ek, Hn. reflexivity.
    + rewrite nodeAt_cons_update, Ek by assumption.
      apply IH; [|assumption]. eapply onlyParent_kid; eauto.
      eapply nth_error_In; eauto.
Qed.

Hypothesis HnewIds : allIds newNode = [id newNode].

Lemma map_upd_absent (l : list MindmapNode) :
  (forall k, In k l -> ~ In (id parentNode) (allIds k)) -> map (addChildTo parentNode newNode) l = l.
Proof.
  induction l as [|k l IH]; simpl; intros H; [reflexivity|].
  unfold addChildTo at 1. rewrite updateNodeInTree_absent by (apply H; now left).
  f_equal. apply IH. intros k' Hk'. apply H. now right.
Qed.

Lemma appendChild_kids_perm (l : list MindmapNode) :
  Forall (fun k => uniqueIds k -> onlyParent parentNode k -> In (id parentNode) (allIds k) ->
                   Permutation (allIds (addChildTo parentNode newNode k)) (id newNode :: allIds k)) l ->
  Forall uniqueIds l -> (forall k, In k l -> onlyParent parentNode k) ->
  NoDup (flat_map allIds l) ->
  (exists k, In k l /\ In (id parentNode) (allIds k)) ->
  Permutation (flat_map allIds (map (addChildTo parentNode newNode) l)) (id newNode :: flat_map allIds l).
Proof.
  induction 1 as [|k l Hk _ IH]; intros Hu Hp Hnd (k0 & Hin & Hk0); [contradiction|].
  apply Forall_cons in Hu as [Huk Hul]. simpl in Hnd.
  apply NoDup_app in Hnd as (_ & Hdisj & Hndl). simpl.
  destruct (in_dec String.string_dec (id parentNode) (allIds k)) as [Hpk | Hpk].
  - rewrite map_upd_absent.
    + change (id newNode :: allIds k ++ flat_map allIds l)
        with ((id newNode :: allIds k) ++ flat_map allIds l).
      apply (Permutation_app_tail (flat_map allIds l)).
      apply Hk; auto. apply Hp. now left.
    + intros k' Hk' Hin'. apply (Hdisj (id parentNode)).
      * now apply list_elem_of_In.
      * apply list_elem_of_In, in_flat_map. eauto.
  - unfold addChildTo at 1. rewrite updateNodeInTree_absent by assumption.
    destruct Hin as [<- | Hin]; [contradiction|].
    etransitivity.
    + apply Permutation_app_head. apply IH; eauto.
      intros k' Hk'. apply Hp. now right.
    + symmetry. apply Permutation_middle.
Qed.

(** The ids after the update are the ids before, plus the new one. *)
Lemma appendChild_ids_perm t :
  uniqueIds t -> onlyParent parentNode t -> In (id parentNode) (allIds t) ->
  Permutation (allIds (addChildTo parentNode newNode t)) (id newNode :: allIds t).
Proof.
  induction t as [t IH] using node_ind_kids. intros Hu Hp Hin.
  unfold addChildTo. rewrite updateNodeInTree_eq.
  destruct (String.eqb_spec (id t) (id parentNode)) as [E | Hne].
  - destruct (spread_appendChild t E) as [Hf Hk].
    { apply Hp; [rewrite allNodes_eq; now left | assumption]. }
    rewrite (allIds_eq (spread _ _)), Hk, (ownFields_id _ _ Hf), flat_map_app.
    simpl. rewrite HnewIds, app_nil_r, (allIds_eq t).
    symmetry. apply (Permutation_cons_append (id t :: flat_map allIds (kids t))).
  - pose proof (updateNodeInTree_other (id parentNode) (appendChild parentNode newNode)
                  t Hne) as [Hf Hk].
    rewrite updateNodeInTree_eq in Hf, Hk.
    destruct (String.eqb_spec (id t) (id parentNode)) as [|_]; [contradiction|].
    rewrite allIds_eq, Hk, (ownFields_id _ _ Hf), (allIds_eq t).
    pose proof (uniqueIds_inv _ Hu) as (_ & Hkids & _).
    etransitivity; [|apply perm_swap]. apply perm_skip.
    apply appendChild_kids_perm; auto.
    + intros k Hk'. eapply onlyParent_kid; eauto.
    + unfold uniqueIds in Hu. rewrite allIds_eq in Hu. now apply NoDup_cons in Hu.
    + rewrite allIds_eq in Hin. destruct Hin as [|Hin]; [contradiction|].
      apply in_flat_map in Hin. exact Hin.
Qed.
End AddChild.

Lemma onlyParent_unique t p parentNode :
  uniqueIds t -> nodeAt t p = Some parentNode -> onlyParent parentNode t.
Proof.
  intros Hu Hp m Hm E.
  pose proof (findNode_unique t m Hu Hm) as H1.
  pose proof (findNode_unique t parentNode Hu (nodeAt_in_allNodes _ _ _ Hp)) as H2.
  rewrite E, H2 in H1. now injection H1 as ->.
Qed.

Lemma nodeAt_prefix t q r n :
  nodeAt t (q ++ r) = Some n -> exists m, nodeAt t q = Some m.
Proof.
  rewrite nodeAt_app. destruct (nodeAt t q) as [m|]; [eauto | discriminate].
Qed.

(** X12.  [handleAddChildNode] on an id that is not in the tree leaves the
    state as it is.  On the id of a node of a tree with unique ids it appends
    one new node, with the generated id, as the last child of that node;
    every other node stays at its place with its own fields; the ids of the
    new tree are the old ones plus the new one, so they are unique when the
    new id is fresh; the new node is selected, the parent is taken out of the
    collapsed set and nothing else is, and the new node is laid out whenever
    no proper ancestor of the parent is collapsed. *)
Theorem handleAddChildNode_appends_child :
  (forall st parentId now,
      findNode parentId (root (mindmapData st)) = None ->
      handleAddChildNode st parentId now = st) /\
  (forall st p parentNode now,
      uniqueIds (root (mindmapData st)) ->
      nodeAt (root (mindmapData st)) p = Some parentNode ->
      let newNode := newChildNode (id parentNode) now in
      let st' := handleAddChildNode st (id parentNode) now in
      id newNode = (id parentNode ++ "-child-" ++ now)%string /\
      nodeAt (root (mindmapData st')) (p ++ [length (kids parentNode)]) = Some newNode /\
      (forall q n', nodeAt (root (mindmapData st)) q = Some n' ->
                    option_map ownFields (nodeAt (root (mindmapData st')) q)
                    = Some (ownFields n')) /\
      Permutation (allIds (root (mindmapData st')))
        (id newNode :: allIds (root (mindmapData st))) /\
      (~ In (id newNode) (allIds (root (mindmapData st))) ->
       uniqueIds (root (mindmapData st'))) /\
      selectedNodeId st' = Some (id newNode) /\
      collapsedNodes st' = collapsedNodes st ∖ {[ id parentNode ]} /\
      (ancestorsExpanded (collapsedNodes st) (root (mindmapData st)) p ->
       nodePositioned (collapsedNodes st') (root (mindmapData st')) newNode)).
Proof.
  split.
  { intros st parentId now H. unfold handleAddChildNode. now rewrite H. }
  intros st p parentNode now Hu Hp newNode st'.
  assert (Hfind : findNode (id parentNode) (root (mindmapData st)) = Some parentNode).
  { apply findNode_unique; [assumption | eapply nodeAt_in_allNodes; eauto]. }
  assert (Hst : st' = mkState (collapsedNodes st ∖ {[ id parentNode ]})
                        (Some (id newNode)) (hoveredNodeId st) (highlightedNodes st)
                        (setRoot (mindmapData st)
                           (addChildTo parentNode newNode (root (mindmapData st))))
                        (showSidePanel st) (searchQuery st)).
  { unfold st'. now rewrite handleAddChildNode_found. }
  assert (Honly : onlyParent parentNode (root (mindmapData st))).
  { eapply onlyParent_unique; eauto. }
  assert (Hkeep : forall q n', nodeAt (root (mindmapData st)) q = Some n' ->
                    option_map ownFields
                      (nodeAt (addChildTo parentNode newNode (root (mindmapData st))) q)
                    = Some (ownFields n')).
  { intros q n'. now apply appendChild_keeps. }
  assert (Hnew : nodeAt (addChildTo parentNode newNode (root (mindmapData st)))
                   (p ++ [length (kids parentNode)]) = Some newNode).
  { rewrite nodeAt_app. unfold addChildTo.
    rewrite (updateNodeInTree_match _ _ p _ parentNode Hu Hp eq_refl).
    destruct (spread_appendChild parentNode newNode parentNode eq_refl eq_refl)
      as [_ Hk].
    simpl. rewrite Hk, nth_error_app2, Nat.sub_diag by lia. reflexivity. }
  assert (Hperm : Permutation
                    (allIds (addChildTo parentNode newNode (root (mindmapData st))))
                    (id newNode :: allIds (root (mindmapData st)))).
  { apply appendChild_ids_perm; auto.
    eapply nodeAt_allIds; [exact Hp | apply in_allIds_self]. }
  rewrite Hst. cbn [mindmapData root setRoot selectedNodeId collapsedNodes].
  split; [reflexivity|]. split; [exact Hnew|]. split; [exact Hkeep|].
  split; [exact Hperm|]. split.
  { intros Hfresh. unfold uniqueIds. rewrite Hperm.
    apply NoDup_cons. split; [|exact Hu].
    intros Hin. apply Hfresh. now apply list_elem_of_In. }
  split; [reflexivity|]. split; [reflexivity|].
  intros Hanc.
  destruct (Visit_of_path (collapsedNodes st ∖ {[ id parentNode ]})
              (addChildTo parentNode newNode (root (mindmapData st)))
              (p ++ [length (kids parentNode)]) newNode Hnew)
    as (level & index & px & py & sc & pa & pid & HV & _).
  - intros q r m E Hr Hq.
    destruct (exists_last Hr) as (r' & x & ->).
    rewrite app_assoc in E. apply app_inj_tail in E as [E _].
    rewrite E in Hp. destruct (nodeAt_prefix _ _ _ _ Hp) as (m0 & Hm0).
    pose proof (Hkeep q m0 Hm0) as Hf. rewrite Hq in Hf. simpl in Hf.
    assert (Hf' : ownFields m = ownFields m0) by congruence.
    clear Hf. apply ownFields_id in Hf'. rename Hf' into Hf.
    rewrite elem_of_difference, elem_of_singleton. intros [Hc Hne].
    destruct r' as [|y r'].
    + rewrite app_nil_r in Hp. rewrite Hp in Hm0. injection Hm0 as <-.
      now apply Hne.
    + apply (Hanc q (y :: r') m0); [assumption | discriminate | assumption |].
      now rewrite <- Hf.
  - do 2 eexists. exact (Visit_node _ _ _ _ _ _ _ _ _ _ HV).
Qed.

(** X12 on the chain [r] - [a] - [b]: a child is added to [a]. *)
Lemma handleAddChildNode_appends_child_witness :
  nodeAt (root (mindmapData (handleAddChildNode (initialState chainRoot) "a" "17")))
    [0; 1]
  = Some (newChildNode "a" "17")
  /\ uniqueIds (root (mindmapData (handleAddChildNode (initialState chainRoot) "a" "17"))).
Proof.
  destruct (proj2 handleAddChildNode_appends_child (initialState chainRoot) [0]
              (bare "a" (Some [bare "b" None])) "17" uniqueIds_chainRoot eq_refl)
    as (_ & H2 & _ & _ & H5 & _).
  split; [exact H2|]. apply H5. simpl. intuition discriminate.
Defined.

(** ** Deleting, then laying out *)

Lemma layout_ids_within c rootNode :
  (forall i, In i (map fn_id (fst (convertMindmapToFlow c rootNode))) ->
             In i (allIds rootNode)) /\
  (forall i, In i (map fe_source (snd (convertMindmapToFlow c rootNode))) ->
             In i (allIds rootNode)) /\
  (forall i, In i (map fe_target (snd (convertMindmapToFlow c rootNode))) ->
             In i (allIds rootNode)).
Proof.
  rewrite convertMindmapToFlow_ids, convertMindmapToFlow_edges.
  assert (Hv : forall i, In i (map id (visibleNodes c rootNode)) -> In i (allIds rootNode)).
  { intros i Hi. apply in_map_iff in Hi as (n & <- & Hn). now apply (visibleNodes_incl c). }
  split; [exact Hv|]. split; intros i Hi; apply in_map_iff in Hi as (e & <- & He);
    destruct (visibleEdges_ends c rootNode None e He) as [Ht Hs].
  - destruct Hs as [Hs | Hs]; [now apply Hv | discriminate].
  - now apply Hv.
Qed.

Lemma setRoot_same d : setRoot d (root d) = d.
Proof. now destruct d. Qed.

(** X13.  Deleting a node other than the root from a tree with unique ids
    leaves a tree with unique ids in which none of the ids of the deleted
    subtree is laid out, as a node or as an end of an edge, whatever the
    collapsed set; the collapsed set itself is left as it was, stale ids
    included.  When the id is not in the tree the document is unchanged. *)
Theorem delete_then_layout :
  forall st nodeId,
    uniqueIds (root (mindmapData st)) ->
    nodeId <> id (root (mindmapData st)) ->
    let st' := handleDeleteNode st nodeId in
    uniqueIds (root (mindmapData st')) /\
    (forall c i,
        In i (subtreeIds (root (mindmapData st)) nodeId) ->
        ~ In i (map fn_id (fst (convertMindmapToFlow c (root (mindmapData st'))))) /\
        ~ In i (map fe_source (snd (convertMindmapToFlow c (root (mindmapData st'))))) /\
        ~ In i (map fe_target (snd (convertMindmapToFlow c (root (mindmapData st')))))) /\
    collapsedNodes st' = collapsedNodes st /\
    (~ In nodeId (allIds (root (mindmapData st))) -> mindmapData st' = mindmapData st).
Proof.
  intros st nodeId Hu Hne st'.
  destruct (deleteNodeFromTree_nodes (root (mindmapData st)) nodeId Hu)
    as (tree' & Hdel & Hnodes); [congruence|].
  assert (Hst : st' = mkState (collapsedNodes st) None (hoveredNodeId st) ∅
                        (setRoot (mindmapData st) tree') false (searchQuery st)).
  { unfold st', handleDeleteNode.
    destruct (String.eqb_spec nodeId (id (root (mindmapData st)))) as [|_];
      [contradiction|].
    now rewrite Hdel. }
  rewrite Hst. cbn [mindmapData root setRoot collapsedNodes].
  assert (Hids : allIds tree'
                 = map id (List.filter (kept (subtreeIds (root (mindmapData st)) nodeId))
                             (allNodes (root (mindmapData st))))).
  { unfold allIds. now apply map_ownFields_ids. }
  split; [|split; [|split]].
  - unfold uniqueIds. rewrite Hids. now apply NoDup_map_filter.
  - intros c i Hi.
    assert (Hout : ~ In i (allIds tree')).
    { rewrite Hids. intros Hin. apply in_map_iff in Hin as (n & <- & Hn).
      apply filter_In in Hn as [_ Hn]. apply kept_true in Hn. contradiction. }
    destruct (layout_ids_within c tree') as (H1 & H2 & H3).
    split; [|split]; intros Hin; apply Hout; auto.
  - reflexivity.
  - intros Habs. rewrite (deleteNodeFromTree_absent _ _ Habs) in Hdel.
    injection Hdel as <-. apply setRoot_same.
Qed.

(** X13 on the chain [r] - [a] - [b], deleting [a]. *)
Lemma delete_then_layout_witness :
  ~ In "b"
      (map fn_id
         (fst (convertMindmapToFlow ∅
                 (root (mindmapData (handleDeleteNode (initialState chainRoot) "a")))))).
Proof.
  destruct (delete_then_layout (initialState chainRoot) "a" uniqueIds_chainRoot)
    as (_ & H & _); [discriminate|].
  apply (H ∅ "b"). simpl. auto.
Defined.

(** ** Clicking twice, hovering *)

Lemma toggle_toggle x (s : gset string) : toggle x (toggle x s) = s.
Proof.
  apply set_eq. intros j. rewrite !toggle_spec.
  destruct (decide (j = x)) as [-> | Hne]; destruct (decide (x ∈ s)); tauto.
Qed.



Lemma isSelected_true sel h : isSelected sel h = true <-> sel = Some h.
Proof.
  destruct sel as [s|]; simpl; [|split; discriminate].
  rewrite String.eqb_eq. split; congruence.
Qed.

(** X15.  The tooltip, when there is one, is for the hovered id, which is not
    empty and belongs to a node of the tree, and it is never for the node
    whose panel is open.  Hence clicking the hovered node removes its
    tooltip, leaving the node removes it, and hovering a node of a tree with
    unique ids that is not shown in the panel shows that node. *)
Theorem hoverTooltip_rules :
  (forall st node,
      hoverTooltip st = Some node ->
      hoveredNodeId st = Some (id node) /\ id node <> "" /\
      In node (allNodes (root (mindmapData st))) /\
      ~ (selectedNodeId st = Some (id node) /\ showSidePanel st = true)) /\
  (forall st fn,
      hoverTooltip (onNodeClick (onNodeMouseEnter st fn) fn) = None) /\
  (forall st, hoverTooltip (onNodeMouseLeave st) = None) /\
  (forall st n x y,
      uniqueIds (root (mindmapData st)) ->
      In n (allNodes (root (mindmapData st))) ->
      id n <> "" ->
      selectedNodeId st <> Some (id n) \/ showSidePanel st = false ->
      hoverTooltip (onNodeMouseEnter st (flowNodeOf n x y)) = Some n).
Proof.
  split; [|split; [|split]].
  - intros st node. unfold hoverTooltip.
    destruct (truthy (hoveredNodeId st)) eqn:T; [|discriminate]. simpl.
    apply truthy_true_inv in T as (h & Eh & Hh). rewrite Eh. simpl.
    destruct (findNode h (root (mindmapData st))) as [n|] eqn:F; [|discriminate].
    apply findNode_Some in F as [Hin Hid].
    destruct (isSelected (selectedNodeId st) h && showSidePanel st) eqn:S;
      [discriminate|].
    intros [= <-]. rewrite Hid. repeat split; try assumption.
    intros [H1 H2]. apply andb_false_iff in S as [S | S].
    + apply isSelected_true in H1. congruence.
    + congruence.
  - intros st fn. unfold hoverTooltip, onNodeClick, onNodeMouseEnter.
    cbn [hoveredNodeId selectedNodeId showSidePanel mindmapData isSelected].
    destruct (negb (truthy (Some (fn_id fn)))); [reflexivity|].
    destruct (findNode _ (root (mindmapData st))); [|reflexivity].
    change (default "" (Some (fn_id fn))) with (fn_id fn).
    rewrite String.eqb_refl.
    destruct (isSelected (selectedNodeId st) (fn_id fn)), (showSidePanel st);
      reflexivity.
  - reflexivity.
  - intros st n x y Hu Hn Hne Hsel. unfold hoverTooltip, onNodeMouseEnter.
    cbn [hoveredNodeId selectedNodeId showSidePanel mindmapData fn_id flowNodeOf].
    rewrite (truthy_Some _ Hne). cbn [negb].
    change (default "" (Some (id n))) with (id n).
    rewrite (findNode_unique _ n Hu Hn).
    destruct (isSelected (selectedNodeId st) (id n) && showSidePanel st) eqn:S;
      [|reflexivity].
    apply andb_true_iff in S as [S1 S2]. apply isSelected_true in S1.
    destruct Hsel; congruence.
Qed.

(** X15 on the chain [r] - [a] - [b]: hovering [b] in a fresh state. *)
Lemma hoverTooltip_rules_witness :
  hoverTooltip (onNodeMouseEnter (initialState chainRoot) (flowNodeOf (bare "b" None) 0 0))
  = Some (bare "b" None).
Proof.
  apply (proj2 (proj2 (proj2 hoverTooltip_rules)) (initialState chainRoot)
           (bare "b" None) 0%R 0%R uniqueIds_chainRoot).
  - simpl. auto.
  - discriminate.
  - left. discriminate.
Defined.

(** ** Styles after a click *)

Lemma size_pos_of_elem (x : string) (X : gset string) : x ∈ X -> (0 <? size X) = true.
Proof.
  intros Hx. apply Nat.ltb_lt. destruct (size X) eqn:E; [|lia].
  apply size_empty_inv in E. exfalso.
  apply (not_elem_of_empty (C := gset string) x). now rewrite <- E.
Qed.

Lemma click_highlights_node st fn :
  fn_id fn ∈ highlightedNodes (onNodeClick st fn).
Proof.
  unfold onNodeClick. cbn [highlightedNodes].
  assert (H1 : fn_id fn ∈
               match children (nd_originalNode (fn_data fn)) with
               | Some cs =>
                   forEach (fun child (_ : nat) (r : gset string) => r ∪ {[ id child ]})
                     cs ({[ fn_id fn ]} : gset string)
               | None => {[ fn_id fn ]}
               end).
  { destruct (children _) as [cs|].
    - unfold forEach. rewrite forEachFrom_add_ids.
      apply elem_of_union. left. now apply elem_of_singleton.
    - now apply elem_of_singleton. }
  destruct (findParent _ _ _); [apply elem_of_union; left|]; exact H1.
Qed.

Lemma click_highlights_children st n x y j :
  In j (map id (kids n)) ->
  j ∈ highlightedNodes (onNodeClick st (flowNodeOf n x y)).
Proof.
  intros Hj. unfold onNodeClick.
  cbn [highlightedNodes fn_id fn_data flowNodeOf nd_originalNode].
  assert (H1 : j ∈
               match children n with
               | Some cs =>
                   forEach (fun child (_ : nat) (r : gset string) => r ∪ {[ id child ]})
                     cs ({[ id n ]} : gset string)
               | None => {[ id n ]}
               end).
  { unfold kids in Hj. destruct (children n) as [cs|]; [|destruct Hj].
    unfold forEach. rewrite forEachFrom_add_ids.
    apply elem_of_union. right. apply elem_of_list_to_set.
    now apply list_elem_of_In. }
  destruct (findParent _ _ _); [apply elem_of_union; left|]; exact H1.
Qed.


(** ** More on search *)

Lemma lowerChar_idempotent c : lowerChar (lowerChar c) = lowerChar c.
Proof. destruct c as [[] [] [] [] [] [] [] []]; vm_compute; reflexivity. Qed.

Lemma isWhiteSpace_lowerChar c : isWhiteSpace (lowerChar c) = isWhiteSpace c.
Proof. destruct c as [[] [] [] [] [] [] [] []]; vm_compute; reflexivity. Qed.

Lemma toLowerCase_idempotent s : toLowerCase (toLowerCase s) = toLowerCase s.
Proof.
  induction s as [|c s IH]; simpl; [reflexivity|].
  now rewrite lowerChar_idempotent, IH.
Qed.

Lemma allWhiteSpace_toLowerCase s : allWhiteSpace (toLowerCase s) = allWhiteSpace s.
Proof.
  induction s as [|c s IH]; simpl; [reflexivity|].
  now rewrite isWhiteSpace_lowerChar, IH.
Qed.

Lemma toLowerCase_app s t :
  toLowerCase (s ++ t) = (toLowerCase s ++ toLowerCase t)%string.
Proof.
  induction s as [|c s IH]; [reflexivity|].
  rewrite append_cons. simpl. now rewrite IH, append_cons.
Qed.

Lemma filter_false {A} (l : list A) : List.filter (fun _ => false) l = [].
Proof. induction l; simpl; auto. Qed.

Lemma searchNodes_filter st query :
  searchNodes st query
  = map id (List.filter
              (fun n => negb (allWhiteSpace query) && matchesSearch (toLowerCase query) n)
              (allNodes (root (mindmapData st)))).
Proof.
  unfold searchNodes. rewrite trim_blank, negb_involutive.
  destruct (allWhiteSpace query); simpl.
  - now rewrite filter_false.
  - now rewrite searchInNode_spec.
Qed.

(** X17.  The search results are the ids of the matching nodes in document
    order (a node before its children, children left to right), one entry per
    matching node and none for any other node: a node is kept exactly when
    the query is not blank and the node's label, summary, description or
    some tag contains it, case ignored.  With unique ids no id is listed
    twice, and the id of a node of the tree is listed exactly when that node
    is kept.  The letter case of the query does not matter. *)
Theorem searchNodes_document_order :
  forall st query,
    (exists keep,
        (forall n, keep n = true <->
                   allWhiteSpace query = false /\ nodeMatches query n) /\
        searchNodes st query
        = map id (List.filter keep (allNodes (root (mindmapData st))))) /\
    (uniqueIds (root (mindmapData st)) ->
     NoDup (searchNodes st query) /\
     forall n, In n (allNodes (root (mindmapData st))) ->
               (In (id n) (searchNodes st query) <->
                allWhiteSpace query = false /\ nodeMatches query n)) /\
    searchNodes st (toLowerCase query) = searchNodes st query.
Proof.
  intros st query.
  assert (Hkeep : forall n,
             negb (allWhiteSpace query) && matchesSearch (toLowerCase query) n = true
             <-> allWhiteSpace query = false /\ nodeMatches query n).
  { intros n. rewrite andb_true_iff, negb_true_iff, matchesSearch_spec. tauto. }
  split; [|split].
  - eexists. split; [exact Hkeep | apply searchNodes_filter].
  - intros Hu. rewrite searchNodes_filter. split; [now apply NoDup_map_filter|].
    intros n Hn. rewrite <- Hkeep, in_map_iff. split.
    + intros (m & E & Hm). apply filter_In in Hm as [Hm Hk].
      assert (m = n) as ->; [|exact Hk].
      apply (NoDup_map_same id (allNodes (root (mindmapData st)))); assumption.
    + intros Hk. exists n. split; [reflexivity|]. apply filter_In. now split.
  - rewrite !searchNodes_filter.
    now rewrite toLowerCase_idempotent, allWhiteSpace_toLowerCase.
Qed.

Lemma append_assoc (s t u : string) : ((s ++ t) ++ u)%string = (s ++ t ++ u)%string.
Proof.
  induction s as [|c s IH]; [now rewrite !append_empty_l|].
  now rewrite !append_cons, IH.
Qed.

Lemma containsCI_trans s q2 q1 :
  containsCI q2 q1 -> containsCI s q2 -> containsCI s q1.
Proof.
  intros (a & b & E) (pre & post & H). unfold containsCI.
  exists (pre ++ a)%string, (b ++ post)%string.
  rewrite H, E. now rewrite !append_assoc.
Qed.

(** X18.  Typing more never adds results: when the longer query contains the
    shorter one (case ignored) and the shorter one is not blank, every result
    of the longer query is a result of the shorter one. *)
Theorem search_narrows :
  forall st q1 q2,
    allWhiteSpace q1 = false ->
    containsCI q2 q1 ->
    incl (searchNodes st q2) (searchNodes st q1).
Proof.
  intros st q1 q2 Hb Hc i Hi.
  destruct (allWhiteSpace q2) eqn:B2.
  - unfold searchNodes in Hi. rewrite trim_blank, B2 in Hi. destruct Hi.
  - apply (searchNodes_spec st q2 i B2) in Hi as (n & Hn & E & Hm).
    apply (searchNodes_spec st q1 i Hb). exists n. split; [assumption|].
    split; [assumption|].
    destruct Hm as [H | [H | [H | (m & ts & tag & Hm & Ht & Hin & H)]]].
    + left. eapply containsCI_trans; eauto.
    + right; left. eapply containsCI_trans; eauto.
    + right; right; left. eapply containsCI_trans; eauto.
    + right; right; right. exists m, ts, tag. repeat split; try assumption.
      eapply containsCI_trans; eauto.
Qed.

(** X18 on the tagged node: what [lib] finds includes what [LIBR] finds. *)
Lemma search_narrows_witness :
  incl (searchNodes (initialState taggedRoot) "LIBR")
       (searchNodes (initialState taggedRoot) "lib").
Proof.
  apply search_narrows.
  - reflexivity.
  - exists ""%string, "r"%string. reflexivity.
Defined.

Lemma uniqueIds_taggedRoot : uniqueIds taggedRoot.
Proof. apply (bool_decide_unpack _). vm_compute. exact I. Qed.

(** X17 on the tagged node: the query [LIB] lists its id, once. *)
Lemma searchNodes_document_order_witness :
  NoDup (searchNodes (initialState taggedRoot) "LIB") /\
  In "react" (searchNodes (initialState taggedRoot) "LIB").
Proof.
  destruct (proj1 (proj2 (searchNodes_document_order (initialState taggedRoot) "LIB"))
              uniqueIds_taggedRoot) as [H1 H2].
  split; [exact H1|]. apply (H2 taggedRoot); [simpl; auto|].
  split; [reflexivity|]. right; right; right.
  exists (mkMetadata None None None (Some ["library"; "ui"]) []),
         ["library"; "ui"], "library".
  repeat split; [simpl; auto|]. now exists "", "rary".
Defined.

(** ** The comma-separated boxes of the side panel *)

Lemma split_nonempty sep s : split sep s <> [].
Proof.
  destruct s as [|c s]; simpl; [discriminate|].
  destruct (Ascii.eqb c sep); [discriminate|].
  destruct (split sep s); discriminate.
Qed.

Lemma split_no_sep sep s : hasChar sep s = false -> split sep s = [s].
Proof.
  induction s as [|c s IH]; simpl; [reflexivity|].
  intros H. apply orb_false_iff in H as [H1 H2]. rewrite H1, (IH H2). reflexivity.
Qed.

Lemma split_app_sep sep a rest :
  hasChar sep a = false ->
  split sep (a ++ String sep rest) = a :: split sep rest.
Proof.
  induction a as [|c a IH]; intros H.
  - rewrite append_empty_l. simpl. now rewrite Ascii.eqb_refl.
  - simpl in H. apply orb_false_iff in H as [H1 H2].
    rewrite append_cons. simpl. rewrite H1, (IH H2). reflexivity.
Qed.

Lemma split_parts_no_sep sep s :
  Forall (fun t => hasChar sep t = false) (split sep s).
Proof.
  induction s as [|c s IH]; simpl.
  - apply List.Forall_cons; [reflexivity | apply List.Forall_nil].
  - destruct (Ascii.eqb c sep) eqn:E.
    + apply List.Forall_cons; [reflexivity | exact IH].
    + destruct (split sep s) as [|h t]; simpl.
      * apply List.Forall_cons; [simpl; now rewrite E | apply List.Forall_nil].
      * inversion IH as [|? ? Hh Ht]; subst.
        apply List.Forall_cons; [simpl; now rewrite E, Hh | exact Ht].
Qed.

Lemma join_cons2 sep a b l :
  join sep (a :: b :: l) = (a ++ sep ++ join sep (b :: l))%string.
Proof. reflexivity. Qed.

Lemma split_join a l :
  Forall (fun t => hasChar "," t = false) (a :: l) ->
  split "," (join ", " (a :: l)) = a :: map (String " ") l.
Proof.
  revert a. induction l as [|b l IH]; intros a H.
  - inversion H; subst. now apply split_no_sep.
  - inversion H as [|? ? Ha Hl]; subst.
    rewrite join_cons2.
    replace (", " ++ join ", " (b :: l))%string
      with (String "," (String " " (join ", " (b :: l))))
      by (now rewrite !append_cons, append_empty_l).
    rewrite (split_app_sep _ _ _ Ha).
    change (split "," (String " " (join ", " (b :: l))))
      with (match split "," (join ", " (b :: l)) with
            | h :: t => String " " h :: t
            | [] => [String " " EmptyString]
            end).
    rewrite (IH b Hl). reflexivity.
Qed.

Lemma trim_leading_space t : trim (String " " t) = trim t.
Proof. reflexivity. Qed.

Lemma trimStart_head s :
  trimStart s = ""%string \/
  exists c t, trimStart s = String c t /\ isWhiteSpace c = false.
Proof.
  induction s as [|c s IH]; simpl; [now left|].
  destruct (isWhiteSpace c) eqn:E; [exact IH|]. right. now exists c, s.
Qed.

Lemma trimEnd_head c t :
  isWhiteSpace c = false -> exists t', trimEnd (String c t) = String c t'.
Proof.
  intros H. simpl. destruct (trimEnd t); rewrite ?H; eauto.
Qed.

Lemma trimEnd_idempotent s : trimEnd (trimEnd s) = trimEnd s.
Proof.
  induction s as [|c s IH]; [reflexivity|].
  cbn [trimEnd]. destruct (trimEnd s) as [|d t] eqn:E.
  - destruct (isWhiteSpace c) eqn:W; [reflexivity|]. cbn [trimEnd]. now rewrite W.
  - cbn [trimEnd]. cbn [trimEnd] in IH. rewrite IH. reflexivity.
Qed.

Lemma trim_idempotent s : trim (trim s) = trim s.
Proof.
  unfold trim. destruct (trimStart_head s) as [E | (c & t & E & W)]; rewrite E.
  - reflexivity.
  - destruct (trimEnd_head c t W) as (t' & E'). rewrite E'.
    cbn [trimStart]. rewrite W. rewrite <- E'. apply trimEnd_idempotent.
Qed.

Lemma hasChar_trimStart c s : hasChar c s = false -> hasChar c (trimStart s) = false.
Proof.
  induction s as [|d s IH]; simpl; [auto|]. intros H.
  destruct (isWhiteSpace d); [|exact H].
  apply orb_false_iff in H as [_ H]. now apply IH.
Qed.

Lemma hasChar_trimEnd c s : hasChar c s = false -> hasChar c (trimEnd s) = false.
Proof.
  induction s as [|d s IH]; [auto|]. intros H. simpl in H.
  apply orb_false_iff in H as [H1 H2]. specialize (IH H2).
  cbn [trimEnd]. destruct (trimEnd s) as [|e t].
  - destruct (isWhiteSpace d); [reflexivity|]. simpl. now rewrite H1.
  - cbn [hasChar]. cbn [hasChar] in IH. now rewrite H1, IH.
Qed.

Lemma hasChar_trim c s : hasChar c s = false -> hasChar c (trim s) = false.
Proof. intros H. now apply hasChar_trimEnd, hasChar_trimStart. Qed.

Lemma allWhiteSpace_no_comma s : allWhiteSpace s = true -> hasChar "," s = false.
Proof.
  induction s as [|c s IH]; simpl; [auto|]. intros H.
  apply andb_true_iff in H as [H1 H2]. rewrite (IH H2), orb_false_r.
  destruct (Ascii.eqb_spec c ","); [subst; discriminate | reflexivity].
Qed.

Lemma commaList_commaText ts :
  ts <> [] ->
  Forall (fun t => hasChar "," t = false) ts ->
  commaList (commaText ts) = map trim ts.
Proof.
  intros Hne H. destruct ts as [|a l]; [contradiction|].
  unfold commaList, commaText. rewrite (split_join a l H).
  cbn [map]. f_equal. rewrite map_map. apply map_ext. intros t.
  apply trim_leading_space.
Qed.

(** X19.  The tags, inputs and outputs boxes: what a box shows for a
    non-empty list of comma-free entries reads back as the same entries,
    trimmed; a list that was read from a box is shown and read back
    unchanged; a box reading is never the empty list, and a box with only
    white space reads as one empty entry, as does the text shown for the
    empty list. *)
Theorem commaList_round_trip :
  (forall ts,
      ts <> [] ->
      Forall (fun t => hasChar "," t = false) ts ->
      commaList (commaText ts) = map trim ts) /\
  (forall value, commaList (commaText (commaList value)) = commaList value) /\
  (forall value, commaList value <> []) /\
  (forall value, allWhiteSpace value = true -> commaList value = [""%string]) /\
  commaList (commaText []) = [""%string].
Proof.
  split; [exact commaList_commaText|]. split; [|split; [|split]].
  - intros value. rewrite commaList_commaText.
    + unfold commaList. rewrite map_map. apply map_ext. intros t.
      apply trim_idempotent.
    + unfold commaList. intros E. apply map_eq_nil in E.
      now apply split_nonempty in E.
    + unfold commaList. apply Forall_map.
      eapply List.Forall_impl; [|apply (split_parts_no_sep "," value)].
      intros t Ht. now apply hasChar_trim.
  - intros value E. unfold commaList in E. apply map_eq_nil in E.
    now apply split_nonempty in E.
  - intros value Hw. unfold commaList.
    rewrite (split_no_sep _ _ (allWhiteSpace_no_comma _ Hw)). cbn [map].
    f_equal. apply nonEmpty_false. rewrite trim_blank, Hw. reflexivity.
  - reflexivity.
Qed.

(** X19 on the tags [library], [ ui ]. *)
Lemma commaList_round_trip_witness :
  commaList (commaText ["library"; " ui "]%string) = ["library"; "ui"]%string.
Proof.
  apply (proj1 commaList_round_trip ["library"; " ui "]%string).
  - discriminate.
  - repeat constructor.
Defined.

(** ** The panel after an edit *)

Lemma in_allNodes_nodeAt t :
  forall n, In n (allNodes t) -> exists p, nodeAt t p = Some n.
Proof.
  induction t as [t IH] using node_ind_kids. intros n Hn.
  apply in_allNodes_inv in Hn as [-> | (k & Hk & Hn)].
  - now exists [].
  - rewrite List.Forall_forall in IH. destruct (IH k Hk n Hn) as (p & Hp).
    apply In_nth_error in Hk as (i & Hi).
    exists (i :: p). simpl. now rewrite Hi.
Qed.

Lemma updateNodeInTree_same_ids nodeId updates t :
  u_id updates = None -> u_children updates = None ->
  allIds (updateNodeInTree nodeId updates t) = allIds t.
Proof.
  intros Hid Hch.
  destruct (updateNodeInTree_same_placement ∅ nodeId updates Hid Hch t
              0 0 0%R 0%R 1 0%R None) as [H _].
  apply (f_equal (map fst)) in H. rewrite !map_map in H.
  change (map (fun x => fst (placement x))) with (map fn_id) in H.
  rewrite !calculatePositions_ids, !visibleNodes_empty in H. exact H.
Qed.

Lemma selectedNode_Some st n :
  selectedNode st = Some n ->
  selectedNodeId st = Some (id n) /\ id n <> ""%string /\
  In n (allNodes (root (mindmapData st))).
Proof.
  unfold selectedNode. destruct (truthy (selectedNodeId st)) eqn:T; [|discriminate].
  apply truthy_true_inv in T as (h & Eh & Hh). rewrite Eh. simpl.
  intros F. apply findNode_Some in F as [Hin Hid]. subst h. auto.
Qed.

Lemma selectedNode_after_update st n updates :
  uniqueIds (root (mindmapData st)) ->
  u_id updates = None -> u_children updates = None ->
  selectedNode st = Some n ->
  selectedNode (handleUpdateNode st (id n) updates) = Some (spread n updates).
Proof.
  intros Hu Hid Hch Hs.
  apply selectedNode_Some in Hs as (Hsel & Hne & Hin).
  destruct (in_allNodes_nodeAt _ _ Hin) as (p & Hp).
  pose proof (updateNodeInTree_match (id n) updates p _ n Hu Hp eq_refl) as Hp'.
  apply nodeAt_in_allNodes in Hp'.
  unfold selectedNode, handleUpdateNode.
  cbn [selectedNodeId mindmapData setRoot root]. rewrite Hsel.
  rewrite (truthy_Some _ Hne). cbn [negb].
  change (default "" (Some (id n))) with (id n).
  assert (Ei : id (spread n updates) = id n)
    by (apply (spread_same_shape updates Hid Hch)).
  rewrite <- Ei at 1. apply findNode_unique; [|exact Hp'].
  unfold uniqueIds. now rewrite updateNodeInTree_same_ids.
Qed.

(** X20.  With unique ids, after an edit made in the side panel the panel
    still shows a node, and it is the edited one: the selected node with the
    edited field replaced and its id, its children and its other fields as
    they were.  For the tags box the new tags are the trimmed comma-separated
    parts of the text, the rest of the metadata is kept. *)
Theorem panel_shows_the_edit :
  forall st n,
    uniqueIds (root (mindmapData st)) ->
    selectedNode st = Some n ->
    (forall v, exists n',
        selectedNode (handleFieldUpdate st n v) = Some n' /\
        id n' = id n /\ children n' = children n /\
        collapsed n' = collapsed n /\ position n' = position n /\
        label n' = match v with LabelValue s => s | _ => label n end /\
        summary n' = match v with SummaryValue s => s | _ => summary n end /\
        description n'
        = match v with DescriptionValue s => s | _ => description n end /\
        metadata n' = match v with MetadataValue m => Some m | _ => metadata n end) /\
    (forall m value, exists n' m',
        selectedNode (onTagsChange st n m value) = Some n' /\
        metadata n' = Some m' /\
        tags m' = Some (commaList value) /\
        inputs m' = inputs m /\ outputs m' = outputs m /\
        notes m' = notes m /\ extra m' = extra m /\
        label n' = label n /\ children n' = children n).
Proof.
  intros st n Hu Hs. split.
  - intros v. exists (spread n (fieldUpdates v)). split.
    + unfold handleFieldUpdate.
      apply selectedNode_after_update; try assumption; now destruct v.
    + destruct v; repeat split; reflexivity.
  - intros m value. eexists. eexists. split.
    + unfold onTagsChange, handleFieldUpdate.
      apply selectedNode_after_update; try assumption; reflexivity.
    + repeat split; reflexivity.
Qed.

(** X20 on the tagged node, selected, after typing into the tags box. *)
Lemma panel_shows_the_edit_witness :
  exists n' m',
    selectedNode
      (onTagsChange (mkState ∅ (Some "react"%string) None ∅ (mkData taggedRoot None None)
                       true "")
         taggedRoot (mkMetadata None None None (Some ["library"; "ui"]%string) [])
         "a, b") = Some n' /\
    metadata n' = Some m' /\ tags m' = Some ["a"; "b"]%string.
Proof.
  destruct (proj2 (panel_shows_the_edit
                     (mkState ∅ (Some "react"%string) None ∅
                        (mkData taggedRoot None None) true "")
                     taggedRoot
                     uniqueIds_taggedRoot eq_refl)
              (mkMetadata None None None (Some ["library"; "ui"]%string) []) "a, b"%string)
    as (n' & m' & H1 & H2 & H3 & _).
  exists n', m'. split; [exact H1|]. split; [exact H2 | exact H3].
Defined.

(** ** Closing the panel, deleting twice *)

Lemma in_filterNonNull_inv {A} (l : list (option A)) a :
  In a (filterNonNull l) -> In (Some a) l.
Proof.
  induction l as [|[b|] l IH]; simpl; [tauto| |].
  - intros [H | H]; [left; congruence | right; auto].
  - auto.
Qed.

Lemma deleteNodeFromTree_removes_id t :
  forall target t',
    deleteNodeFromTree t target = Some t' -> ~ In target (allIds t').
Proof.
  induction t as [t IH] using node_ind_kids. intros target t' H.
  rewrite deleteNodeFromTree_eq in H.
  destruct (String.eqb_spec (id t) target) as [|Hne]; [discriminate|].
  injection H as <-. rewrite List.Forall_forall in IH.
  destruct t as [i l s d m [cs|] c p]; cbn [children kids id] in *.
  - rewrite allIds_eq. cbn [id withChildren kids children].
    intros [E | Hin]; [contradiction|].
    apply in_flat_map in Hin as (k' & Hk' & Hin).
    apply in_filterNonNull_inv, in_map_iff in Hk' as (k & Hk & Hkin).
    exact (IH k Hkin target k' Hk Hin).
  - rewrite allIds_eq. cbn [id kids children flat_map].
    intros [E | []]. contradiction.
Qed.

(** X21.  The root is never deleted: asked to delete the root's id the
    handler leaves the state as it is.  For any other id every node that
    carries it is removed, also when ids repeat, and deleting the same id
    again changes nothing. *)
Theorem handleDeleteNode_twice :
  forall st nodeId,
    handleDeleteNode st (id (root (mindmapData st))) = st /\
    (nodeId <> id (root (mindmapData st)) ->
     ~ In nodeId (allIds (root (mindmapData (handleDeleteNode st nodeId))))) /\
    handleDeleteNode (handleDeleteNode st nodeId) nodeId = handleDeleteNode st nodeId.
Proof.
  intros st nodeId. split; [|split].
  - unfold handleDeleteNode. now rewrite String.eqb_refl.
  - intros Hne. unfold handleDeleteNode.
    destruct (String.eqb_spec nodeId (id (root (mindmapData st)))) as [|_];
      [contradiction|].
    destruct (deleteNodeFromTree (root (mindmapData st)) nodeId) as [r|] eqn:E.
    + cbn [mindmapData setRoot root].
      now apply (deleteNodeFromTree_removes_id _ _ _ E).
    + apply deleteNodeFromTree_None in E. congruence.
  - unfold handleDeleteNode at 2 3.
    destruct (String.eqb_spec nodeId (id (root (mindmapData st)))) as [E | Hne].
    + unfold handleDeleteNode. now rewrite (proj2 (String.eqb_eq _ _) E).
    + destruct (deleteNodeFromTree (root (mindmapData st)) nodeId) as [r|] eqn:E.
      * pose proof (deleteNodeFromTree_removes_id _ _ _ E) as Hno.
        unfold handleDeleteNode. cbn [mindmapData setRoot root].
        destruct (String.eqb_spec nodeId (id r)) as [Er | _].
        { exfalso. apply Hno. rewrite Er. apply in_allIds_self. }
        rewrite (deleteNodeFromTree_absent _ _ Hno).
        cbn [collapsedNodes hoveredNodeId searchQuery title version]. reflexivity.
      * apply deleteNodeFromTree_None in E. congruence.
Qed.

(** X21 on a tree in which the id [a] is used twice. *)
Lemma handleDeleteNode_twice_witness :
  ~ In "a"%string
      (allIds (root (mindmapData
         (handleDeleteNode
            (initialState (bare "r" (Some [bare "a" None; bare "b" (Some [bare "a" None])])))
            "a")))).
Proof.
  apply (proj1 (proj2 (handleDeleteNode_twice
                         (initialState
                            (bare "r" (Some [bare "a" None; bare "b" (Some [bare "a" None])])))
                         "a"%string))).
  discriminate.
Defined.

Lemma size_empty_gset : size (∅ : gset string) = 0.
Proof. apply size_empty. Qed.

(** X22.  Closing the side panel (its close button or a click on the overlay)
    deselects, closes and clears the highlights, so that afterwards no node is
    dimmed or marked selected and no edge is animated; the document, the
    collapsed set and the layout stay.  When the search effect then runs, the
    highlights are the search results again if the query is not blank. *)
Theorem closePanel_resets_view :
  forall st,
    let st' := closePanel st in
    selectedNode st' = None /\
    showSidePanel st' = false /\
    layoutOf st' = layoutOf st /\
    (forall fn, opacity (sn_style (styleNode st' fn)) = 1%R /\
                sn_isSelected (styleNode st' fn) = false /\
                sn_isHighlighted (styleNode st' fn) = false) /\
    (forall e, se_animated (styleEdge st' e) = false /\
               se_zIndex (styleEdge st' e) = 1) /\
    highlightedNodes (syncSearchHighlight st')
    = (if allWhiteSpace (searchQuery st) then ∅
       else list_to_set (searchNodes st (searchQuery st))).
Proof.
  intros st st'. split; [reflexivity|]. split; [reflexivity|].
  split; [reflexivity|]. split; [|split].
  - intros fn. unfold styleNode, st', closePanel.
    cbn [opacity sn_style sn_isSelected sn_isHighlighted highlightedNodes
         selectedNodeId isSelected].
    rewrite size_empty_gset. repeat split.
  - intros e. unfold styleEdge, st', closePanel.
    cbn [se_animated se_zIndex highlightedNodes selectedNodeId isSelected].
    rewrite !(bool_decide_eq_false_2 _ (not_elem_of_empty _)). split; reflexivity.
  - unfold syncSearchHighlight, st', closePanel.
    cbn [searchQuery selectedNodeId]. rewrite trim_blank.
    destruct (allWhiteSpace (searchQuery st)); reflexivity.
Qed.

(** ** The layout claims, read off the returned nodes and edges *)

Lemma Visit_output c rootNode node level index px py sc pa pid :
  Visit c rootNode node level index px py sc pa pid ->
  exists fn, In fn (fst (convertMindmapToFlow c rootNode)) /\
             nd_originalNode (fn_data fn) = node /\
             fn_id fn = id node /\
             fn_position fn
             = (xOf level index px sc pa, yOf level index py sc pa).
Proof.
  intros HV. eexists. split; [exact (Visit_node _ _ _ _ _ _ _ _ _ _ HV)|].
  repeat split.
Qed.

Lemma Visit_output_edge c rootNode node level index px py sc pa parentId :
  Visit c rootNode node level index px py sc pa (Some parentId) ->
  parentId <> "" ->
  exists e, In e (snd (convertMindmapToFlow c rootNode)) /\
            fe_source e = parentId /\ fe_target e = id node.
Proof.
  intros HV Hne. eexists. split.
  - exact (Visit_edge _ _ _ _ _ _ _ _ _ _ HV (truthy_Some _ Hne)).
  - split; reflexivity.
Qed.

Lemma visible_ids_sublist c node :
  sublist (map id (visibleNodes c node)) (allIds node).
Proof.
  induction node as [node IH] using node_ind_kids.
  rewrite visibleNodes_eq, allIds_eq. cbn [map]. apply sublist_skip.
  destruct (hasChildren c node); [|apply sublist_nil_l].
  induction IH as [|k ks Hk _ IHks]; cbn [flat_map]; [constructor|].
  rewrite map_app. now apply sublist_app.
Qed.

Lemma layout_ids_NoDup c rootNode :
  uniqueIds rootNode -> NoDup (map fn_id (fst (convertMindmapToFlow c rootNode))).
Proof.
  intros Hu. rewrite convertMindmapToFlow_ids.
  eapply sublist_NoDup; [exact Hu | apply visible_ids_sublist].
Qed.

(** With unique ids the layout has one node per id. *)
Lemma layout_one_node_per_id c rootNode fn fn' :
  uniqueIds rootNode ->
  In fn (fst (convertMindmapToFlow c rootNode)) ->
  In fn' (fst (convertMindmapToFlow c rootNode)) ->
  fn_id fn = fn_id fn' -> fn = fn'.
Proof.
  intros Hu. apply NoDup_map_same. now apply layout_ids_NoDup.
Qed.

Lemma layout_head c rootNode :
  hd_error (fst (convertMindmapToFlow c rootNode)) = Some (flowNodeOf rootNode 0 0).
Proof.
  unfold convertMindmapToFlow. change (@nil FlowNode, @nil FlowEdge) with emptyOut.
  rewrite calculatePositions_unfold. reflexivity.
Qed.

(** C1.  With an empty collapsed set, the [i]-th of the [N] children of the
    root gets the angle [2πi/N]: the returned nodes contain a node for it,
    with its id, whose position is [(250 cos(2πi/N), 250 sin(2πi/N))], at
    distance 250 from the origin, where the first returned node, the root's,
    lies; with unique ids this is the only returned node with that id; and
    the returned edges contain one from the root's id to the child's id when
    the root's id is not the empty string.  For the document with root [r]
    and children [a], [b], [c] the returned ids are [r], [a], [b], [c], the
    positions are the origin and the points at distance 250 at the angles
    [0], [2π/3], [4π/3], and the edges are exactly [r→a], [r→b], [r→c]. *)
Theorem C1_level1_full_circle :
  (forall (rootNode : MindmapNode) (i : nat) (child : MindmapNode),
      nth_error (kids rootNode) i = Some child ->
      let N := length (kids rootNode) in
      let theta := (2 * PI * INR i / INR N)%R in
      let nodes := fst (convertMindmapToFlow ∅ rootNode) in
      let edges := snd (convertMindmapToFlow ∅ rootNode) in
      angleOf 1 i N 0 = theta /\
      (exists fn, In fn nodes /\
                  nd_originalNode (fn_data fn) = child /\
                  fn_id fn = id child /\
                  fn_position fn = (250 * cos theta, 250 * sin theta)%R /\
                  dist (fn_position fn) (0, 0)%R = 250%R) /\
      (exists fn0, hd_error nodes = Some fn0 /\
                   fn_id fn0 = id rootNode /\ fn_position fn0 = (0, 0)%R) /\
      (id rootNode <> "" ->
       exists e, In e edges /\ fe_source e = id rootNode /\ fe_target e = id child) /\
      (uniqueIds rootNode ->
       forall fn, In fn nodes -> fn_id fn = id child ->
                  fn_position fn = (250 * cos theta, 250 * sin theta)%R))
  /\
  (map fn_id (fst (convertMindmapToFlow ∅ scenarioRoot)) = ["r"; "a"; "b"; "c"]
   /\ map fn_position (fst (convertMindmapToFlow ∅ scenarioRoot))
      = [ (0, 0);
          (250 * cos 0, 250 * sin 0);
          (250 * cos (2 * PI / 3), 250 * sin (2 * PI / 3));
          (250 * cos (4 * PI / 3), 250 * sin (4 * PI / 3)) ]%R
   /\ map (fun e => (fe_source e, fe_target e))
        (snd (convertMindmapToFlow ∅ scenarioRoot))
      = [ ("r", "a"); ("r", "b"); ("r", "c") ]
   /\ map fe_id (snd (convertMindmapToFlow ∅ scenarioRoot))
      = [ "edge-r-a"; "edge-r-b"; "edge-r-c" ]
   /\ Forall (fun fn => fn_id fn <> "r" -> dist (fn_position fn) (0, 0)%R = 250%R)
        (fst (convertMindmapToFlow ∅ scenarioRoot))).
Proof.
  split.
  - intros rootNode i child Hi N theta nodes edges.
    assert (Hc : hasChildren ∅ rootNode = true).
    { rewrite hasChildren_empty. destruct (kids rootNode); [|reflexivity].
      destruct i; discriminate. }
    pose proof (Visit_level1 ∅ rootNode i child Hc Hi) as HV.
    destruct (Visit_output _ _ _ _ _ _ _ _ _ _ HV) as (fn & Hin & Ho & Hid & Hpos).
    fold N in Hpos. rewrite xOf_level1, yOf_level1 in Hpos. fold theta in Hpos.
    split; [apply angleOf_level1|].
    split.
    { exists fn. repeat split; try assumption.
      rewrite Hpos. apply dist_origin_250. }
    split.
    { eexists. split; [apply layout_head|]. split; reflexivity. }
    split.
    { intros Hne. exact (Visit_output_edge _ _ _ _ _ _ _ _ _ _ HV Hne). }
    intros Hu fn' Hin' Hid'.
    rewrite (layout_one_node_per_id ∅ rootNode fn' fn Hu Hin' Hin); [exact Hpos|].
    congruence.
  - rewrite scenario_out. cbn [fst snd map fn_id fn_position flowNodeOf flowEdgeOf
                                fe_source fe_target id bare scenarioRoot].
    rewrite !xOf_level1, !yOf_level1, INR_3.
    replace (2 * PI * INR 0 / 3)%R with 0%R by (simpl INR; field).
    replace (2 * PI * INR 1 / 3)%R with (2 * PI / 3)%R by (simpl INR; field).
    replace (2 * PI * INR 2 / 3)%R with (4 * PI / 3)%R by (simpl INR; field).
    change (xOf 0 0 0 1 0) with 0%R. change (yOf 0 0 0 1 0) with 0%R.
    split; [reflexivity|]. split; [reflexivity|]. split; [reflexivity|].
    split; [reflexivity|].
    repeat apply List.Forall_cons; try apply List.Forall_nil;
      cbn [fn_id fn_position]; intros H; try (now exfalso; apply H);
      apply dist_origin_250.
Qed.

(** C1 at the scenario document, child [b] (index 1 of 3): a returned node
    with id [b] lies at the angle [2π/3], at distance 250 from the origin. *)
Lemma C1_level1_full_circle_witness :
  nth_error (kids scenarioRoot) 1 = Some (bare "b" None) /\
  exists fn, In fn (fst (convertMindmapToFlow ∅ scenarioRoot)) /\
             fn_id fn = "b" /\
             fn_position fn
             = (250 * cos (2 * PI * INR 1 / INR (length (kids scenarioRoot))),
                250 * sin (2 * PI * INR 1 / INR (length (kids scenarioRoot))))%R /\
             dist (fn_position fn) (0, 0)%R = 250%R.
Proof.
  split; [reflexivity|].
  destruct (proj1 C1_level1_full_circle scenarioRoot 1%nat (bare "b" None) eq_refl)
    as (_ & (fn & H1 & _ & H3 & H4 & H5) & _).
  exists fn. repeat split; assumption.
Defined.



(** C3.  A child of a visited node at level [level >= 1] (so the child is at
    level [>= 2]) among [n] siblings.  The returned nodes contain a node for
    the parent, which lies at the angle [parentAngle] and the radius of its
    level from the position handed to its call, and a node for the child,
    which lies at the angle [angle] and the radius of the child's level from
    the parent's returned position.  When [n = 1], [angle] is
    [parentAngle]; otherwise the angles of the siblings are
    [lo + i * (angleSpan / (n - 1))] for [i = 0 .. n-1], running from
    [lo = parentAngle - angleSpan/2] at the first sibling to
    [parentAngle + angleSpan/2] at the last, where
    [angleSpan = min(1.6π, n * 180 / radius)] and [radius] is the radius of
    the child's level. *)
Theorem C3_fan_below_level1 :
  forall collapsedNodes rootNode parent level index px py sc pa pid i child,
    Visit collapsedNodes rootNode parent level index px py sc pa pid ->
    1 <= level ->
    hasChildren collapsedNodes parent = true ->
    nth_error (kids parent) i = Some child ->
    let parentAngle := angleOf level index sc pa in
    let n := length (kids parent) in
    let parentRadius := (250 * (85 / 100) ^ (level - 1))%R in
    let radius := (250 * (85 / 100) ^ level)%R in
    let angleSpan := Rmin (PI * (16 / 10)) (INR n * 180 / radius)%R in
    let angle := angleOf (S level) i n parentAngle in
    (exists fnP fnC,
        In fnP (fst (convertMindmapToFlow collapsedNodes rootNode)) /\
        In fnC (fst (convertMindmapToFlow collapsedNodes rootNode)) /\
        nd_originalNode (fn_data fnP) = parent /\ fn_id fnP = id parent /\
        nd_originalNode (fn_data fnC) = child /\ fn_id fnC = id child /\
        fn_position fnP
        = (px + cos parentAngle * parentRadius,
           py + sin parentAngle * parentRadius)%R /\
        fn_position fnC
        = (fst (fn_position fnP) + cos angle * radius,
           snd (fn_position fnP) + sin angle * radius)%R) /\
    (n = 1 -> angle = parentAngle) /\
    (n <> 1 ->
     angle = (parentAngle - angleSpan / 2 + INR i * (angleSpan / (INR n - 1)))%R /\
     (i = 0 -> angle = (parentAngle - angleSpan / 2)%R) /\
     (i = n - 1 -> angle = (parentAngle + angleSpan / 2)%R) /\
     (parentAngle - angleSpan / 2 <= angle <= parentAngle + angleSpan / 2)%R).
Proof.
  intros collapsedNodes rootNode parent level index px py sc pa pid i child
    HV Hlev Hc Hi parentAngle n parentRadius radius angleSpan angle.
  pose proof (Visit_child _ _ _ _ _ _ _ _ _ _ _ _ HV Hc Hi) as HVc.
  fold parentAngle n in HVc.
  destruct level as [|level]; [lia|].
  assert (Hspan : angleSpan = angleSpanOf (S (S level)) n).
  { unfold angleSpan, radius. now rewrite angleSpanOf_S. }
  assert (Hlt : i < n) by (eapply nth_error_lt; eauto).
  split.
  { destruct (Visit_output _ _ _ _ _ _ _ _ _ _ HV)
      as (fnP & HinP & HoP & HidP & HposP).
    destruct (Visit_output _ _ _ _ _ _ _ _ _ _ HVc)
      as (fnC & HinC & HoC & HidC & HposC).
    exists fnP, fnC. repeat split; try assumption.
    - rewrite HposP, xOf_S, yOf_S, radiusOf_S. fold parentAngle.
      unfold parentRadius, BASE_RADIUS, LEVEL_SCALE.
      now replace (S level - 1) with level by lia.
    - rewrite HposC, HposP. cbn [fst snd].
      rewrite xOf_S, yOf_S, radiusOf_S. reflexivity. }
  unfold angle. rewrite angleOf_deep, <- Hspan.
  split.
  - intros ->. reflexivity.
  - intros Hn. destruct (Nat.eqb_spec n 1) as [|_]; [contradiction|].
    assert (Hn2 : (2 <= INR n)%R).
    { apply (le_INR 2). lia. }
    assert (Hpos : (0 < angleSpan)%R).
    { rewrite Hspan. apply angleSpanOf_pos. lia. }
    assert (Hi0 : (0 <= INR i)%R) by apply pos_INR.
    assert (Hi1 : (INR i <= INR n - 1)%R).
    { replace (INR n - 1)%R with (INR (n - 1)).
      - apply le_INR. lia.
      - rewrite minus_INR by lia. reflexivity. }
    split; [unfold Rdiv; ring|]. split; [|split].
    + intros ->. simpl INR. unfold Rdiv. ring.
    + intros ->. rewrite minus_INR by lia. simpl (INR 1). field. lra.
    + assert (Hq : (0 <= INR i / (INR n - 1) <= 1)%R).
      { split.
        - apply Rmult_le_pos; [assumption|]. left. apply Rinv_0_lt_compat. lra.
        - apply Rmult_le_reg_r with (INR n - 1)%R; [lra|].
          unfold Rdiv. rewrite Rmult_assoc, Rinv_l by lra. lra. }
      nra.
Qed.

(** C3 on [r] - [a] - [{b, c}]: [b] is the first of two siblings at level 2;
    its returned node lies at the low end of the fan around the returned
    node of [a]. *)
Lemma C3_fan_below_level1_witness :
  angleOf 2 0 2 (angleOf 1 0 1 0)
  = (angleOf 1 0 1 0
     - Rmin (PI * (16 / 10)) (INR 2 * 180 / (250 * (85 / 100) ^ 1)) / 2)%R
  /\ exists fnP fnC,
       In fnP (fst (convertMindmapToFlow ∅ fanRoot)) /\
       In fnC (fst (convertMindmapToFlow ∅ fanRoot)) /\
       fn_id fnP = "a" /\ fn_id fnC = "b" /\
       fn_position fnC
       = (fst (fn_position fnP)
          + cos (angleOf 2 0 2 (angleOf 1 0 1 0)) * (250 * (85 / 100) ^ 1),
          snd (fn_position fnP)
          + sin (angleOf 2 0 2 (angleOf 1 0 1 0)) * (250 * (85 / 100) ^ 1))%R.
Proof.
  assert (V : Visit ∅ fanRoot (bare "a" (Some [bare "b" None; bare "c" None]))
                1 0 0 0 1 0 (Some "r")).
  { apply (Visit_level1 ∅ fanRoot 0); vm_compute; reflexivity. }
  assert (C : hasChildren ∅ (bare "a" (Some [bare "b" None; bare "c" None])) = true).
  { vm_compute; reflexivity. }
  destruct (C3_fan_below_level1 ∅ fanRoot _ 1 0 0%R 0%R 1 0%R (Some "r") 0
              (bare "b" None) V (le_n 1) C eq_refl)
    as ((fnP & fnC & H1 & H2 & _ & H4 & _ & H6 & _ & H8) & _ & H).
  destruct H as (_ & H0 & _); [simpl; lia|].
  split; [apply H0; reflexivity|].
  exists fnP, fnC. repeat split; assumption.
Defined.

(** ** Updating a node: the whole result *)

Lemma map_fixed {A} (f : A -> A) (l : list A) :
  (forall j c, nth_error l j = Some c -> f c = c) -> map f l = l.
Proof.
  induction l as [|a l IH]; intros H; simpl; [reflexivity|].
  rewrite (H 0 a eq_refl). f_equal. apply IH. intros j c Hj. exact (H (S j) c Hj).
Qed.

Lemma map_setNth {A} (f : A -> A) (l : list A) :
  forall i c,
    nth_error l i = Some c ->
    (forall j c', j <> i -> nth_error l j = Some c' -> f c' = c') ->
    map f l = setNth i (f c) l.
Proof.
  induction l as [|a l IH]; intros [|i] c Hi Hoth; simpl in Hi; try discriminate.
  - injection Hi as ->. simpl. f_equal. apply map_fixed.
    intros j c' Hj. apply (Hoth (S j) c'); [lia | exact Hj].
  - simpl. rewrite (Hoth 0 a) by (try lia; reflexivity). f_equal.
    apply IH; [exact Hi|]. intros j c' Hne Hj. apply (Hoth (S j) c'); [lia | exact Hj].
Qed.

Lemma path_root_differs tree i p n :
  uniqueIds tree -> nodeAt tree (i :: p) = Some n -> id tree <> id n.
Proof.
  intros Hu Hn E. apply uniqueIds_inv in Hu as (Hself & _). apply Hself.
  simpl in Hn. destruct (nth_error (kids tree) i) as [c|] eqn:Ec; [|discriminate].
  rewrite descendantIds_eq. apply in_flat_map. exists c.
  split; [eapply nth_error_In; eauto|].
  rewrite E. eapply nodeAt_allIds; [exact Hn | apply in_allIds_self].
Qed.

(** With unique ids the result is the input with the subtree at the place of
    the match replaced by the merged node. *)
Lemma updateNodeInTree_replaceAt nodeId updates p :
  forall tree n,
    uniqueIds tree -> nodeAt tree p = Some n -> id n = nodeId ->
    updateNodeInTree nodeId updates tree = replaceAt tree p (spread n updates).
Proof.
  induction p as [|i p IH]; intros tree n Hu Hn Hid.
  - injection Hn as <-. simpl. rewrite updateNodeInTree_eq.
    now rewrite (proj2 (String.eqb_eq _ _) Hid).
  - pose proof (path_root_differs _ _ _ _ Hu Hn) as Hne. rewrite Hid in Hne.
    rewrite updateNodeInTree_eq.
    destruct (String.eqb_spec (id tree) nodeId) as [|_]; [contradiction|].
    cbn [replaceAt]. simpl in Hn.
    destruct (nth_error (kids tree) i) as [c|] eqn:Ec; [|discriminate].
    pose proof (uniqueIds_kid _ _ _ Hu Ec) as Huc.
    rewrite <- (IH c n Huc Hn Hid).
    assert (Hin : In nodeId (allIds c)).
    { rewrite <- Hid. eapply nodeAt_allIds; [exact Hn | apply in_allIds_self]. }
    apply uniqueIds_inv in Hu as (_ & _ & Hdisj).
    destruct tree as [ti tl ts td tm [cs|] tc tp]; [|destruct i; discriminate].
    cbn [children kids] in *. f_equal.
    apply map_setNth; [exact Ec|].
    intros j c' Hj Ej. apply updateNodeInTree_absent. intros Hin'.
    apply Hj. exact (Hdisj j i c' c nodeId Ej Ec Hin' Hin).
Qed.

Lemma updateNodeInTree_nodes nodeId updates tree :
  uniqueIds tree -> u_children updates = None ->
  map ownFields (allNodes (updateNodeInTree nodeId updates tree))
  = map (fun m => ownFields (mergedNode nodeId updates m)) (allNodes tree).
Proof.
  intros Hu Hc. induction tree as [tree IH] using node_ind_kids.
  destruct (String.eqb_spec (id tree) nodeId) as [E | Hne].
  - rewrite updateNodeInTree_eq, (proj2 (String.eqb_eq _ _) E).
    rewrite (allNodes_eq (spread tree updates)), (allNodes_eq tree).
    assert (Ek : kids (spread tree updates) = kids tree).
    { unfold kids, spread. cbn [children]. now rewrite Hc. }
    rewrite Ek. cbn [map]. f_equal.
    + unfold mergedNode. now rewrite (proj2 (String.eqb_eq _ _) E).
    + apply map_ext_in. intros m Hm. unfold mergedNode.
      destruct (String.eqb_spec (id m) nodeId) as [Em|]; [|reflexivity].
      exfalso. apply uniqueIds_inv in Hu as (Hself & _). apply Hself.
      rewrite descendantIds_eq, E, <- Em.
      apply in_flat_map in Hm as (k & Hk & Hm). apply in_flat_map.
      exists k. split; [exact Hk|]. unfold allIds. now apply in_map.
  - destruct (updateNodeInTree_other nodeId updates tree Hne) as [Hf Hk].
    rewrite (allNodes_eq (updateNodeInTree nodeId updates tree)), (allNodes_eq tree).
    rewrite Hk. cbn [map]. f_equal.
    + rewrite Hf. unfold mergedNode.
      now destruct (String.eqb_spec (id tree) nodeId).
    + apply uniqueIds_inv in Hu as (_ & Huk & _). clear Hk Hf.
      induction IH as [|k ks Hk1 _ IHks]; [reflexivity|].
      apply Forall_cons in Huk as [Hu1 Hu2].
      cbn [map flat_map]. rewrite !map_app, (Hk1 Hu1). f_equal.
      now apply IHks.
Qed.

Lemma setNth_app {A} (l1 l2 : list A) c x :
  setNth (length l1) x (l1 ++ c :: l2) = l1 ++ x :: l2.
Proof. induction l1 as [|a l1 IH]; simpl; [reflexivity|]. now rewrite IH. Qed.

(** Replacing a subtree changes the document-order list of nodes only in the
    segment of that subtree. *)
Lemma replaceAt_nodes p :
  forall t n new,
    nodeAt t p = Some n ->
    exists before after,
      map ownFields (allNodes t) = before ++ map ownFields (allNodes n) ++ after /\
      map ownFields (allNodes (replaceAt t p new))
      = before ++ map ownFields (allNodes new) ++ after.
Proof.
  induction p as [|i p IH]; intros t n new Hn.
  - injection Hn as <-. exists [], []. cbn [replaceAt app].
    now rewrite !app_nil_r.
  - simpl in Hn. cbn [replaceAt].
    destruct (nth_error (kids t) i) as [c|] eqn:Ec; [|discriminate].
    destruct (IH c n new Hn) as (b & a & H1 & H2).
    destruct (nth_error_split _ _ Ec) as (l1 & l2 & Ek & Hl).
    exists (ownFields t :: map ownFields (flat_map allNodes l1) ++ b),
           (a ++ map ownFields (flat_map allNodes l2)).
    rewrite (allNodes_eq t), (allNodes_eq (withChildren t _)), kids_withChildren.
    rewrite Ek, <- Hl, setNth_app, !flat_map_app. cbn [flat_map map].
    rewrite !map_app, H1, H2, ownFields_withChildren.
    cbn [app]. split; f_equal; now rewrite <- !app_assoc.
Qed.

(** C6, as the code has it.  In a tree with unique ids, [updateNodeInTree]
    returns the input with [{...node, ...updates}] in the place of the node
    with the id and nothing else changed: the supplied fields are replaced,
    the others keep their values, and the nodes of the result in document
    order are those of the input with the segment of the matched node's
    subtree replaced by the nodes of the merged node.  Every node with another id that is not a
    descendant of that node keeps its place and its own fields.  When the
    update supplies no [children], the nodes of the result are, in document
    order, the nodes of the input with only the matched one merged, so the
    descendants are unchanged as well.  When the id occurs nowhere, the
    result equals the input. *)
Theorem C6_updateNode_shallow_merge :
  forall tree nodeId updates,
    uniqueIds tree ->
    (forall p n, nodeAt tree p = Some n -> id n = nodeId ->
                 updateNodeInTree nodeId updates tree
                 = replaceAt tree p (spread n updates) /\
                 nodeAt (updateNodeInTree nodeId updates tree) p
                 = Some (spread n updates) /\
                 exists before after,
                   map ownFields (allNodes tree)
                   = before ++ map ownFields (allNodes n) ++ after /\
                   map ownFields (allNodes (updateNodeInTree nodeId updates tree))
                   = before ++ map ownFields (allNodes (spread n updates)) ++ after) /\
    (forall q n', nodeAt tree q = Some n' -> pathAvoids tree nodeId q ->
                  option_map ownFields
                    (nodeAt (updateNodeInTree nodeId updates tree) q)
                  = Some (ownFields n')) /\
    (u_children updates = None ->
     othersUnchanged tree (updateNodeInTree nodeId updates tree) nodeId /\
     map ownFields (allNodes (updateNodeInTree nodeId updates tree))
     = map (fun m => ownFields (mergedNode nodeId updates m)) (allNodes tree) /\
     length (allNodes (updateNodeInTree nodeId updates tree))
     = length (allNodes tree)) /\
    (~ In nodeId (allIds tree) -> updateNodeInTree nodeId updates tree = tree).
Proof.
  intros tree nodeId updates Hu. split; [|split; [|split]].
  - intros p n Hn Hid. split; [|split].
    + now apply updateNodeInTree_replaceAt.
    + now apply updateNodeInTree_match.
    + rewrite (updateNodeInTree_replaceAt nodeId updates p tree n Hu Hn Hid).
      now apply replaceAt_nodes.
  - intros q n'. apply updateNodeInTree_outside.
  - intros Hc. split; [|split].
    + intros q n'. now apply updateNodeInTree_keeps_children.
    + now apply updateNodeInTree_nodes.
    + pose proof (updateNodeInTree_nodes nodeId updates tree Hu Hc) as H.
      apply (f_equal (@length _)) in H. now rewrite !length_map in H.
  - apply updateNodeInTree_absent.
Qed.

(** C6 on the chain [r] - [a] - [b], relabelling [a]: the result is the
    chain with the relabelled [a] in its place, and it has the three nodes of
    the input with only [a] changed. *)
Lemma C6_updateNode_shallow_merge_witness :
  updateNodeInTree "a" relabel chainRoot
  = replaceAt chainRoot [0] (spread (bare "a" (Some [bare "b" None])) relabel)
  /\ map ownFields (allNodes (updateNodeInTree "a" relabel chainRoot))
     = map (fun m => ownFields (mergedNode "a" relabel m)) (allNodes chainRoot)
  /\ othersUnchanged chainRoot (updateNodeInTree "a" relabel chainRoot) "a".
Proof.
  destruct (C6_updateNode_shallow_merge chainRoot "a" relabel uniqueIds_chainRoot)
    as (H1 & _ & H3 & _).
  destruct (H1 [0] (bare "a" (Some [bare "b" None])) eq_refl eq_refl) as (H1a & _).
  destruct (H3 eq_refl) as (H3a & H3b & _).
  split; [exact H1a|]. split; [exact H3b | exact H3a].
Defined.

(** ** Clicks and deletions followed by the search effect *)

Lemma sameSelection_true a b : sameSelection a b = true <-> a = b.
Proof.
  destruct a as [x|], b as [y|]; simpl; try (split; congruence).
  rewrite String.eqb_eq. split; congruence.
Qed.

Lemma syncSearchHighlight_fields st :
  collapsedNodes (syncSearchHighlight st) = collapsedNodes st /\
  selectedNodeId (syncSearchHighlight st) = selectedNodeId st /\
  hoveredNodeId (syncSearchHighlight st) = hoveredNodeId st /\
  mindmapData (syncSearchHighlight st) = mindmapData st /\
  showSidePanel (syncSearchHighlight st) = showSidePanel st /\
  searchQuery (syncSearchHighlight st) = searchQuery st.
Proof.
  unfold syncSearchHighlight.
  destruct (nonEmpty (trim (searchQuery st))); [repeat split|].
  destruct (negb (truthy (selectedNodeId st))); repeat split.
Qed.

Lemma syncSearchHighlight_highlights st :
  highlightedNodes (syncSearchHighlight st)
  = if allWhiteSpace (searchQuery st)
    then if truthy (selectedNodeId st) then highlightedNodes st else ∅
    else list_to_set (searchNodes st (searchQuery st)).
Proof.
  unfold syncSearchHighlight. rewrite trim_blank.
  destruct (allWhiteSpace (searchQuery st)); [|reflexivity]. cbn [negb].
  now destruct (truthy (selectedNodeId st)).
Qed.

Lemma afterClick_fields st fn :
  collapsedNodes (afterClick st fn) = collapsedNodes (onNodeClick st fn) /\
  selectedNodeId (afterClick st fn) = Some (fn_id fn) /\
  showSidePanel (afterClick st fn) = showSidePanel (onNodeClick st fn) /\
  mindmapData (afterClick st fn) = mindmapData st /\
  searchQuery (afterClick st fn) = searchQuery st.
Proof.
  unfold afterClick.
  destruct (sameSelection _ _); [repeat split|].
  destruct (syncSearchHighlight_fields (onNodeClick st fn))
    as (H1 & H2 & _ & H4 & H5 & H6).
  rewrite H1, H2, H4, H5, H6. repeat split.
Qed.

(** What is highlighted once the render after a click is over. *)
Lemma afterClick_highlights st fn :
  highlightedNodes (afterClick st fn)
  = if sameSelection (selectedNodeId st) (Some (fn_id fn))
    then highlightedNodes (onNodeClick st fn)
    else if allWhiteSpace (searchQuery st)
         then if truthy (Some (fn_id fn))
              then highlightedNodes (onNodeClick st fn) else ∅
         else list_to_set (searchNodes st (searchQuery st)).
Proof.
  unfold afterClick.
  change (selectedNodeId (onNodeClick st fn)) with (Some (fn_id fn)).
  destruct (sameSelection _ _); [reflexivity|].
  rewrite syncSearchHighlight_highlights. reflexivity.
Qed.







Lemma afterDelete_eq st nodeId :
  nodeId <> id (root (mindmapData st)) ->
  afterDelete st nodeId = syncSearchHighlight (handleDeleteNode st nodeId).
Proof.
  intros Hne. unfold afterDelete.
  destruct (String.eqb_spec nodeId (id (root (mindmapData st)))) as [|_];
    [contradiction|].
  destruct (deleteNodeFromTree (root (mindmapData st)) nodeId) eqn:E; [reflexivity|].
  apply deleteNodeFromTree_None in E. contradiction.
Qed.

(** C9, as the code has it.  After a deletion of an id other than the root's
    and the render that follows it: the tree without the node is stored,
    [selectedNodeId] is [null], the panel is closed and no node is shown in
    it, whatever the selection was before.  The handler empties the
    highlighted set; the search effect then runs because the document
    changed, and it leaves the set empty when the query is blank and fills it
    with the search results over the new tree otherwise. *)
Theorem C9_delete_clears_selection :
  forall st nodeId,
    nodeId <> id (root (mindmapData st)) ->
    let st' := afterDelete st nodeId in
    deleteNodeFromTree (root (mindmapData st)) nodeId
    = Some (root (mindmapData st')) /\
    selectedNodeId st' = None /\
    selectedNode st' = None /\
    showSidePanel st' = false /\
    highlightedNodes (handleDeleteNode st nodeId) = ∅ /\
    (allWhiteSpace (searchQuery st) = true -> highlightedNodes st' = ∅) /\
    (allWhiteSpace (searchQuery st) = false ->
     highlightedNodes st' = list_to_set (searchNodes st' (searchQuery st))).
Proof.
  intros st nodeId Hne st'.
  destruct (handleDeleteNode_clears st nodeId Hne) as (H1 & H2 & H3 & H4).
  assert (E : st' = syncSearchHighlight (handleDeleteNode st nodeId))
    by (now apply afterDelete_eq).
  destruct (syncSearchHighlight_fields (handleDeleteNode st nodeId))
    as (_ & F2 & _ & F4 & F5 & F6).
  pose proof (syncSearchHighlight_highlights (handleDeleteNode st nodeId)) as Hh.
  rewrite <- E in F2, F4, F5, F6, Hh.
  assert (Hq : searchQuery (handleDeleteNode st nodeId) = searchQuery st).
  { unfold handleDeleteNode.
    destruct (String.eqb nodeId (id (root (mindmapData st)))); [reflexivity|].
    now destruct (deleteNodeFromTree (root (mindmapData st)) nodeId). }
  rewrite Hq, H2, H4 in Hh. cbn [truthy] in Hh.
  assert (Hs : selectedNodeId st' = None) by (now rewrite F2).
  split; [now rewrite F4|]. split; [exact Hs|].
  split; [unfold selectedNode; now rewrite Hs|].
  split; [now rewrite F5|]. split; [exact H4|]. split.
  - intros Hb. now rewrite Hh, Hb.
  - intros Hb. rewrite Hh, Hb. unfold searchNodes. now rewrite F4.
Qed.

(** C9 on the chain [r] - [a] - [b]: [r] is selected and highlighted, the
    query is empty, [b] is deleted, and the selection and the highlights are
    gone. *)
Lemma C9_delete_clears_selection_witness :
  selectedNodeId
    (afterDelete
       (mkState ∅ (Some "r") None {[ "r" ]} (mkData chainRoot None None) true "")
       "b") = None
  /\ highlightedNodes
       (afterDelete
          (mkState ∅ (Some "r") None {[ "r" ]} (mkData chainRoot None None) true "")
          "b") = ∅.
Proof.
  destruct (C9_delete_clears_selection
              (mkState ∅ (Some "r") None {[ "r" ]} (mkData chainRoot None None) true "")
              "b") as (_ & H2 & _ & _ & _ & H6 & _).
  - discriminate.
  - split; [exact H2 | apply H6; reflexivity].
Defined.

(** The claim C9 fails as stated: in the scenario document with the query
    [root] in the search box, deleting [a] succeeds, and after it the
    highlighted set is the search result [{r}], not the empty set. *)
Lemma C9_counterexample_active_search :
  "a" <> id (root (mindmapData searchingState)) /\
  In "a" (allIds (root (mindmapData searchingState))) /\
  ~ In "a" (allIds (root (mindmapData (afterDelete searchingState "a")))) /\
  highlightedNodes (afterDelete searchingState "a") = list_to_set ["r"] /\
  highlightedNodes (afterDelete searchingState "a") <> ∅.
Proof.
  assert (Hh : highlightedNodes (afterDelete searchingState "a") = list_to_set ["r"]).
  { rewrite afterDelete_eq by discriminate.
    rewrite syncSearchHighlight_highlights.
    change (allWhiteSpace (searchQuery (handleDeleteNode searchingState "a")))
      with false. cbv iota.
    change (searchQuery (handleDeleteNode searchingState "a")) with "root".
    assert (E : searchNodes (handleDeleteNode searchingState "a") "root" = ["r"])
      by (vm_compute; reflexivity).
    now rewrite E. }
  split; [discriminate|]. split; [simpl; auto|]. split.
  - vm_compute. intros [E | [E | [E | []]]]; discriminate.
  - split; [exact Hh|]. rewrite Hh. intros E.
    apply (not_elem_of_empty (C := gset string) "r"). rewrite <- E.
    apply elem_of_list_to_set. now left.
Qed.

(** ** Two clicks, and what is drawn after a click *)

Lemma onNodeClick_highlights_data st st' fn :
  mindmapData st = mindmapData st' ->
  highlightedNodes (onNodeClick st fn) = highlightedNodes (onNodeClick st' fn).
Proof. intros E. unfold onNodeClick. cbn [highlightedNodes]. now rewrite E. Qed.

Lemma afterClick_same st fn :
  selectedNodeId st = Some (fn_id fn) -> afterClick st fn = onNodeClick st fn.
Proof.
  intros E. unfold afterClick.
  change (selectedNodeId (onNodeClick st fn)) with (Some (fn_id fn)).
  now rewrite (proj2 (sameSelection_true _ _) E).
Qed.

(** X14.  Clicking the same node twice, each click followed by the render
    after it: the collapsed set is back as it was before the first click,
    the node is selected and the panel is open.  The second click does not
    change the selection, so the search effect does not run after it, and
    the highlighted set is the one the click handler computes (the node, its
    children and its parent), whatever the search query. *)
Theorem double_click_restores_collapsed_set :
  forall st fn,
    let st1 := afterClick st fn in
    let st2 := afterClick st1 fn in
    collapsedNodes st2 = collapsedNodes st /\
    selectedNodeId st2 = Some (fn_id fn) /\
    showSidePanel st2 = true /\
    highlightedNodes st2 = highlightedNodes (onNodeClick st fn) /\
    (fn_id fn ∈ highlightedNodes st2) /\
    mindmapData st2 = mindmapData st.
Proof.
  intros st fn st1 st2.
  destruct (afterClick_fields st fn) as (C1 & S1 & P1 & D1 & _).
  fold st1 in C1, S1, P1, D1.
  assert (E2 : st2 = onNodeClick st1 fn) by (now apply afterClick_same).
  assert (Hh : highlightedNodes st2 = highlightedNodes (onNodeClick st fn)).
  { rewrite E2. now apply onNodeClick_highlights_data. }
  split; [|split; [|split; [|split; [exact Hh|split]]]].
  - rewrite E2. unfold onNodeClick at 1. cbn [collapsedNodes]. rewrite C1.
    unfold onNodeClick. cbn [collapsedNodes].
    destruct (children (nd_originalNode (fn_data fn))) as [cs|]; [|reflexivity].
    destruct (negb (length cs =? 0)); [apply toggle_toggle | reflexivity].
  - now rewrite E2.
  - rewrite E2. unfold onNodeClick. cbn [showSidePanel]. rewrite S1.
    cbn [isSelected]. rewrite String.eqb_refl.
    now destruct (showSidePanel st1).
  - rewrite Hh. apply click_highlights_node.
  - rewrite E2. exact D1.
Qed.

Lemma styleNode_opacity st fn :
  opacity (sn_style (styleNode st fn))
  = if (0 <? size (highlightedNodes st))
       && negb (bool_decide (fn_id fn ∈ highlightedNodes st))
    then (3 / 10)%R else 1%R.
Proof. reflexivity. Qed.

Lemma size_pos_iff (X : gset string) : (0 <? size X) = false <-> X = ∅.
Proof.
  rewrite Nat.ltb_ge. split.
  - intros H. apply leibniz_equiv, size_empty_inv. lia.
  - intros ->. rewrite size_empty. lia.
Qed.

(** A node is dimmed exactly when something is highlighted and it is not. *)
Lemma styleNode_opacity_spec st fn :
  (opacity (sn_style (styleNode st fn)) = 1%R
   <-> highlightedNodes st = ∅ \/ fn_id fn ∈ highlightedNodes st) /\
  (opacity (sn_style (styleNode st fn)) = (3 / 10)%R
   <-> highlightedNodes st <> ∅ /\ fn_id fn ∉ highlightedNodes st).
Proof.
  rewrite styleNode_opacity.
  destruct (0 <? size (highlightedNodes st)) eqn:S.
  - assert (Hne : highlightedNodes st <> ∅).
    { intros E. apply size_pos_iff in E. congruence. }
    destruct (bool_decide_reflect (fn_id fn ∈ highlightedNodes st)) as [Hin | Hin];
      cbn [negb andb]; split; split; intros H; try tauto; try lra.
  - apply size_pos_iff in S. cbn [andb]. split; split; intros H; try tauto; try lra.
Qed.

(** X16.  What is drawn once the render after a click on the node [n] is
    over.  A node has z-index 1000 and is marked selected exactly when it has
    the id of [n]; an edge is drawn as selected (violet) exactly when it
    touches [n], and then it has width 4, is animated and has z-index 100.
    A node is fully opaque exactly when nothing is highlighted or it is
    highlighted, and is at opacity 0.3 otherwise.  When the query is blank
    and the id of [n] is not empty, or when [n] was selected already, the
    highlighted set is the clicked node's related set, so [n] and its
    children are fully opaque; when the query is not blank and the click
    changed the selection, the highlighted set is the search result, so a
    node is fully opaque exactly when the search found nothing or found
    it. *)
Theorem styles_after_click :
  forall st n x y,
    let st' := afterClick st (flowNodeOf n x y) in
    (forall fn, (zIndex (sn_style (styleNode st' fn)) = 1000 <-> fn_id fn = id n) /\
                (sn_isSelected (styleNode st' fn) = true <-> fn_id fn = id n)) /\
    (forall e, (fe_source e = id n \/ fe_target e = id n) <->
               stroke (se_style (styleEdge st' e)) = "#8b5cf6") /\
    (forall e, fe_source e = id n \/ fe_target e = id n ->
               strokeWidth (se_style (styleEdge st' e)) = 4%R /\
               se_animated (styleEdge st' e) = true /\
               se_zIndex (styleEdge st' e) = 100) /\
    (forall fn,
        (opacity (sn_style (styleNode st' fn)) = 1%R
         <-> highlightedNodes st' = ∅ \/ fn_id fn ∈ highlightedNodes st') /\
        (opacity (sn_style (styleNode st' fn)) = (3 / 10)%R
         <-> highlightedNodes st' <> ∅ /\ fn_id fn ∉ highlightedNodes st')) /\
    ((allWhiteSpace (searchQuery st) = true /\ id n <> "") \/
     selectedNodeId st = Some (id n) ->
     highlightedNodes st' = highlightedNodes (onNodeClick st (flowNodeOf n x y)) /\
     (forall fn, fn_id fn = id n \/ In (fn_id fn) (map id (kids n)) ->
                 opacity (sn_style (styleNode st' fn)) = 1%R) /\
     (forall fn, opacity (sn_style (styleNode st' fn)) = 1%R
                 <-> fn_id fn ∈ highlightedNodes st')) /\
    (allWhiteSpace (searchQuery st) = false ->
     selectedNodeId st <> Some (id n) ->
     highlightedNodes st' = list_to_set (searchNodes st (searchQuery st)) /\
     (forall fn, opacity (sn_style (styleNode st' fn)) = 1%R
                 <-> searchNodes st (searchQuery st) = [] \/
                     In (fn_id fn) (searchNodes st (searchQuery st)))).
Proof.
  intros st n x y st'.
  destruct (afterClick_fields st (flowNodeOf n x y)) as (_ & Hsel & _).
  pose proof (afterClick_highlights st (flowNodeOf n x y)) as Hh.
  change (fn_id (flowNodeOf n x y)) with (id n) in Hsel, Hh.
  fold st' in Hsel, Hh.
  assert (Hs : forall j, isSelected (selectedNodeId st') j = true <-> j = id n).
  { intros j. rewrite isSelected_true, Hsel. split; congruence. }
  split; [|split; [|split; [|split; [|split]]]].
  - intros fn. unfold styleNode. cbn [zIndex sn_style sn_isSelected].
    specialize (Hs (fn_id fn)).
    destruct (isSelected (selectedNodeId st') (fn_id fn)).
    + split; split; intros; try reflexivity; now apply Hs.
    + assert (Hne : fn_id fn <> id n) by (intros H; apply Hs in H; discriminate).
      split; split; intros H; try contradiction; try discriminate.
      destruct (isSelected (hoveredNodeId st') (fn_id fn)); [discriminate|].
      destruct (bool_decide _); discriminate.
  - intros e. unfold styleEdge. cbn [stroke se_style].
    pose proof (Hs (fe_source e)) as H1. pose proof (Hs (fe_target e)) as H2.
    destruct (isSelected (selectedNodeId st') (fe_source e));
      destruct (isSelected (selectedNodeId st') (fe_target e)); cbn [orb].
    1-3: split; [reflexivity|]; intros _; tauto.
    split.
    + intros [H | H]; [apply H1 in H | apply H2 in H]; discriminate.
    + destruct (_ || _); [discriminate|]. destruct (_ || _); discriminate.
  - intros e He. unfold styleEdge.
    cbn [strokeWidth se_style se_animated se_zIndex].
    assert (Hor : isSelected (selectedNodeId st') (fe_source e)
                  || isSelected (selectedNodeId st') (fe_target e) = true).
    { apply orb_true_iff. destruct He as [H | H]; [left | right]; now apply Hs. }
    rewrite Hor. repeat split. apply orb_true_r.
  - intros fn. apply styleNode_opacity_spec.
  - intros Hcase.
    assert (E : highlightedNodes st'
                = highlightedNodes (onNodeClick st (flowNodeOf n x y))).
    { rewrite Hh. destruct Hcase as [[Hb Hne] | Hs'].
      - rewrite Hb, (truthy_Some _ Hne). now destruct (sameSelection _ _).
      - now rewrite (proj2 (sameSelection_true _ _) Hs'). }
    assert (Hn : id n ∈ highlightedNodes st').
    { rewrite E. apply (click_highlights_node st (flowNodeOf n x y)). }
    assert (Hiff : forall fn, opacity (sn_style (styleNode st' fn)) = 1%R
                              <-> fn_id fn ∈ highlightedNodes st').
    { intros fn. rewrite (proj1 (styleNode_opacity_spec st' fn)). split; [|tauto].
      intros [H | H]; [|exact H]. exfalso.
      apply (not_elem_of_empty (C := gset string) (id n)). now rewrite <- H. }
    split; [exact E|]. split; [|exact Hiff].
    intros fn Hfn. apply Hiff. destruct Hfn as [-> | Hk]; [exact Hn|].
    rewrite E. now apply click_highlights_children.
  - intros Hb Hs'.
    assert (E : highlightedNodes st' = list_to_set (searchNodes st (searchQuery st))).
    { rewrite Hh, Hb.
      destruct (sameSelection (selectedNodeId st) (Some (id n))) eqn:S; [|reflexivity].
      apply sameSelection_true in S. contradiction. }
    split; [exact E|]. intros fn.
    rewrite (proj1 (styleNode_opacity_spec st' fn)), E.
    rewrite elem_of_list_to_set, list_elem_of_In.
    split; intros [H | H]; try (now right); left.
    + destruct (searchNodes st (searchQuery st)) as [|a l]; [reflexivity|].
      exfalso. apply (not_elem_of_empty (C := gset string) a). rewrite <- H.
      apply elem_of_list_to_set. now left.
    + now rewrite H.
Qed.

(** X16 on the chain [r] - [a] - [b] with an empty query: after a click on
    [a], its child [b] is fully opaque. *)
Lemma styles_after_click_witness :
  opacity (sn_style (styleNode
    (afterClick (initialState chainRoot) (flowNodeOf (bare "a" (Some [bare "b" None])) 0 0))
    (flowNodeOf (bare "b" None) 0 0))) = 1%R.
Proof.
  destruct (styles_after_click (initialState chainRoot)
              (bare "a" (Some [bare "b" None])) 0%R 0%R)
    as (_ & _ & _ & _ & H & _).
  destruct H as (_ & H & _).
  - left. split; [reflexivity | discriminate].
  - apply H. right. simpl. auto.
Defined.
